(** * Chunk metadata manager and fixed-size hash table (mongo: s/chunk.cpp,
    s/chunk.h, util/hashtab.h)

  A shallow embedding of the parts of the sources that the specification
  talks about, and the theorems that settle each of its claims.

  Conventions.
  - C++ [int]/[long] values are [Z]; every arithmetic step of the embedded
    code stays far inside the machine range (indices below the table size,
    a division by a constant), except where noted.
  - [unsigned long long] (ShardChunkVersion) is a [Z] in [0, 2^64) with the
    wrap-around of [++] written out.
  - Functions of the repository that are not part of the sources at hand
    (the BSON comparators, [Key::hash], the backend replies) are section
    variables or fields of an environment record. *)

From Stdlib Require Import String Ascii ZArith List Bool Lia DecimalString Sorted.
From Stdlib Require OrderedTypeEx.
Import ListNotations.
Open Scope Z_scope.

(* ===================================================================== *)
(** ** util/hashtab.h : [HashTable<Key,Type,PTR>]                         *)
(* ===================================================================== *)

Module HashTab.
Section HashTable.

(** Template parameters [Key] and [Type]; what the template asks of them. *)
Variables (Key Value : Type).
Variable Key_hash : Key -> Z.              (* int Key::hash()            *)
Variable Key_eq : Key -> Key -> bool.      (* Key::operator==            *)
Variable Key_kill : Key -> Key.            (* void Key::kill()           *)
Variables (zeroKey : Key) (zeroValue : Value). (* all-zero bytes          *)
Variable sizeofNode : Z.                   (* sizeof(Node), packed        *)

Record Node := mkNode { hash : Z; k : Key; value : Value }.

Definition inUse (nd : Node) : bool := negb (hash nd =? 0).
Definition setUnused (nd : Node) : Node := mkNode 0 (k nd) (value nd).

(** The table: the buffer seen as an array of nodes, [n] and [maxChain]. *)
Record HashTable := mkTable { _buf : list Node; n : Z; maxChain : Z }.

Definition zeroNode : Node := mkNode 0 zeroKey zeroValue.

(** [Node& nodes(int i)] *)
Definition nodes (t : HashTable) (i : Z) : Node :=
  nth (Z.to_nat i) (_buf t) zeroNode.

Fixpoint set_nth (l : list Node) (i : nat) (x : Node) : list Node :=
  match l, i with
  | [], _ => []
  | _ :: l', O => x :: l'
  | y :: l', S i' => y :: set_nth l' i' x
  end.

Definition set_node (t : HashTable) (i : Z) (x : Node) : HashTable :=
  mkTable (set_nth (_buf t) (Z.to_nat i) x) (n t) (maxChain t).

(** The test of line 77: [nodes(i).hash == h && nodes(i).k == k]. *)
Definition hit (nd : Node) (h : Z) (key : Key) : bool :=
  (hash nd =? h) && Key_eq (k nd) key.

(** Result of [_find]: the returned index, the [found] out-parameter, and
    (ghost) the number of slots that were examined. *)
Record FindResult := mkFind { idx : Z; found : bool; probes : Z }.

(** The [while (1)] loop of [_find]; one unit of fuel per iteration. *)
Fixpoint find_loop (fuel : nat) (t : HashTable) (key : Key) (h start : Z)
         (i chain firstNonUsed : Z) : option FindResult :=
  match fuel with
  | O => None
  | S fuel' =>
      let firstNonUsed :=
        if negb (inUse (nodes t i))
        then (if firstNonUsed <? 0 then i else firstNonUsed)
        else firstNonUsed in
      if hit (nodes t i) h key then Some (mkFind i true (chain + 1))
      else
        let chain := chain + 1 in
        let i := Z.rem (i + 1) (n t) in
        if i =? start then Some (mkFind (-1) false chain)
        else if chain >=? maxChain t then
               (if firstNonUsed >=? 0
                then Some (mkFind firstNonUsed false chain)
                else Some (mkFind (-1) false chain))
        else find_loop fuel' t key h start i chain firstNonUsed
  end.

(** [int _find(const Key& k, bool& found)] *)
Definition _find (t : HashTable) (key : Key) : option FindResult :=
  let h := Key_hash key in
  let i := Z.rem h (n t) in
  find_loop (Z.to_nat (n t)) t key h i i 0 (-1).

(** The constructor: [n = buflen / m], forced odd, [maxChain = (int)(n * 0.05)].
    For an odd [n] the product [n * 0.05] is at least 0.05 away from an
    integer, so the conversion to [int] is the integer quotient by 20.
    The buffer holds [buflen / m] whole nodes, all zero. *)
Definition HashTable_ctor (buflen : Z) : option HashTable :=
  let m := sizeofNode in
  let n0 := Z.quot buflen m in
  let n1 := if Z.land n0 1 =? 0 then n0 - 1 else n0 in
  let mc := Z.quot n1 20 in
  if sizeofNode =? 628
  then Some (mkTable (repeat zeroNode (Z.to_nat n0)) n1 mc)
  else None.

(** [Type* get(const Key& k)]: [None] is the null pointer. *)
Definition get (t : HashTable) (key : Key) : option (option Value) :=
  match _find t key with
  | None => None
  | Some r => Some (if found r then Some (value (nodes t (idx r))) else None)
  end.

(** [void kill(const Key& k)] *)
Definition kill (t : HashTable) (key : Key) : option HashTable :=
  match _find t key with
  | None => None
  | Some r =>
      if (idx r >=? 0) && found r then
        let nd := nodes t (idx r) in
        Some (set_node t (idx r) (setUnused (mkNode (hash nd) (Key_kill (k nd)) (value nd))))
      else Some t
  end.

(** [bool put(const Key& k, const Type& value)] *)
Definition put (t : HashTable) (key : Key) (v : Value) : option (HashTable * bool) :=
  match _find t key with
  | None => None
  | Some r =>
      if idx r <? 0 then Some (t, false)
      else
        let nd := nodes t (idx r) in
        if negb (found r)
        then Some (set_node t (idx r) (mkNode (Key_hash key) key v), true)
        else (* assert( n.hash == k.hash() ) *)
          if hash nd =? Key_hash key
          then Some (set_node t (idx r) (mkNode (hash nd) (k nd) v), true)
          else None
  end.

(** [void iterAll( IteratorCallback callback )] and its variant with
    [void * extra]: every node in use is handed to the callback, its key by
    const reference and its value by reference.  [St] is what the callback
    can reach besides (the [extra] argument, globals). *)
Section IterAll.
Variable St : Type.
Variable callback : Key -> Value -> St -> Value * St.

Fixpoint iterAll_loop (count : nat) (i : Z) (t : HashTable) (s : St)
  : HashTable * St :=
  match count with
  | O => (t, s)
  | S count' =>
      let nd := nodes t i in
      if negb (inUse nd) then iterAll_loop count' (i + 1) t s
      else
        let '(v, s') := callback (k nd) (value nd) s in
        iterAll_loop count' (i + 1) (set_node t i (mkNode (hash nd) (k nd) v)) s'
  end.

Definition iterAll (t : HashTable) (s : St) : HashTable * St :=
  iterAll_loop (Z.to_nat (n t)) 0 t s.

End IterAll.

(** A callback that leaves the values alone and notes what it is given. *)
Definition note (key : Key) (v : Value) (seen : list (Key * Value))
  : Value * list (Key * Value) :=
  (v, seen ++ [(key, v)]).

(** The nodes in use among the [n] slots, in slot order. *)
Definition in_use_nodes (t : HashTable) : list Node :=
  filter inUse (firstn (Z.to_nat (n t)) (_buf t)).

(** Tables that the operations can produce from a zeroed buffer. *)
Inductive reachable : HashTable -> Prop :=
| reach_ctor : forall buflen t,
    sizeofNode <= buflen -> HashTable_ctor buflen = Some t -> reachable t
| reach_put : forall t key v t' b,
    reachable t -> put t key v = Some (t', b) -> reachable t'
| reach_kill : forall t key t',
    reachable t -> kill t key = Some t' -> reachable t'.

(** The slot examined at the [d]-th iteration of a search that starts at
    [start]: [d] applications of [i = (i+1) % n]. *)
Fixpoint probe (t : HashTable) (start : Z) (d : nat) : Z :=
  match d with
  | O => start
  | S d' => Z.rem (probe t start d' + 1) (n t)
  end.

(** Shape of a usable table: a positive size within the buffer. *)
Definition wf (t : HashTable) : Prop :=
  0 < n t /\ n t <= Z.of_nat (length (_buf t)).

(** No key is stored twice, and every stored key is reached by its search. *)
Definition no_dup (t : HashTable) : Prop :=
  forall key i j, 0 <= i < n t -> 0 <= j < n t ->
    hit (nodes t i) (Key_hash key) key = true ->
    hit (nodes t j) (Key_hash key) key = true -> i = j.

Definition findable (t : HashTable) : Prop :=
  forall key j, 0 <= j < n t ->
    hit (nodes t j) (Key_hash key) key = true ->
    exists r, _find t key = Some r /\ found r = true.

(** *** Facts about the array *)

Hypothesis Key_eq_spec : forall a b, Key_eq a b = true <-> a = b.
Hypothesis Key_hash_pos : forall a, 0 < Key_hash a.

Lemma set_nth_length l i x : length (set_nth l i x) = length l.
Proof.
  revert i; induction l as [|y l IH]; intros [|i]; simpl; auto.
Qed.

Lemma nth_set_nth_same l i x d :
  (i < length l)%nat -> nth i (set_nth l i x) d = x.
Proof.
  revert i; induction l as [|y l IH]; intros [|i] H; simpl in *; try lia; auto.
  apply IH; lia.
Qed.

Lemma nth_set_nth_other l i j x d :
  i <> j -> nth j (set_nth l i x) d = nth j l d.
Proof.
  revert i j; induction l as [|y l IH]; intros [|i] [|j] H; simpl; auto.
  - congruence.
Qed.

Lemma nodes_set_same t i x :
  0 <= i < Z.of_nat (length (_buf t)) -> nodes (set_node t i x) i = x.
Proof.
  intros H. unfold nodes, set_node; simpl. apply nth_set_nth_same. lia.
Qed.

Lemma nodes_set_other t i j x :
  0 <= i -> 0 <= j -> i <> j -> nodes (set_node t i x) j = nodes t j.
Proof.
  intros Hi Hj H. unfold nodes, set_node; simpl. apply nth_set_nth_other. lia.
Qed.

Lemma wf_set_node t i x : wf t -> wf (set_node t i x).
Proof.
  unfold wf, set_node; simpl. rewrite set_nth_length. auto.
Qed.

Lemma rem_range a m : 0 <= a -> 0 < m -> 0 <= Z.rem a m < m.
Proof.
  intros Ha Hm. rewrite Z.rem_mod_nonneg by lia. apply Z.mod_pos_bound; lia.
Qed.

Lemma hit_unused nd key : inUse nd = false -> hit nd (Key_hash key) key = false.
Proof.
  unfold inUse, hit. intros H. apply negb_false_iff in H. apply Z.eqb_eq in H.
  rewrite H. pose proof (Key_hash_pos key).
  destruct (0 =? Key_hash key) eqn:E; auto. apply Z.eqb_eq in E. lia.
Qed.

(** *** The search loop *)

Lemma find_loop_total fuel : forall t key h start i c f,
  0 < n t -> 0 <= start < n t -> 0 <= c < n t ->
  i = (start + c) mod n t ->
  (Z.to_nat (n t - c) <= fuel)%nat ->
  exists r, find_loop fuel t key h start i c f = Some r.
Proof.
  induction fuel as [|fuel IH]; intros t key h start i c f Hn Hs Hc Hi Hf.
  - lia.
  - simpl. destruct (hit (nodes t i) h key); [eauto|].
    destruct (Z.rem (i + 1) (n t) =? start) eqn:E1; [eauto|].
    destruct (c + 1 >=? maxChain t); [destruct (_ >=? 0); eauto|].
    assert (Hi' : Z.rem (i + 1) (n t) = (start + (c + 1)) mod n t).
    { subst i. rewrite Z.rem_mod_nonneg.
      - rewrite Zplus_mod_idemp_l. f_equal. lia.
      - pose proof (Z.mod_pos_bound (start + c) (n t) Hn). lia.
      - lia. }
    apply IH; auto; try lia.
    assert (c + 1 <> n t).
    { intros Heq. apply Z.eqb_neq in E1. apply E1. rewrite Hi'.
      replace (start + (c + 1)) with (start + 1 * n t) by lia.
      rewrite Z_mod_plus_full. apply Z.mod_small. lia. }
    lia.
Qed.

Lemma find_loop_range fuel : forall t key h start i c f r,
  0 < n t -> 0 <= i < n t -> -1 <= f < n t ->
  find_loop fuel t key h start i c f = Some r ->
  -1 <= idx r < n t /\ (found r = true -> 0 <= idx r).
Proof.
  induction fuel as [|fuel IH]; intros t key h start i c f r Hn Hi Hf H.
  - discriminate.
  - simpl in H. destruct (hit (nodes t i) h key).
    { inversion H; subst; simpl. lia. }
    destruct (Z.rem (i + 1) (n t) =? start).
    { inversion H; subst; simpl. split; [lia|discriminate]. }
    set (f1 := if negb (inUse (nodes t i))
               then (if f <? 0 then i else f) else f) in *.
    assert (Hf1 : -1 <= f1 < n t).
    { unfold f1. destruct (negb _); [destruct (f <? 0)|]; lia. }
    destruct (c + 1 >=? maxChain t).
    { destruct (f1 >=? 0); inversion H; subst; simpl;
        (split; [lia|discriminate]). }
    eapply IH; [exact Hn| |exact Hf1|exact H].
    apply rem_range; lia.
Qed.

Lemma find_loop_hit fuel : forall t key h start i c f r,
  find_loop fuel t key h start i c f = Some r ->
  found r = true -> hit (nodes t (idx r)) h key = true.
Proof.
  induction fuel as [|fuel IH]; intros t key h start i c f r H Hfound.
  - discriminate.
  - simpl in H. destruct (hit (nodes t i) h key) eqn:E.
    { inversion H; subst; simpl. exact E. }
    destruct (Z.rem (i + 1) (n t) =? start).
    { inversion H; subst; discriminate. }
    destruct (c + 1 >=? maxChain t).
    { destruct (_ >=? 0); inversion H; subst; discriminate. }
    eapply IH; eauto.
Qed.

(** Once a free slot has been recorded it is the only possible fallback. *)
Lemma find_loop_fallback_fixed fuel : forall t key h start i c f r,
  0 <= f -> find_loop fuel t key h start i c f = Some r ->
  found r = false -> idx r = -1 \/ idx r = f.
Proof.
  induction fuel as [|fuel IH]; intros t key h start i c f r Hf H Hnf.
  - discriminate.
  - simpl in H. destruct (hit (nodes t i) h key).
    { inversion H; subst; discriminate. }
    destruct (Z.rem (i + 1) (n t) =? start).
    { inversion H; subst; simpl; auto. }
    assert (E : (if negb (inUse (nodes t i))
                 then (if f <? 0 then i else f) else f) = f).
    { destruct (negb _); auto. destruct (f <? 0) eqn:E; auto.
      apply Z.ltb_lt in E. lia. }
    rewrite E in H.
    destruct (c + 1 >=? maxChain t).
    { destruct (f >=? 0); inversion H; subst; simpl; auto. }
    eapply IH; eauto.
Qed.

(** The outcome of a search depends on the table only through the hit test
    at the examined slots; the recorded free slot never changes the verdict. *)
Lemma find_loop_ext fuel : forall t t' key h start i c f f',
  n t = n t' -> maxChain t = maxChain t' -> 0 < n t -> 0 <= i < n t ->
  (forall j, 0 <= j < n t -> hit (nodes t j) h key = hit (nodes t' j) h key) ->
  match find_loop fuel t key h start i c f,
        find_loop fuel t' key h start i c f' with
  | Some r, Some r' =>
      found r = found r' /\ probes r = probes r' /\
      (found r = true -> idx r = idx r')
  | None, None => True
  | _, _ => False
  end.
Proof.
  induction fuel as [|fuel IH]; intros t t' key h start i c f f' Hn Hm Hpos Hi Hh.
  - simpl. exact I.
  - simpl. rewrite <- (Hh i Hi). destruct (hit (nodes t i) h key).
    { simpl. auto. }
    rewrite <- Hn, <- Hm.
    destruct (Z.rem (i + 1) (n t) =? start).
    { simpl. repeat split; auto. }
    destruct (c + 1 >=? maxChain t).
    { repeat match goal with |- context [if ?b then _ else _] => destruct b end;
        simpl; repeat split; auto; discriminate. }
    apply IH; auto. apply rem_range; lia.
Qed.

(** Storing a matching node in the slot a failed search fell back to makes
    the same search succeed at that slot. *)
Lemma find_loop_after_store fuel : forall t key h start i c f f' r x,
  0 < n t -> 0 <= i < n t -> n t <= Z.of_nat (length (_buf t)) ->
  f < 0 ->
  find_loop fuel t key h start i c f = Some r ->
  found r = false -> 0 <= idx r ->
  hit x h key = true ->
  exists p, find_loop fuel (set_node t (idx r) x) key h start i c f'
            = Some (mkFind (idx r) true p).
Proof.
  induction fuel as [|fuel IH];
    intros t key h start i c f f' r x Hn Hi Hlen Hf H Hnf Hidx Hx.
  - discriminate.
  - simpl in H. simpl.
    destruct (hit (nodes t i) h key) eqn:E.
    { inversion H; subst; discriminate. }
    destruct (Z.eq_dec (idx r) i) as [Heq|Hne].
    { rewrite Heq. rewrite nodes_set_same by lia. rewrite Hx. eauto. }
    rewrite nodes_set_other by lia. rewrite E.
    destruct (Z.rem (i + 1) (n t) =? start).
    { inversion H; subst; simpl in *; lia. }
    destruct (negb (inUse (nodes t i))) eqn:U.
    + (* slot i is free: it is recorded and must be the result *)
      assert (Hfi : (if f <? 0 then i else f) = i).
      { destruct (f <? 0) eqn:E2; auto. apply Z.ltb_ge in E2. lia. }
      rewrite Hfi in H.
      assert (idx r = -1 \/ idx r = i).
      { destruct (c + 1 >=? maxChain t).
        - destruct (i >=? 0); inversion H; subst; simpl; auto.
        - eapply find_loop_fallback_fixed; eauto. lia. }
      lia.
    + destruct (c + 1 >=? maxChain t).
      { destruct (f >=? 0) eqn:E2; [apply Z.geb_le in E2; lia|].
        inversion H; subst; simpl in *; lia. }
      eapply IH; eauto. apply rem_range; lia.
Qed.

Lemma find_loop_probes fuel : forall t key h start i c f r,
  find_loop fuel t key h start i c f = Some r ->
  c + 1 <= probes r <= Z.max (c + 1) (maxChain t).
Proof.
  induction fuel as [|fuel IH]; intros t key h start i c f r H.
  - discriminate.
  - simpl in H. destruct (hit (nodes t i) h key).
    { inversion H; subst; simpl. lia. }
    destruct (Z.rem (i + 1) (n t) =? start).
    { inversion H; subst; simpl. lia. }
    destruct (c + 1 >=? maxChain t) eqn:E.
    { destruct (_ >=? 0); inversion H; subst; simpl; lia. }
    apply IH in H. rewrite Z.geb_leb in E. apply Z.leb_gt in E. lia.
Qed.

Lemma probe_shift t i d :
  probe t (Z.rem (i + 1) (n t)) d = probe t i (S d).
Proof.
  induction d as [|d IH]; simpl; auto. rewrite IH. reflexivity.
Qed.

(** The fallback of a failed search is the first free slot among those it
    examined. *)
Lemma find_loop_first_unused fuel : forall t key h start i c f r,
  0 < n t -> f < 0 -> 0 <= i ->
  find_loop fuel t key h start i c f = Some r ->
  found r = false -> 0 <= idx r ->
  exists d, Z.of_nat d < probes r - c /\ idx r = probe t i d /\
            inUse (nodes t (idx r)) = false /\
            forall d', (d' < d)%nat -> inUse (nodes t (probe t i d')) = true.
Proof.
  induction fuel as [|fuel IH]; intros t key h start i c f r Hn Hf Hi H Hnf Hidx.
  - discriminate.
  - pose proof (find_loop_probes _ _ _ _ _ _ _ _ _ H) as Hp.
    simpl in H. destruct (hit (nodes t i) h key).
    { inversion H; subst; discriminate. }
    destruct (Z.rem (i + 1) (n t) =? start) eqn:Es.
    { inversion H; subst; simpl in *; lia. }
    destruct (inUse (nodes t i)) eqn:U; simpl negb in H; cbv iota in H.
    + destruct (c + 1 >=? maxChain t).
      { destruct (f >=? 0) eqn:E2; [apply Z.geb_le in E2; lia|].
        inversion H; subst; simpl in *; lia. }
      assert (Hi' : 0 <= Z.rem (i + 1) (n t)).
      { apply Z.rem_nonneg; lia. }
      destruct (IH _ _ _ _ _ _ _ _ Hn Hf Hi' H Hnf Hidx) as (d & Hd & He & Hu & Hall).
      exists (S d). rewrite <- probe_shift. repeat split; auto; try lia.
      intros [|d'] Hlt; [simpl; auto|].
      rewrite <- probe_shift. apply Hall. lia.
    + assert (Hfi : (if f <? 0 then i else f) = i).
      { destruct (f <? 0) eqn:E2; auto. apply Z.ltb_ge in E2. lia. }
      rewrite Hfi in H.
      assert (Hr : idx r = i).
      { destruct (c + 1 >=? maxChain t).
        - destruct (i >=? 0); inversion H; subst; simpl in *; lia.
        - destruct (find_loop_fallback_fixed _ _ _ _ _ _ _ _ _ Hi H Hnf); lia. }
      exists O. simpl. rewrite Hr. repeat split; auto; try lia.
Qed.

(** *** [_find] on a well-formed table *)

Lemma start_range t key : 0 < n t -> 0 <= Z.rem (Key_hash key) (n t) < n t.
Proof.
  intros Hn. apply rem_range; auto. pose proof (Key_hash_pos key). lia.
Qed.

Lemma _find_total t key : wf t -> exists r, _find t key = Some r.
Proof.
  intros [Hn _]. unfold _find.
  apply find_loop_total; auto; try lia.
  - apply start_range; auto.
  - rewrite Z.add_0_r. symmetry. apply Z.mod_small. apply start_range; auto.
Qed.

Lemma _find_range t key r :
  wf t -> _find t key = Some r ->
  -1 <= idx r < n t /\ (found r = true -> 0 <= idx r).
Proof.
  intros [Hn _] H. unfold _find in H.
  eapply find_loop_range; [exact Hn| | |exact H].
  - apply start_range; auto.
  - lia.
Qed.

Lemma _find_hit t key r :
  _find t key = Some r -> found r = true ->
  hit (nodes t (idx r)) (Key_hash key) key = true.
Proof. intros H. eapply find_loop_hit; eauto. Qed.

Lemma _find_ext t t' key r :
  wf t -> n t = n t' -> maxChain t = maxChain t' ->
  (forall j, 0 <= j < n t ->
     hit (nodes t j) (Key_hash key) key = hit (nodes t' j) (Key_hash key) key) ->
  _find t key = Some r ->
  exists r', _find t' key = Some r' /\ found r' = found r /\
             probes r' = probes r /\ (found r = true -> idx r' = idx r).
Proof.
  intros [Hn _] En Em Hh H. unfold _find in *.
  pose proof (find_loop_ext (Z.to_nat (n t)) t t' key (Key_hash key)
                (Z.rem (Key_hash key) (n t)) (Z.rem (Key_hash key) (n t)) 0 (-1) (-1)
                En Em Hn (start_range t key Hn) Hh) as X.
  rewrite H in X. rewrite <- En.
  destruct (find_loop _ t' _ _ _ _ _ _) as [r'|]; [|contradiction].
  exists r'. destruct X as (A & B & C). repeat split; auto.
  intros F. symmetry. auto.
Qed.

Lemma _find_no_hit t key r :
  wf t ->
  (forall j, 0 <= j < n t -> hit (nodes t j) (Key_hash key) key = false) ->
  _find t key = Some r -> found r = false.
Proof.
  intros Hwf Hno H. destruct (found r) eqn:F; auto.
  pose proof (_find_hit _ _ _ H F) as Hh.
  destruct (_find_range _ _ _ Hwf H) as [R1 R2].
  rewrite Hno in Hh; [discriminate|]. specialize (R2 F). lia.
Qed.

Lemma hit_inv nd key :
  hit nd (Key_hash key) key = true -> hash nd = Key_hash key /\ k nd = key.
Proof.
  unfold hit. intros H. apply andb_true_iff in H. destruct H as [A B].
  apply Z.eqb_eq in A. apply Key_eq_spec in B. auto.
Qed.

Lemma hit_stored key v : hit (mkNode (Key_hash key) key v) (Key_hash key) key = true.
Proof.
  unfold hit; simpl. rewrite Z.eqb_refl. simpl. apply Key_eq_spec. reflexivity.
Qed.

Lemma hit_other key key' v :
  key <> key' -> hit (mkNode (Key_hash key) key v) (Key_hash key') key' = false.
Proof.
  intros Hne. unfold hit; simpl. destruct (Key_eq key key') eqn:E.
  - apply Key_eq_spec in E. contradiction.
  - apply andb_false_r.
Qed.

(** *** What [put] and [kill] do to the array *)

Lemma put_cases t key v t' b :
  wf t -> put t key v = Some (t', b) ->
  exists r, _find t key = Some r /\
    ((idx r < 0 /\ t' = t /\ b = false) \/
     (0 <= idx r < n t /\ b = true /\
      t' = set_node t (idx r) (mkNode (Key_hash key) key v))).
Proof.
  intros Hwf H. unfold put in H.
  destruct (_find t key) as [r|] eqn:F; [|discriminate].
  exists r. split; auto.
  destruct (_find_range _ _ _ Hwf F) as [R1 R2].
  destruct (idx r <? 0) eqn:E.
  - apply Z.ltb_lt in E. inversion H; subst. left; auto.
  - apply Z.ltb_ge in E. right. split; [lia|].
    destruct (found r) eqn:Fd; simpl in H.
    + destruct (hit_inv _ _ (_find_hit _ _ _ F Fd)) as [Hh Hk].
      rewrite Hh, Z.eqb_refl in H. inversion H. split; auto.
      rewrite Hk. reflexivity.
    + inversion H; subst. auto.
Qed.

Lemma put_total t key v : wf t -> exists t' b, put t key v = Some (t', b).
Proof.
  intros Hwf. destruct (_find_total t key Hwf) as [r F].
  unfold put. rewrite F.
  destruct (idx r <? 0); [eauto|].
  destruct (found r) eqn:Fd; simpl; [|eauto].
  destruct (hit_inv _ _ (_find_hit _ _ _ F Fd)) as [Hh _].
  rewrite Hh, Z.eqb_refl. eauto.
Qed.

Lemma kill_cases t key t' :
  wf t -> kill t key = Some t' ->
  exists r, _find t key = Some r /\
    ((found r = false /\ t' = t) \/
     (found r = true /\ 0 <= idx r < n t /\
      t' = set_node t (idx r)
             (mkNode 0 (Key_kill (k (nodes t (idx r)))) (value (nodes t (idx r)))))).
Proof.
  intros Hwf H. unfold kill in H.
  destruct (_find t key) as [r|] eqn:F; [|discriminate].
  exists r. split; auto.
  destruct (_find_range _ _ _ Hwf F) as [R1 R2].
  destruct (found r) eqn:Fd.
  - specialize (R2 eq_refl).
    destruct (idx r >=? 0) eqn:E; [|rewrite Z.geb_leb in E; apply Z.leb_gt in E; lia].
    simpl in H. inversion H; subst. right. repeat split; auto; lia.
  - rewrite andb_false_r in H. inversion H; subst. left; auto.
Qed.

Lemma kill_total t key : wf t -> exists t', kill t key = Some t'.
Proof.
  intros Hwf. destruct (_find_total t key Hwf) as [r F].
  unfold kill. rewrite F. destruct (_ && _); eauto.
Qed.

(** *** Invariants of reachable tables *)

Lemma find_after_store t key v r :
  wf t -> _find t key = Some r -> 0 <= idx r < n t ->
  exists r', _find (set_node t (idx r) (mkNode (Key_hash key) key v)) key = Some r'
             /\ found r' = true /\ idx r' = idx r.
Proof.
  intros Hwf F Hi. pose proof Hwf as [Hn Hlen].
  destruct (found r) eqn:Fd.
  - destruct (_find_ext t (set_node t (idx r) (mkNode (Key_hash key) key v)) key r)
      as (r' & F' & A & _ & C); auto.
    + intros j Hj. destruct (Z.eq_dec (idx r) j) as [<-|Hne].
      * rewrite nodes_set_same by lia. rewrite hit_stored.
        apply _find_hit; auto.
      * rewrite nodes_set_other by lia. reflexivity.
    + exists r'. repeat split; auto. congruence.
  - unfold _find in *. simpl n.
    assert (Hneg : -1 < 0) by lia.
    assert (Hi0 : 0 <= idx r) by lia.
    destruct (find_loop_after_store _ _ _ _ _ _ _ _ (-1) _ (mkNode (Key_hash key) key v)
                Hn (start_range t key Hn) Hlen Hneg F Fd Hi0
                (hit_stored key v)) as [p Hp].
    rewrite Hp. eexists; repeat split; eauto.
Qed.

Lemma fallback_unused t key r :
  wf t -> _find t key = Some r -> found r = false -> 0 <= idx r ->
  inUse (nodes t (idx r)) = false.
Proof.
  intros [Hn _] F Fd Hi. unfold _find in F.
  assert (Hneg : -1 < 0) by lia.
  destruct (find_loop_first_unused _ _ _ _ _ _ _ _ _ Hn Hneg
              (proj1 (start_range t key Hn)) F Fd Hi) as (d & _ & _ & U & _).
  exact U.
Qed.

Lemma inv_put t key v t' b :
  wf t -> no_dup t -> findable t -> put t key v = Some (t', b) ->
  wf t' /\ no_dup t' /\ findable t'.
Proof.
  intros Hwf Hnd Hfa H.
  destruct (put_cases _ _ _ _ _ Hwf H) as (r & F & [(_ & -> & _)|(Hi & _ & ->)]); auto.
  pose proof Hwf as [Hn Hlen].
  set (x := mkNode (Key_hash key) key v).
  assert (H1 : forall key' j, key <> key' -> 0 <= j < n t ->
             hit (nodes (set_node t (idx r) x) j) (Key_hash key') key'
             = hit (nodes t j) (Key_hash key') key').
  { intros key' j Hne Hj. destruct (Z.eq_dec (idx r) j) as [<-|Hij].
    - rewrite nodes_set_same by lia. unfold x. rewrite hit_other by auto.
      symmetry. destruct (found r) eqn:Fd.
      + destruct (hit_inv _ _ (_find_hit _ _ _ F Fd)) as [A B].
        unfold hit. rewrite B. destruct (Key_eq key key') eqn:E.
        * apply Key_eq_spec in E. contradiction.
        * apply andb_false_r.
      + apply hit_unused. eapply fallback_unused; eauto. lia.
    - rewrite nodes_set_other by lia. reflexivity. }
  assert (H2 : forall j, 0 <= j < n t -> j <> idx r ->
             hit (nodes t j) (Key_hash key) key = false).
  { intros j Hj Hne. destruct (hit (nodes t j) (Key_hash key) key) eqn:E; auto.
    destruct (found r) eqn:Fd.
    - exfalso. apply Hne. apply (Hnd key); auto. apply _find_hit; auto.
    - destruct (Hfa key j Hj E) as (r0 & F0 & Fd0). congruence. }
  split; [apply wf_set_node; auto|]. split.
  - intros key' i j Hi' Hj' A B. simpl in Hi', Hj'.
    destruct (Key_eq key key') eqn:E.
    + apply Key_eq_spec in E. subst key'.
      assert (X : forall q, 0 <= q < n t ->
                hit (nodes (set_node t (idx r) x) q) (Key_hash key) key = true ->
                q = idx r).
      { intros q Hq Hh. destruct (Z.eq_dec q (idx r)); auto.
        rewrite nodes_set_other in Hh by lia. rewrite H2 in Hh; auto. discriminate. }
      rewrite (X i), (X j); auto.
    + assert (Hne : key <> key').
      { intros ->. assert (Key_eq key' key' = true) by (apply Key_eq_spec; auto).
        congruence. }
      rewrite H1 in A, B by auto. eapply Hnd; eauto.
  - intros key' j Hj A. simpl in Hj.
    destruct (Key_eq key key') eqn:E.
    + apply Key_eq_spec in E. subst key'.
      destruct (find_after_store t key v r Hwf F Hi) as (r' & F' & Fd' & _). eauto.
    + assert (Hne : key <> key').
      { intros ->. assert (Key_eq key' key' = true) by (apply Key_eq_spec; auto).
        congruence. }
      rewrite H1 in A by auto.
      destruct (Hfa key' j Hj A) as (r0 & F0 & Fd0).
      destruct (_find_ext t (set_node t (idx r) x) key' r0) as (r' & F' & B & _); auto.
      * intros q Hq. symmetry. apply H1; auto.
      * exists r'. split; auto. congruence.
Qed.

Lemma inv_kill t key t' :
  wf t -> no_dup t -> findable t -> kill t key = Some t' ->
  wf t' /\ no_dup t' /\ findable t'.
Proof.
  intros Hwf Hnd Hfa H.
  destruct (kill_cases _ _ _ Hwf H) as (r & F & [(_ & ->)|(Fd & Hi & ->)]); auto.
  pose proof Hwf as [Hn Hlen].
  set (x := mkNode 0 _ _).
  assert (Hx : forall key', hit x (Key_hash key') key' = false).
  { intros key'. apply hit_unused. reflexivity. }
  assert (H1 : forall key' j, 0 <= j < n t ->
             hit (nodes (set_node t (idx r) x) j) (Key_hash key') key' = true ->
             j <> idx r /\ hit (nodes t j) (Key_hash key') key' = true).
  { intros key' j Hj A. destruct (Z.eq_dec (idx r) j) as [<-|Hij].
    - rewrite nodes_set_same in A by lia. rewrite Hx in A. discriminate.
    - rewrite nodes_set_other in A by lia. auto. }
  split; [apply wf_set_node; auto|]. split.
  - intros key' i j Hi' Hj' A B. simpl in Hi', Hj'.
    apply H1 in A; auto. apply H1 in B; auto.
    destruct A as [_ A]. destruct B as [_ B].
    apply (Hnd key' i j); auto.
  - intros key' j Hj A. simpl in Hj.
    destruct (H1 key' j Hj A) as [Hne A'].
    destruct (Hfa key' j Hj A') as (r0 & F0 & Fd0).
    destruct (_find_ext t (set_node t (idx r) x) key' r0) as (r' & F' & B & _); auto.
    + intros q Hq. destruct (Z.eq_dec (idx r) q) as [<-|Hq'].
      * rewrite nodes_set_same by lia. rewrite Hx.
        destruct (hit (nodes t (idx r)) (Key_hash key') key') eqn:E; auto.
        exfalso. apply Hne. apply (Hnd key'); auto.
      * rewrite nodes_set_other by lia. reflexivity.
    + exists r'. split; auto. congruence.
Qed.

Lemma inv_ctor buflen t :
  sizeofNode <= buflen -> HashTable_ctor buflen = Some t ->
  wf t /\ no_dup t /\ findable t.
Proof.
  intros Hb H. unfold HashTable_ctor in H.
  destruct (sizeofNode =? 628) eqn:E; [|discriminate].
  apply Z.eqb_eq in E. rewrite E in *.
  assert (H1 : 1 <= Z.quot buflen 628).
  { apply Z.quot_le_lower_bound; lia. }
  inversion H; subst; clear H.
  assert (Hz : forall j key, hit (nodes (mkTable (repeat zeroNode (Z.to_nat (buflen ÷ 628)))
                 (if Z.land (buflen ÷ 628) 1 =? 0 then buflen ÷ 628 - 1 else buflen ÷ 628)
                 ((if Z.land (buflen ÷ 628) 1 =? 0 then buflen ÷ 628 - 1 else buflen ÷ 628) ÷ 20)) j)
                 (Key_hash key) key = false).
  { intros j key. apply hit_unused. unfold nodes; simpl.
    rewrite nth_repeat. reflexivity. }
  split; [|split].
  - unfold wf; simpl. rewrite repeat_length.
    destruct (Z.land (buflen ÷ 628) 1 =? 0) eqn:E2; try lia.
    assert (buflen ÷ 628 <> 1).
    { intros X. rewrite X in E2. discriminate. }
    lia.
  - intros key i j _ _ A. rewrite Hz in A. discriminate.
  - intros key j _ A. rewrite Hz in A. discriminate.
Qed.

Lemma reachable_inv t : reachable t -> wf t /\ no_dup t /\ findable t.
Proof.
  induction 1 as [buflen t Hb Hc | t key v t' b _ IH Hp | t key t' _ IH Hk].
  - eapply inv_ctor; eauto.
  - destruct IH as (A & B & C). eapply inv_put; eauto.
  - destruct IH as (A & B & C). eapply inv_kill; eauto.
Qed.

(** *** Laws of [put], [get] and [kill] *)

Lemma set_nth_idem l i x : set_nth (set_nth l i x) i x = set_nth l i x.
Proof.
  revert i; induction l as [|y l IH]; intros [|i]; simpl; auto.
  rewrite IH. reflexivity.
Qed.

Lemma get_after_put t key v t' :
  wf t -> put t key v = Some (t', true) -> get t' key = Some (Some v).
Proof.
  intros Hwf H.
  destruct (put_cases _ _ _ _ _ Hwf H) as (r & F & [(_ & _ & X)|(Hi & _ & ->)]);
    [discriminate|].
  destruct (find_after_store t key v r Hwf F Hi) as (r' & F' & Fd' & Hi').
  unfold get. rewrite F', Fd', Hi'. rewrite nodes_set_same; auto.
  destruct Hwf. lia.
Qed.

Lemma put_idempotent t key v t' :
  wf t -> put t key v = Some (t', true) -> put t' key v = Some (t', true).
Proof.
  intros Hwf H.
  destruct (put_cases _ _ _ _ _ Hwf H) as (r & F & [(_ & _ & X)|(Hi & _ & ->)]);
    [discriminate|].
  destruct (find_after_store t key v r Hwf F Hi) as (r' & F' & Fd' & Hi').
  unfold put. rewrite F', Fd', Hi'.
  destruct (idx r <? 0) eqn:E; [apply Z.ltb_lt in E; lia|].
  simpl negb. cbv iota.
  rewrite nodes_set_same by (destruct Hwf; lia). simpl.
  rewrite Z.eqb_refl. unfold set_node; simpl. rewrite set_nth_idem. reflexivity.
Qed.

Lemma get_after_kill t key t' :
  wf t -> no_dup t -> kill t key = Some t' -> get t' key = Some None.
Proof.
  intros Hwf Hnd H.
  destruct (kill_cases _ _ _ Hwf H) as (r & F & [(Fd & ->)|(Fd & Hi & ->)]).
  - unfold get. rewrite F, Fd. reflexivity.
  - set (x := mkNode 0 _ _).
    assert (Hwf' : wf (set_node t (idx r) x)) by (apply wf_set_node; auto).
    destruct (_find_total _ key Hwf') as [r' F'].
    unfold get. rewrite F'.
    assert (Fd' : found r' = false); [|rewrite Fd'; reflexivity].
    apply (_find_no_hit _ key r' Hwf'); auto.
    intros j Hj. simpl in Hj. destruct (Z.eq_dec (idx r) j) as [<-|Hne].
    + rewrite nodes_set_same by (destruct Hwf; lia). apply hit_unused. reflexivity.
    + rewrite nodes_set_other by lia.
      destruct (hit (nodes t j) (Key_hash key) key) eqn:E; auto.
      exfalso. apply Hne. apply (Hnd key); auto. apply _find_hit; auto.
Qed.

Lemma _find_probes t key r :
  _find t key = Some r -> 1 <= probes r <= Z.max 1 (maxChain t).
Proof. intros H. apply find_loop_probes in H. exact H. Qed.

Lemma _find_first_unused t key r :
  wf t -> _find t key = Some r -> found r = false -> 0 <= idx r ->
  exists d, Z.of_nat d < probes r /\
            idx r = probe t (Z.rem (Key_hash key) (n t)) d /\
            inUse (nodes t (idx r)) = false /\
            forall d', (d' < d)%nat ->
              inUse (nodes t (probe t (Z.rem (Key_hash key) (n t)) d')) = true.
Proof.
  intros [Hn _] F Fd Hi. unfold _find in F.
  assert (Hneg : -1 < 0) by lia.
  destruct (find_loop_first_unused _ _ _ _ _ _ _ _ _ Hn Hneg
              (proj1 (start_range t key Hn)) F Fd Hi) as (d & A & B).
  exists d. split; auto. lia.
Qed.

(** C7 (as amended). On every table reachable from a zeroed buffer: a
    successful [put(k,v)] makes [get(k)] return [v] and is idempotent,
    [get(k)] after [kill(k)] returns the null pointer, and a lookup examines
    at most [max(1, maxChain)] slots and, when the key is not hit, falls back
    to the first unused slot among those it examined. *)
Theorem hashtable_put_get_kill_laws t key v :
  reachable t ->
  (exists t1 b, put t key v = Some (t1, b) /\
     (b = true -> get t1 key = Some (Some v) /\ put t1 key v = Some (t1, true)))
  /\ (exists t2, kill t key = Some t2 /\ get t2 key = Some None)
  /\ (exists r, _find t key = Some r /\
        probes r <= Z.max 1 (maxChain t) /\
        (found r = false -> 0 <= idx r ->
         exists d, Z.of_nat d < probes r /\
                   idx r = probe t (Z.rem (Key_hash key) (n t)) d /\
                   inUse (nodes t (idx r)) = false /\
                   forall d', (d' < d)%nat ->
                     inUse (nodes t (probe t (Z.rem (Key_hash key) (n t)) d')) = true)).
Proof.
  intros Hr. destruct (reachable_inv t Hr) as (Hwf & Hnd & Hfa).
  split; [|split].
  - destruct (put_total t key v Hwf) as (t1 & b & Hp).
    exists t1, b. split; auto. intros ->. split.
    + eapply get_after_put; eauto.
    + eapply put_idempotent; eauto.
  - destruct (kill_total t key Hwf) as (t2 & Hk).
    exists t2. split; auto. eapply get_after_kill; eauto.
  - destruct (_find_total t key Hwf) as (r & F).
    exists r. split; auto. split.
    + apply _find_probes in F. lia.
    + intros Fd Hi. eapply _find_first_unused; eauto.
Qed.

(** *** Keys other than the one operated on *)

Lemma hit_not_other nd key key' :
  key' <> key -> hit nd (Key_hash key) key = true ->
  hit nd (Key_hash key') key' = false.
Proof.
  intros Hne H. apply hit_inv in H. destruct H as [_ Hk].
  unfold hit. destruct (Key_eq (k nd) key') eqn:E.
  - apply Key_eq_spec in E. congruence.
  - apply andb_false_r.
Qed.

Lemma get_set_node_other t i x key' :
  wf t -> 0 <= i < n t ->
  hit (nodes t i) (Key_hash key') key' = false ->
  hit x (Key_hash key') key' = false ->
  get (set_node t i x) key' = get t key'.
Proof.
  intros Hwf Hi H1 H2.
  destruct (_find_total t key' Hwf) as [r F].
  destruct (_find_ext t (set_node t i x) key' r Hwf eq_refl eq_refl)
    as (r' & F' & Fd & _ & Hidx); auto.
  { intros j Hj. destruct (Z.eq_dec i j) as [<-|Hne].
    - rewrite nodes_set_same by (destruct Hwf; lia). congruence.
    - rewrite nodes_set_other by lia. reflexivity. }
  unfold get. rewrite F, F', Fd. destruct (found r) eqn:E; auto.
  rewrite (Hidx eq_refl).
  assert (idx r <> i).
  { intros Heq. apply _find_hit in F; auto. rewrite Heq in F. congruence. }
  destruct (_find_range _ _ _ Hwf F) as [R1 R2]. specialize (R2 E).
  rewrite nodes_set_other by lia. reflexivity.
Qed.

(** X1. [put(k, v)] and [kill(k)] leave the answer of [get] for every other
    key as it was, whether [put] stores, overwrites or fails. *)
Theorem put_kill_leave_other_keys t key key' :
  wf t -> key' <> key ->
  (forall v t' b, put t key v = Some (t', b) -> get t' key' = get t key')
  /\ (forall t', kill t key = Some t' -> get t' key' = get t key').
Proof.
  intros Hwf Hne. split.
  - intros v t' b H.
    destruct (put_cases _ _ _ _ _ Hwf H) as (r & F & [(_ & -> & _)|(Hi & _ & ->)]);
      [reflexivity|].
    apply get_set_node_other; auto.
    + destruct (found r) eqn:Fd.
      * apply (hit_not_other _ key); auto. apply _find_hit; auto.
      * apply hit_unused. eapply fallback_unused; eauto. lia.
    + apply hit_other. congruence.
  - intros t' H.
    destruct (kill_cases _ _ _ Hwf H) as (r & F & [(Fd & ->)|(Fd & Hi & ->)]);
      [reflexivity|].
    apply get_set_node_other; auto.
    + apply (hit_not_other _ key); auto. apply _find_hit; auto.
    + apply hit_unused. reflexivity.
Qed.

(** *** The constructor *)

Lemma ctor_nodes buflen t i :
  HashTable_ctor buflen = Some t -> nodes t i = zeroNode.
Proof.
  unfold HashTable_ctor. destruct (sizeofNode =? 628); [|discriminate].
  intros H. inversion H; subst. unfold nodes; simpl. apply nth_repeat.
Qed.

Lemma find_in_empty t key r :
  wf t -> (forall i, inUse (nodes t i) = false) ->
  _find t key = Some r -> found r = false.
Proof.
  intros Hwf He F. apply (_find_no_hit t key r Hwf); auto.
  intros j _. apply hit_unused. apply He.
Qed.

(** X2. A table built on a zeroed buffer that holds at least one node has
    no slot in use: [get] answers the null pointer for every key and
    [kill] changes nothing. *)
Theorem fresh_table_is_empty buflen t key :
  sizeofNode <= buflen -> HashTable_ctor buflen = Some t ->
  (forall i, inUse (nodes t i) = false)
  /\ get t key = Some None /\ kill t key = Some t.
Proof.
  intros Hb Hc. destruct (inv_ctor buflen t Hb Hc) as (Hwf & _ & _).
  assert (He : forall i, inUse (nodes t i) = false).
  { intros i. rewrite (ctor_nodes buflen t i Hc). unfold inUse; simpl. reflexivity. }
  destruct (_find_total t key Hwf) as [r F].
  pose proof (find_in_empty t key r Hwf He F) as Fd.
  split; [exact He|]. unfold get, kill. rewrite F, Fd.
  rewrite andb_false_r. split; reflexivity.
Qed.

Lemma land_1_even q : (Z.land q 1 =? 0) = Z.even q.
Proof.
  change 1 with (Z.ones 1). rewrite Z.land_ones by lia.
  change (2 ^ 1) with 2. rewrite Zmod_even.
  destruct (Z.even q); reflexivity.
Qed.

(** X3. The constructor refuses a node size other than 628.  Otherwise the
    slot count [n] is the number of whole nodes in the buffer made odd by
    taking one off an even count, and [maxChain] is [n / 20]; a buffer of
    at least one node gives [1 <= n] and [maxChain < n], and a buffer
    shorter than one node gives [n = -1]. *)
Theorem HashTable_ctor_shape buflen :
  0 <= buflen ->
  (sizeofNode <> 628 -> HashTable_ctor buflen = None)
  /\ (sizeofNode = 628 ->
      exists t, HashTable_ctor buflen = Some t
        /\ Z.odd (n t) = true
        /\ buflen / 628 - 1 <= n t <= buflen / 628
        /\ maxChain t = Z.quot (n t) 20
        /\ length (_buf t) = Z.to_nat (buflen / 628)
        /\ (buflen < 628 -> n t = -1 /\ maxChain t = 0)
        /\ (628 <= buflen -> 1 <= n t /\ 0 <= maxChain t < n t)).
Proof.
  intros Hb. unfold HashTable_ctor. split.
  - intros Hne. apply Z.eqb_neq in Hne. rewrite Hne. reflexivity.
  - intros ->. rewrite Z.eqb_refl. eexists. split; [reflexivity|]. simpl.
    rewrite Z.quot_div_nonneg by lia. rewrite land_1_even.
    set (q := buflen / 628).
    assert (Hq : 0 <= q) by (apply Z.div_pos; lia).
    rewrite repeat_length.
    destruct (Z.even q) eqn:E.
    + assert (Ho : Z.odd (q - 1) = true).
      { rewrite Z.odd_sub. rewrite <- Z.negb_even, E. reflexivity. }
      split; [exact Ho|]. split; [lia|]. split; [reflexivity|].
      split; [reflexivity|]. split.
      * intros Hlt. assert (q = 0) by (apply Z.div_small; lia).
        replace (q - 1) with (-1) by lia. split; reflexivity.
      * intros Hge. assert (1 <= q) by (apply Z.div_le_lower_bound; lia).
        assert (q <> 1) by (intros X; rewrite X in E; discriminate).
        split; [lia|]. split.
        -- apply Z.quot_pos; lia.
        -- apply Z.quot_lt; lia.
    + assert (Ho : Z.odd q = true) by (rewrite <- Z.negb_even, E; reflexivity).
      split; [exact Ho|]. split; [lia|]. split; [reflexivity|].
      split; [reflexivity|]. split.
      * intros Hlt. assert (q = 0) by (apply Z.div_small; lia).
        rewrite H in E. discriminate.
      * intros Hge. assert (1 <= q) by (apply Z.div_le_lower_bound; lia).
        split; [lia|]. split.
        -- apply Z.quot_pos; lia.
        -- apply Z.quot_lt; lia.
Qed.

(** *** A table of one slot *)

Lemma single_slot_find t key :
  n t = 1 -> inUse (nodes t 0) = false ->
  _find t key = Some (mkFind (-1) false 1).
Proof.
  intros Hn Hu. unfold _find. rewrite Hn. simpl Z.to_nat.
  rewrite Z.rem_1_r. simpl. rewrite Hn, Hu. simpl.
  rewrite (hit_unused _ key Hu). reflexivity.
Qed.

Lemma single_slot_unused t : reachable t -> n t = 1 -> inUse (nodes t 0) = false.
Proof.
  induction 1 as [buflen t Hb Hc | t key v t' b Hr IH Hp | t key t' Hr IH Hk];
    intros Hn.
  - rewrite (ctor_nodes buflen t 0 Hc). reflexivity.
  - destruct (reachable_inv t Hr) as (Hwf & _ & _).
    destruct (put_cases _ _ _ _ _ Hwf Hp) as (r & F & [(_ & -> & _)|(Hi & _ & ->)]).
    + apply IH. exact Hn.
    + simpl in Hn. rewrite (single_slot_find t key Hn (IH Hn)) in F.
      inversion F; subst. simpl in Hi. lia.
  - destruct (reachable_inv t Hr) as (Hwf & _ & _).
    destruct (kill_cases _ _ _ Hwf Hk) as (r & F & [(_ & ->)|(Fd & Hi & ->)]).
    + apply IH. exact Hn.
    + simpl in Hn. rewrite (single_slot_find t key Hn (IH Hn)) in F.
      inversion F; subst. simpl in Fd. discriminate.
Qed.

(** X4. A table with a single slot never stores anything: the search comes
    back to its start after one step and reports the table full, so every
    [put] returns false and leaves the table as it was, and every [get]
    answers the null pointer. *)
Theorem single_slot_table_stores_nothing t key v :
  reachable t -> n t = 1 ->
  put t key v = Some (t, false) /\ get t key = Some None /\ kill t key = Some t.
Proof.
  intros Hr Hn. pose proof (single_slot_unused t Hr Hn) as Hu.
  unfold put, get, kill. rewrite (single_slot_find t key Hn Hu). simpl.
  repeat split.
Qed.

(** *** When [put] reports the table too full *)

Lemma find_loop_finds_slot fuel : forall t key h start i c f r,
  1 < n t -> maxChain t < n t -> 0 <= start < n t -> 0 <= c ->
  (c = 0 \/ c < maxChain t) ->
  i = (start + c) mod n t ->
  (0 <= f \/ exists d, c + Z.of_nat d < Z.max 1 (maxChain t) /\
                       inUse (nodes t (probe t i d)) = false) ->
  find_loop fuel t key h start i c f = Some r -> 0 <= idx r.
Proof.
  induction fuel as [|fuel IH]; intros t key h start i c f r Hn Hm Hs Hc Hcm Hi Hf H.
  - discriminate.
  - assert (Hn0 : 0 < n t) by lia.
    assert (Hir : 0 <= i < n t) by (subst i; apply Z.mod_pos_bound; lia).
    simpl in H.
    set (f' := if negb (inUse (nodes t i)) then if f <? 0 then i else f else f) in H.
    assert (Hf0 : 0 <= f -> 0 <= f').
    { intros X. unfold f'. destruct (negb _); auto.
      destruct (f <? 0) eqn:E; auto. apply Z.ltb_lt in E. lia. }
    assert (Hf1 : inUse (nodes t i) = false -> 0 <= f').
    { intros X. unfold f'. rewrite X. simpl. destruct (f <? 0) eqn:E; [lia|].
      apply Z.ltb_ge in E. exact E. }
    destruct (hit (nodes t i) h key).
    { inversion H; subst. simpl. lia. }
    assert (Hi' : Z.rem (i + 1) (n t) = (start + (c + 1)) mod n t).
    { subst i. rewrite Z.rem_mod_nonneg by lia.
      rewrite Zplus_mod_idemp_l. f_equal. lia. }
    assert (Hc1 : c + 1 < n t) by lia.
    destruct (Z.rem (i + 1) (n t) =? start) eqn:E1.
    { exfalso. apply Z.eqb_eq in E1. rewrite Hi' in E1.
      destruct (Z_lt_dec (start + (c + 1)) (n t)) as [Hlt|Hge].
      - rewrite Z.mod_small in E1 by lia. lia.
      - replace (start + (c + 1)) with (start + (c + 1) - n t + 1 * n t) in E1 by lia.
        rewrite Z_mod_plus_full in E1. rewrite Z.mod_small in E1 by lia. lia. }
    destruct (c + 1 >=? maxChain t) eqn:E2.
    + assert (0 <= f').
      { destruct Hf as [X|(d & Hd & Hu)]; [auto|].
        rewrite Z.geb_leb in E2. apply Z.leb_le in E2.
        assert (d = O) by lia. subst d. simpl in Hu. auto. }
      destruct (f' >=? 0) eqn:E3.
      * inversion H; subst. simpl. lia.
      * rewrite Z.geb_leb in E3. apply Z.leb_gt in E3. lia.
    + rewrite Z.geb_leb in E2. apply Z.leb_gt in E2.
      apply (IH t key h start (Z.rem (i + 1) (n t)) (c + 1) f' r); auto; try lia.
      destruct Hf as [X|(d & Hd & Hu)]; [left; auto|].
      destruct d as [|d].
      * left. simpl in Hu. auto.
      * right. exists d. split; [lia|]. rewrite probe_shift. exact Hu.
Qed.

(** X5. What "too full" means.  In a table of more than one slot, [put]
    succeeds as soon as one of the first [max(1, maxChain)] slots of the
    key's probe sequence is unused; and when it returns false the table is
    as it was, the key is not in it, and every one of these slots is in
    use. *)
Theorem put_fails_only_on_full_window t key v :
  wf t -> 1 < n t -> maxChain t < n t ->
  ((exists d, Z.of_nat d < Z.max 1 (maxChain t) /\
              inUse (nodes t (probe t (Z.rem (Key_hash key) (n t)) d)) = false) ->
   exists t', put t key v = Some (t', true))
  /\ (forall t', put t key v = Some (t', false) ->
        t' = t /\ get t key = Some None /\
        forall d, Z.of_nat d < Z.max 1 (maxChain t) ->
                  inUse (nodes t (probe t (Z.rem (Key_hash key) (n t)) d)) = true).
Proof.
  intros Hwf Hn Hm.
  assert (Hslot : forall r,
    (exists d, Z.of_nat d < Z.max 1 (maxChain t) /\
               inUse (nodes t (probe t (Z.rem (Key_hash key) (n t)) d)) = false) ->
    _find t key = Some r -> 0 <= idx r).
  { intros r (d & Hd & Hu) F. unfold _find in F.
    apply (find_loop_finds_slot _ _ _ _ _ _ _ _ _ Hn Hm
             (start_range t key (proj1 Hwf))) in F; auto; try lia.
    - rewrite Z.add_0_r. symmetry. apply Z.mod_small. apply start_range. apply Hwf.
    - right. exists d. split; [lia|exact Hu]. }
  split.
  - intros Hex. destruct (put_total t key v Hwf) as (t' & b & Hp).
    destruct (put_cases _ _ _ _ _ Hwf Hp) as (r & F & [(Hi & _ & _)|(_ & -> & _)]).
    + specialize (Hslot r Hex F). lia.
    + exists t'. exact Hp.
  - intros t' Hp.
    destruct (put_cases _ _ _ _ _ Hwf Hp) as (r & F & [(Hi & -> & _)|(_ & X & _)]);
      [|discriminate].
    split; [reflexivity|]. split.
    + unfold get. rewrite F. destruct (found r) eqn:Fd; [|reflexivity].
      destruct (_find_range _ _ _ Hwf F) as [_ R2]. specialize (R2 Fd). lia.
    + intros d Hd.
      destruct (inUse (nodes t (probe t (Z.rem (Key_hash key) (n t)) d))) eqn:E;
        [reflexivity|].
      assert (0 <= idx r) by (apply Hslot; eauto). lia.
Qed.

(** *** [iterAll] *)

Lemma set_nth_beyond l i x : (length l <= i)%nat -> set_nth l i x = l.
Proof.
  revert i; induction l as [|y l IH]; intros [|i] H; simpl in *; auto; try lia.
  rewrite IH by lia. reflexivity.
Qed.

Lemma skipn_set_nth l i x : skipn (S i) (set_nth l i x) = skipn (S i) l.
Proof.
  revert i; induction l as [|y l IH]; intros [|i]; simpl; auto.
  apply (IH i).
Qed.

Lemma firstn_S_skipn (l : list Node) a count :
  firstn (S count) (skipn a l)
  = if (a <? length l)%nat then nth a l zeroNode :: firstn count (skipn (S a) l)
    else [].
Proof.
  revert a; induction l as [|y l IH]; intros a.
  - destruct a; reflexivity.
  - destruct a as [|a].
    + reflexivity.
    + change (skipn (S a) (y :: l)) with (skipn a l). rewrite IH.
      change (S a <? length (y :: l))%nat with (a <? length l)%nat.
      destruct (a <? length l)%nat; reflexivity.
Qed.

Lemma nth_set_nth_fields l a x b :
  hash x = hash (nth a l zeroNode) -> k x = k (nth a l zeroNode) ->
  hash (nth b (set_nth l a x) zeroNode) = hash (nth b l zeroNode)
  /\ k (nth b (set_nth l a x) zeroNode) = k (nth b l zeroNode).
Proof.
  intros Hh Hk. destruct (Nat.eq_dec a b) as [<-|Hne].
  - destruct (lt_dec a (length l)).
    + rewrite nth_set_nth_same by auto. auto.
    + rewrite set_nth_beyond by lia. auto.
  - rewrite nth_set_nth_other by auto. auto.
Qed.

Lemma iterAll_loop_S St (cb : Key -> Value -> St -> Value * St) count i t s :
  iterAll_loop St cb (S count) i t s
  = if negb (inUse (nodes t i)) then iterAll_loop St cb count (i + 1) t s
    else
      let '(v, s') := cb (k (nodes t i)) (value (nodes t i)) s in
      iterAll_loop St cb count (i + 1)
        (set_node t i (mkNode (hash (nodes t i)) (k (nodes t i)) v)) s'.
Proof. reflexivity. Qed.

Lemma iterAll_loop_spec St (cb : Key -> Value -> St -> Value * St) count :
  forall a t s,
  exists t',
    iterAll_loop St cb count (Z.of_nat a) t s
    = (t', fold_left (fun s nd => snd (cb (k nd) (value nd) s))
                     (filter inUse (firstn count (skipn a (_buf t)))) s)
    /\ n t' = n t /\ maxChain t' = maxChain t
    /\ length (_buf t') = length (_buf t)
    /\ forall j, hash (nodes t' j) = hash (nodes t j)
                 /\ k (nodes t' j) = k (nodes t j).
Proof.
  induction count as [|count IH]; intros a t s.
  - exists t. simpl. repeat split.
  - rewrite iterAll_loop_S, firstn_S_skipn.
    replace (Z.of_nat a + 1) with (Z.of_nat (S a)) by lia.
    assert (Hnd : nodes t (Z.of_nat a) = nth a (_buf t) zeroNode)
      by (unfold nodes; rewrite Nat2Z.id; reflexivity).
    rewrite !Hnd.
    destruct (a <? length (_buf t))%nat eqn:Ea.
    + cbn [filter]. destruct (inUse (nth a (_buf t) zeroNode)) eqn:Eu;
        cbn [negb].
      * destruct (cb (k (nth a (_buf t) zeroNode)) (value (nth a (_buf t) zeroNode)) s)
          as [v s'] eqn:Ecb.
        set (x := mkNode (hash (nth a (_buf t) zeroNode)) (k (nth a (_buf t) zeroNode)) v).
        destruct (IH (S a) (set_node t (Z.of_nat a) x) s') as (t' & E & A & B & C & D).
        exists t'. cbn [fold_left]. rewrite Ecb. cbn [snd].
        assert (Hbuf : _buf (set_node t (Z.of_nat a) x) = set_nth (_buf t) a x)
          by (unfold set_node; cbn [_buf]; rewrite Nat2Z.id; reflexivity).
        rewrite Hbuf in E, C. rewrite skipn_set_nth in E.
        split; [exact E|]. split; [exact A|]. split; [exact B|]. split.
        -- rewrite C. apply set_nth_length.
        -- intros j. destruct (D j) as [D1 D2]. rewrite D1, D2.
           unfold nodes, set_node. cbn [_buf]. rewrite Nat2Z.id.
           apply nth_set_nth_fields; reflexivity.
      * apply IH.
    + assert (Hz : nth a (_buf t) zeroNode = zeroNode).
      { apply nth_overflow. apply Nat.ltb_ge in Ea. exact Ea. }
      rewrite Hz. cbn [inUse zeroNode hash negb Z.eqb].
      destruct (IH (S a) t s) as (t' & E & R). exists t'. split; [|exact R].
      rewrite E. f_equal. rewrite skipn_all2; [destruct count; reflexivity|].
      apply Nat.ltb_ge in Ea. lia.
Qed.

(** X6. [iterAll] calls back the nodes in use among the [n] slots, each
    once, in slot order, with the key and the value the node held; it can
    change values only: the slot count, [maxChain], every hash and every key
    are as before, so a key is found afterwards exactly when it was found
    before. *)
Theorem iterAll_visits_nodes_in_use St (cb : Key -> Value -> St -> Value * St) t s :
  exists t',
    iterAll St cb t s
    = (t', fold_left (fun s nd => snd (cb (k nd) (value nd) s)) (in_use_nodes t) s)
    /\ n t' = n t /\ maxChain t' = maxChain t
    /\ (forall j, hash (nodes t' j) = hash (nodes t j)
                  /\ k (nodes t' j) = k (nodes t j))
    /\ (wf t -> forall key, get t' key = Some None <-> get t key = Some None).
Proof.
  destruct (iterAll_loop_spec St cb (Z.to_nat (n t)) 0 t s) as (t' & E & A & B & C & D).
  exists t'. split; [exact E|]. split; [exact A|]. split; [exact B|].
  split; [exact D|]. intros Hwf key.
  destruct (_find_total t key Hwf) as [r F].
  destruct (_find_ext t t' key r Hwf (eq_sym A) (eq_sym B)) as (r' & F' & Fd & _); auto.
  { intros j _. unfold hit. destruct (D j) as [D1 D2]. rewrite D1, D2. reflexivity. }
  unfold get. rewrite F, F', Fd. destruct (found r); split; intros X;
    try discriminate; reflexivity.
Qed.

Lemma fold_note (L : list Node) : forall seen,
  fold_left (fun s nd => snd (note (k nd) (value nd) s)) L seen
  = seen ++ map (fun nd => (k nd, value nd)) L.
Proof.
  induction L as [|nd L IH]; intros seen; simpl.
  - rewrite app_nil_r. reflexivity.
  - rewrite IH. rewrite <- app_assoc. reflexivity.
Qed.

Lemma iterAll_note t :
  snd (iterAll _ note t []) = map (fun nd => (k nd, value nd)) (in_use_nodes t).
Proof.
  destruct (iterAll_loop_spec _ note (Z.to_nat (n t)) 0 t []) as (t' & E & _).
  unfold iterAll. change (Z.of_nat 0) with 0 in E. rewrite E. simpl snd.
  apply fold_note.
Qed.

Lemma in_use_nodes_In t i :
  wf t -> 0 <= i < n t -> inUse (nodes t i) = true -> In (nodes t i) (in_use_nodes t).
Proof.
  intros [Hn Hl] Hi Hu. unfold in_use_nodes. apply filter_In. split; [|exact Hu].
  unfold nodes.
  replace (nth (Z.to_nat i) (_buf t) zeroNode)
    with (nth (Z.to_nat i) (firstn (Z.to_nat (n t)) (_buf t)) zeroNode).
  - apply nth_In. rewrite length_firstn. lia.
  - rewrite nth_firstn.
    destruct (Z.to_nat i <? Z.to_nat (n t))%nat eqn:E; [reflexivity|].
    apply Nat.ltb_ge in E. lia.
Qed.

Lemma in_use_nodes_inv t nd :
  In nd (in_use_nodes t) ->
  exists i, 0 <= i < n t /\ nodes t i = nd /\ inUse nd = true.
Proof.
  unfold in_use_nodes. intros H. apply filter_In in H. destruct H as [H Hu].
  destruct (In_nth _ _ zeroNode H) as (j & Hj & E).
  rewrite length_firstn in Hj. exists (Z.of_nat j). split; [lia|]. split; [|exact Hu].
  unfold nodes. rewrite Nat2Z.id. rewrite <- E. rewrite nth_firstn.
  destruct (j <? Z.to_nat (n t))%nat eqn:E'; [reflexivity|].
  apply Nat.ltb_ge in E'. lia.
Qed.

(** Every node in use carries the hash of its key. *)
Lemma reachable_hash t :
  reachable t ->
  forall j, 0 <= j -> inUse (nodes t j) = true ->
            hash (nodes t j) = Key_hash (k (nodes t j)).
Proof.
  induction 1 as [buflen t Hb Hc | t key v t' b Hr IH Hp | t key t' Hr IH Hk];
    intros j Hj Hu.
  - rewrite (ctor_nodes buflen t j Hc) in Hu. discriminate.
  - destruct (reachable_inv t Hr) as (Hwf & _ & _).
    destruct (put_cases _ _ _ _ _ Hwf Hp) as (r & F & [(_ & -> & _)|(Hi & _ & ->)]);
      [auto|].
    destruct (Z.eq_dec (idx r) j) as [<-|Hne].
    + rewrite nodes_set_same by (destruct Hwf; lia). reflexivity.
    + rewrite nodes_set_other in Hu |- * by lia. auto.
  - destruct (reachable_inv t Hr) as (Hwf & _ & _).
    destruct (kill_cases _ _ _ Hwf Hk) as (r & F & [(_ & ->)|(Fd & Hi & ->)]);
      [auto|].
    destruct (Z.eq_dec (idx r) j) as [<-|Hne].
    + rewrite nodes_set_same in Hu by (destruct Hwf; lia). discriminate.
    + rewrite nodes_set_other in Hu |- * by lia. auto.
Qed.

(** X7. [iterAll] after [put] and after [kill].  On a table reachable from a
    zeroed buffer, a key that [put] stored is handed to the callback with
    the value put, and a key that was killed is not handed to it at all. *)
Theorem iterAll_after_put_and_kill t key v :
  reachable t ->
  (forall t', put t key v = Some (t', true) ->
              In (key, v) (snd (iterAll _ note t' [])))
  /\ (forall t', kill t key = Some t' ->
                 ~ In key (map fst (snd (iterAll _ note t' [])))).
Proof.
  intros Hr. destruct (reachable_inv t Hr) as (Hwf & Hnd & Hfa). split.
  - intros t' Hp. rewrite iterAll_note.
    destruct (put_cases _ _ _ _ _ Hwf Hp) as (r & F & [(_ & _ & X)|(Hi & _ & ->)]);
      [discriminate|].
    set (x := mkNode (Key_hash key) key v).
    assert (Hx : nodes (set_node t (idx r) x) (idx r) = x)
      by (apply nodes_set_same; destruct Hwf; lia).
    change (key, v) with ((fun nd => (k nd, value nd)) x).
    apply in_map.
    pose proof (in_use_nodes_In (set_node t (idx r) x) (idx r)
                  (wf_set_node t (idx r) x Hwf) Hi) as Hin.
    rewrite Hx in Hin. apply Hin.
    unfold inUse, x. simpl. pose proof (Key_hash_pos key).
    destruct (Key_hash key =? 0) eqn:E; [apply Z.eqb_eq in E; lia|reflexivity].
  - intros t' Hk Hin. rewrite iterAll_note, map_map in Hin. simpl in Hin.
    apply in_map_iff in Hin. destruct Hin as (nd & Hkey & Hnd').
    apply in_use_nodes_inv in Hnd'. destruct Hnd' as (i & Hi & Hn & Hu).
    assert (Hr' : reachable t') by (eapply reach_kill; eauto).
    destruct (reachable_inv t' Hr') as (Hwf' & _ & Hfa').
    assert (Hh : hit (nodes t' i) (Key_hash key) key = true).
    { pose proof (reachable_hash t' Hr' i (proj1 Hi)) as X. rewrite Hn in X |- *.
      unfold hit. rewrite (X Hu), Hkey, Z.eqb_refl. simpl.
      apply Key_eq_spec. reflexivity. }
    destruct (Hfa' key i Hi Hh) as (r & F & Fd).
    pose proof (get_after_kill t key t' Hwf Hnd Hk) as G.
    unfold get in G. rewrite F, Fd in G. discriminate.
Qed.

End HashTable.

(** A concrete instance: integer keys and values, [hash(k) = |k| + 1]. *)
Definition zhash (z : Z) : Z := Z.abs z + 1.

Definition ztable (buflen : Z) : option (HashTable Z Z) :=
  HashTable_ctor Z Z 0 0 628 buflen.

Definition zfind := _find Z Z zhash Z.eqb 0 0.
Definition zput := put Z Z zhash Z.eqb 0 0.
Definition zget := get Z Z zhash Z.eqb 0 0.

Lemma zeqb_spec : forall a b : Z, (a =? b) = true <-> a = b.
Proof. intros a b. apply Z.eqb_eq. Qed.

Lemma zhash_pos : forall a, 0 < zhash a.
Proof. intros a. unfold zhash. lia. Qed.

Lemma hashtable_put_get_kill_laws_witness :
  exists t, ztable 1884 = Some t /\
    (exists t1 b, zput t 7 42 = Some (t1, b) /\
       (b = true -> zget t1 7 = Some (Some 42) /\ zput t1 7 42 = Some (t1, true))).
Proof.
  eexists. split; [reflexivity|].
  refine (proj1 (hashtable_put_get_kill_laws Z Z zhash Z.eqb (fun z => z) 0 0 628
                   zeqb_spec zhash_pos _ 7 42 _)).
  apply (reach_ctor Z Z zhash Z.eqb (fun z => z) 0 0 628 1884); [lia|reflexivity].
Defined.

(** C7, the bound as stated: a three-slot table has [maxChain = 0], yet a
    lookup examines one slot. *)
Lemma find_examines_more_than_maxChain :
  exists t r, ztable 1884 = Some t /\ zfind t 7 = Some r /\
              maxChain Z Z t = 0 /\ probes r = 1 /\ ~ (probes r <= maxChain Z Z t).
Proof.
  eexists. eexists. split; [reflexivity|]. split; [reflexivity|].
  simpl. repeat split; auto.
Qed.

Definition zkill := kill Z Z zhash Z.eqb (fun z => z) 0 0.

Lemma ztable_reachable buflen t :
  628 <= buflen -> ztable buflen = Some t ->
  reachable Z Z zhash Z.eqb (fun z => z) 0 0 628 t.
Proof. intros Hb Hc. exact (reach_ctor Z Z zhash Z.eqb (fun z => z) 0 0 628 buflen t Hb Hc). Defined.

(** X1 on a three-slot table: keys 7 and 8. *)
Lemma put_kill_leave_other_keys_witness :
  exists t, ztable 1884 = Some t /\
    ((forall v t' b, zput t 7 v = Some (t', b) -> zget t' 8 = zget t 8)
     /\ (forall t', zkill t 7 = Some t' -> zget t' 8 = zget t 8)).
Proof.
  eexists. split; [reflexivity|].
  apply (put_kill_leave_other_keys Z Z zhash Z.eqb (fun z => z) 0 0
           zeqb_spec zhash_pos _ 7 8).
  - unfold wf. vm_compute. split; [reflexivity|discriminate].
  - discriminate.
Defined.

(** X2 on a three-slot table. *)
Lemma fresh_table_is_empty_witness :
  exists t, ztable 1884 = Some t /\
    ((forall i, inUse Z Z (nodes Z Z 0 0 t i) = false)
     /\ zget t 7 = Some None /\ zkill t 7 = Some t).
Proof.
  eexists. split; [reflexivity|].
  apply (fresh_table_is_empty Z Z zhash Z.eqb (fun z => z) 0 0 628 zhash_pos 1884).
  - lia.
  - reflexivity.
Defined.

(** X3 on a buffer of three nodes and a half. *)
Lemma HashTable_ctor_shape_witness :
  exists t, ztable 2200 = Some t /\ Z.odd (n Z Z t) = true
            /\ n Z Z t = 3 /\ maxChain Z Z t = 0.
Proof.
  destruct (proj2 (HashTable_ctor_shape Z Z 0 0 628 2200 ltac:(lia)) eq_refl)
    as (t & Hc & Ho & _ & Hm & _).
  exists t. split; [exact Hc|]. split; [exact Ho|].
  unfold ztable in Hc |- *. vm_compute in Hc. inversion Hc; subst.
  split; reflexivity.
Defined.

(** X4 on a buffer of one node. *)
Lemma single_slot_table_stores_nothing_witness :
  exists t, ztable 628 = Some t /\
    (zput t 7 42 = Some (t, false) /\ zget t 7 = Some None /\ zkill t 7 = Some t).
Proof.
  eexists. split; [reflexivity|].
  apply (single_slot_table_stores_nothing Z Z zhash Z.eqb (fun z => z) 0 0 628
           zeqb_spec zhash_pos).
  - apply (ztable_reachable 628); [lia|reflexivity].
  - reflexivity.
Defined.

(** X5 on a table of 41 slots, where the window is two slots wide. *)
Definition ztable41 : HashTable Z Z := mkTable Z Z (repeat (zeroNode Z Z 0 0) 41) 41 2.

Lemma put_fails_only_on_full_window_witness :
  ztable 25748 = Some ztable41 /\ (exists t', zput ztable41 7 42 = Some (t', true)).
Proof.
  split; [reflexivity|].
  apply (proj1 (put_fails_only_on_full_window Z Z zhash Z.eqb 0 0
                  zeqb_spec zhash_pos ztable41 7 42
                  ltac:(unfold wf; vm_compute; split; [reflexivity|discriminate])
                  ltac:(vm_compute; reflexivity) ltac:(vm_compute; reflexivity))).
  exists 1%nat. split; [vm_compute; reflexivity|reflexivity].
Defined.

(** X6 with a callback that counts its calls and adds one to each value. *)
Lemma iterAll_visits_nodes_in_use_witness :
  exists t t', ztable 1884 = Some t /\
    iterAll Z Z 0 0 nat (fun _ v c => (v + 1, S c)) t 0%nat
    = (t', fold_left (fun c (nd : Node Z Z) => S c) (in_use_nodes Z Z t) 0%nat)
    /\ n Z Z t' = n Z Z t.
Proof.
  eexists.
  destruct (iterAll_visits_nodes_in_use Z Z zhash Z.eqb 0 0 zhash_pos nat
              (fun _ v c => (v + 1, S c))
              (mkTable Z Z (repeat (zeroNode Z Z 0 0) 3) 3 0) 0%nat)
    as (t' & E & A & _).
  exists t'. split; [reflexivity|]. split; [exact E|exact A].
Defined.

(** X7 on a three-slot table. *)
Lemma iterAll_after_put_and_kill_witness :
  exists t, ztable 1884 = Some t /\
    ((forall t', zput t 7 42 = Some (t', true) ->
                 In (7, 42) (snd (iterAll Z Z 0 0 _ (note Z Z) t' [])))
     /\ (forall t', zkill t 7 = Some t' ->
                    ~ In 7 (map fst (snd (iterAll Z Z 0 0 _ (note Z Z) t' []))))).
Proof.
  eexists. split; [reflexivity|].
  apply (iterAll_after_put_and_kill Z Z zhash Z.eqb (fun z => z) 0 0 628
           zeqb_spec zhash_pos).
  apply (ztable_reachable 1884); [lia|reflexivity].
Defined.

End HashTab.

(* ===================================================================== *)
(** ** s/chunk.cpp : [Chunk::genID]                                       *)
(* ===================================================================== *)

Module ChunkID.
Section GenID.

(** A BSON object is the sequence of its elements, each a field name and a
    value; [BSONObjIterator] walks them in order. *)
Variable BSONValue : Type.
Definition BSONElement : Type := (string * BSONValue)%type.
Definition BSONObj : Type := list BSONElement.

(** [BSONElement::toString( false )]: the rendering of the value alone.
    It lives in the BSON library, outside the sources at hand. *)
Variable toString : BSONValue -> string.

(** The [while ( i.more() )] loop:
    [buf << e.fieldName() << "_" << e.toString( false )]. *)
Fixpoint genID_elements (o : BSONObj) : string :=
  match o with
  | [] => EmptyString
  | (fieldName, v) :: o' =>
      (fieldName ++ "_" ++ toString v ++ genID_elements o')%string
  end.

(** [string Chunk::genID( const string& ns , const BSONObj& o )] *)
Definition genID (ns : string) (o : BSONObj) : string :=
  (ns ++ "-" ++ genID_elements o)%string.

(** [occurs c s]: the character [c] appears in [s]. *)
Fixpoint occurs (c : ascii) (s : string) : bool :=
  match s with
  | EmptyString => false
  | String c' s' => Ascii.eqb c c' || occurs c s'
  end.

(** No rendered value contains the first character of the name of the field
    that follows it (nothing is asked of the last element). *)
Fixpoint separated (o : BSONObj) : Prop :=
  match o with
  | (_, v) :: (((f', _) :: _) as o') =>
      (exists c s, f' = String c s /\ occurs c (toString v) = false)
      /\ separated o'
  | _ => True
  end.

Definition dash : ascii := "-"%char.

Lemma append_cancel_l (p x y : string) :
  (p ++ x = p ++ y)%string -> x = y.
Proof.
  induction p as [|c p IH]; simpl; intros H; auto.
  inversion H. auto.
Qed.

Lemma append_empty_right (x : string) : (x ++ EmptyString)%string = x.
Proof. induction x as [|c x IH]; simpl; congruence. Qed.

Lemma append_assoc_right (x y z : string) :
  ((x ++ y) ++ z = x ++ (y ++ z))%string.
Proof. induction x as [|c x IH]; simpl; congruence. Qed.

(** A string is cut in only one way at the first occurrence of a character. *)
Lemma split_at_first (c : ascii) (a b x y : string) :
  occurs c a = false -> occurs c b = false ->
  (a ++ String c x = b ++ String c y)%string -> a = b /\ x = y.
Proof.
  revert b. induction a as [|ca a IH]; intros [|cb b] Ha Hb H; simpl in *.
  - inversion H. auto.
  - inversion H; subst. rewrite Ascii.eqb_refl in Hb. discriminate.
  - inversion H; subst. rewrite Ascii.eqb_refl in Ha. discriminate.
  - inversion H; subst.
    apply orb_false_iff in Ha. apply orb_false_iff in Hb.
    destruct (IH b) as [E1 E2]; try tauto. subst. auto.
Qed.

Lemma genID_elements_inj (o1 : BSONObj) : forall o2,
  map fst o1 = map fst o2 ->
  separated o1 -> separated o2 ->
  (forall v1 v2, In v1 (map snd o1) -> In v2 (map snd o2) ->
                 toString v1 = toString v2 -> v1 = v2) ->
  genID_elements o1 = genID_elements o2 -> o1 = o2.
Proof.
  induction o1 as [|[f1 v1] r1 IH]; intros [|[f2 v2] r2] Hn S1 S2 Hinj H;
    try discriminate; auto.
  simpl in Hn. inversion Hn as [[Hf Hr]]. subst f2.
  simpl in H. apply append_cancel_l in H. simpl in H. inversion H as [H'].
  clear H.
  assert (Hv : toString v1 = toString v2 /\ genID_elements r1 = genID_elements r2).
  { destruct r1 as [|[g1 w1] r1'], r2 as [|[g2 w2] r2']; try discriminate.
    - simpl in H'. rewrite !append_empty_right in H'. auto.
    - simpl in Hr. inversion Hr as [[Hg Hr']]. subst g2.
      destruct S1 as [(c & s & Eg & O1) _]. destruct S2 as [(c' & s' & Eg' & O2) _].
      rewrite Eg in Eg'. inversion Eg'; subst c' s'.
      simpl in H'. rewrite Eg in H'. simpl in H'.
      destruct (split_at_first c _ _ _ _ O1 O2 H') as [A B].
      split; auto. simpl. rewrite Eg. simpl. rewrite B. reflexivity. }
  destruct Hv as [Hv Hg].
  assert (v1 = v2) by (apply Hinj; simpl; auto). subst v2.
  f_equal. apply IH; auto.
  - destruct r1 as [|[? ?] ?]; simpl in *; tauto.
  - destruct r2 as [|[? ?] ?]; simpl in *; tauto.
  - intros a b Ha Hb. apply Hinj; simpl; auto.
Qed.

(** C8 (as amended). For keys with the same field names, a namespace that is
    the same or free of ['-'] on both sides, a rendering that is injective on
    the values at hand and never contains the first character of the next
    field name: different pairs [(ns, min)] get different ids. *)
Theorem genID_injective_on_key_pattern (ns1 ns2 : string) (o1 o2 : BSONObj) :
  ns1 = ns2 \/ (occurs dash ns1 = false /\ occurs dash ns2 = false) ->
  map fst o1 = map fst o2 ->
  separated o1 -> separated o2 ->
  (forall v1 v2, In v1 (map snd o1) -> In v2 (map snd o2) ->
                 toString v1 = toString v2 -> v1 = v2) ->
  (ns1, o1) <> (ns2, o2) ->
  genID ns1 o1 <> genID ns2 o2.
Proof.
  intros Hns Hn S1 S2 Hinj Hne Heq. apply Hne. unfold genID in Heq.
  assert (X : ns1 = ns2 /\ genID_elements o1 = genID_elements o2).
  { destruct Hns as [->|[D1 D2]].
    - apply append_cancel_l in Heq. simpl in Heq. inversion Heq. auto.
    - simpl in Heq. apply (split_at_first dash); auto. }
  destruct X as [-> Hg]. f_equal. apply genID_elements_inj; auto.
Qed.

(** The id does not record where a field name ends: a two-field key and a
    one-field key whose name spells out the first field collide, whatever
    the rendering of values. *)
Lemma genID_field_boundary (ns : string) (v1 v2 : BSONValue) :
  genID ns [("a"%string, v1); ("b"%string, v2)]
  = genID ns [(("a_" ++ toString v1 ++ "b")%string, v2)].
Proof.
  unfold genID. simpl. rewrite append_assoc_right. reflexivity.
Qed.

End GenID.

(** Integer key values rendered in decimal, as [NumberInt] elements are. *)
Definition show_int (z : Z) : string :=
  DecimalString.NilZero.string_of_int (Z.to_int z).

Lemma genID_injective_on_key_pattern_witness :
  genID Z show_int "t.c" [("a"%string, 1)] <> genID Z show_int "t.c" [("a"%string, 2)].
Proof.
  apply (genID_injective_on_key_pattern Z show_int).
  - left; reflexivity.
  - reflexivity.
  - simpl; exact I.
  - simpl; exact I.
  - simpl. intros v1 v2 [<-|[]] [<-|[]] H. vm_compute in H. discriminate.
  - intros H. inversion H.
Defined.

(** C8 as stated: two different keys of one namespace with the same id. *)
Lemma genID_collision :
  ("t.c"%string, [("a"%string, 1); ("b"%string, 2)])
    <> ("t.c"%string, [("a_1b"%string, 2)])
  /\ genID Z show_int "t.c" [("a"%string, 1); ("b"%string, 2)]
     = genID Z show_int "t.c" [("a_1b"%string, 2)].
Proof.
  split; [intros H; inversion H | reflexivity].
Qed.

End ChunkID.

(* ===================================================================== *)
(** ** s/chunk.h, s/chunk.cpp : chunks, ranges and the chunk manager      *)
(* ===================================================================== *)

Module Sharding.
Section ChunkManager.

(** *** BSON objects and what the code asks of them *)

Variable BSONValue : Type.
Definition BSONObj : Type := list (string * BSONValue).

(** [BSONObj::isEmpty()] *)
Definition isEmpty (o : BSONObj) : bool :=
  match o with [] => true | _ => false end.

(** The comparators live in the BSON library and in s/shardkey.h:
    [BSONObjCmp] is the strict order of the two maps, [woCompare] is
    [BSONObj::woCompare], [objEq] is [BSONObj::operator==], and [skCompare]
    is [ShardKeyPattern::compare] of the manager's key. *)
Variable BSONObjCmp : BSONObj -> BSONObj -> bool.
Variable woCompare : BSONObj -> BSONObj -> Z.
Variable objEq : BSONObj -> BSONObj -> bool.
Variable skCompare : BSONObj -> BSONObj -> Z.

(** A shard is known by its name; [Shard::operator==] compares names. *)
Definition Shard : Type := string.
Definition Shard_eq (a b : Shard) : bool := String.eqb a b.

(** *** [std::map<BSONObj, V, BSONObjCmp>] as a list sorted by key.
    An iterator is a position; [end()] is the length. *)
Section OrderedMap.
Variable V : Type.
Definition omap : Type := list (BSONObj * V).

(** [upper_bound(k)]: the first entry whose key is greater than [k]. *)
Fixpoint upper_bound (m : omap) (key : BSONObj) : nat :=
  match m with
  | [] => O
  | (k', _) :: m' => if BSONObjCmp key k' then O else S (upper_bound m' key)
  end.

(** [lower_bound(k)]: the first entry whose key is not less than [k]. *)
Fixpoint lower_bound (m : omap) (key : BSONObj) : nat :=
  match m with
  | [] => O
  | (k', _) :: m' => if BSONObjCmp k' key then S (lower_bound m' key) else O
  end.

(** [m[k] = v]: insert in order; an equivalent key keeps its place and key. *)
Fixpoint map_set (m : omap) (key : BSONObj) (v : V) : omap :=
  match m with
  | [] => [(key, v)]
  | (k', v') :: m' =>
      if BSONObjCmp key k' then (key, v) :: m
      else if BSONObjCmp k' key then (k', v') :: map_set m' key v
      else (k', v) :: m'
  end.

(** [erase(first, last)] for [first <= last]. *)
Definition erase_range (m : omap) (first last : nat) : omap :=
  firstn first m ++ skipn last m.

(** The entries from [first] up to, not including, [last]. *)
Definition slice (m : omap) (first last : nat) : omap :=
  firstn (last - first) (skipn first m).

End OrderedMap.
Arguments upper_bound {V}.
Arguments lower_bound {V}.
Arguments map_set {V}.
Arguments erase_range {V}.
Arguments slice {V}.

(** *** [Chunk] and [ChunkRange] *)

Record Chunk := mkChunk {
  _ns : string;
  _min : BSONObj;
  _max : BSONObj;
  _shard : Shard;
  _lastmod : Z;           (* ShardChunkVersion, unsigned 64 bit *)
  _modified : bool;
  _dataWritten : Z        (* long *)
}.

Definition getMin (c : Chunk) := _min c.
Definition getMax (c : Chunk) := _max c.
Definition getShard (c : Chunk) := _shard c.

(** [bool Chunk::contains( const BSONObj& obj )] *)
Definition contains (c : Chunk) (obj : BSONObj) : bool :=
  (skCompare (getMin c) obj <=? 0) && (skCompare obj (getMax c) <? 0).

(** [bool Chunk::operator==( const Chunk& s )] *)
Definition Chunk_eq (c s : Chunk) : bool :=
  (skCompare (_min c) (_min s) =? 0) && (skCompare (_max c) (_max s) =? 0).

(** [Chunk::_markModified()] *)
Definition _markModified (c : Chunk) : Chunk :=
  mkChunk (_ns c) (_min c) (_max c) (_shard c) 0 true (_dataWritten c).

Record ChunkRange := mkChunkRange {
  cr_shard : Shard;
  cr_min : BSONObj;
  cr_max : BSONObj
}.

(** The chunk map with its [Chunk*] values dereferenced, as the range
    manager reads it, and the range map. *)
Definition ChunkMap : Type := omap Chunk.
Definition ChunkRangeMap : Type := omap ChunkRange.

(** *** [ChunkRangeManager] *)

(** The inner [while] of [_insertRange]: step over the chunks of [shard];
    the result is the last chunk stepped over and the rest of the slice. *)
Fixpoint same_shard_run (shard : Shard) (l : ChunkMap) (last : Chunk)
  : Chunk * ChunkMap :=
  match l with
  | (key, c) :: l' =>
      if Shard_eq (getShard c) shard then same_shard_run shard l' c
      else (last, l)
  | [] => (last, [])
  end.

(** [_insertRange(begin, end)] on the slice between the two iterators.
    [ChunkRange(first, begin)] takes shard and min of [*first] and the max of
    [*prior(begin)].  One unit of fuel per outer iteration. *)
Fixpoint insertRange_loop (fuel : nat) (ranges : ChunkRangeMap) (l : ChunkMap)
  : ChunkRangeMap :=
  match fuel with
  | O => ranges
  | S fuel' =>
      match l with
      | [] => ranges
      | (_, first) :: _ =>
          let shard := getShard first in
          let '(last, rest) := same_shard_run shard l first in
          let cr := mkChunkRange shard (getMin first) (getMax last) in
          insertRange_loop fuel' (map_set ranges (cr_max cr) cr) rest
      end
  end.

Definition _insertRange (ranges : ChunkRangeMap) (l : ChunkMap) : ChunkRangeMap :=
  insertRange_loop (length l) ranges l.

(** [void ChunkRangeManager::reloadAll(const ChunkMap& chunks)]
    ([DEV assertValid()] is compiled in debug builds only). *)
Definition reloadAll (chunks : ChunkMap) : ChunkRangeMap :=
  _insertRange [] chunks.

(** How a member function of the range manager ends: normally, on a failed
    [assert], or outside defined behaviour (an [end()] iterator was
    dereferenced or passed as a bound). *)
Inductive Outcome := Done | AssertFailed | Undefined.

(** [ChunkRange(const ChunkRange& min, const ChunkRange& max)] with its
    assertions (one manager throughout); [None] is an assertion failure. *)
Definition ChunkRange_merge (a b : ChunkRange) : option ChunkRange :=
  if Shard_eq (cr_shard a) (cr_shard b) && objEq (cr_max a) (cr_min b)
  then Some (mkChunkRange (cr_shard a) (cr_min a) (cr_max b))
  else None.

(** The "merge low-end if possible" block. The result is the map as the
    block leaves it, and how it ended. *)
Definition merge_low (ranges : ChunkRangeMap) (min : BSONObj)
  : ChunkRangeMap * Outcome :=
  let low := upper_bound ranges min in
  match nth_error ranges low with
  | None => (ranges, AssertFailed)                 (* assert(low != end) *)
  | Some (_, b) =>
      match low with
      | O => (ranges, Done)                        (* low == begin *)
      | S plow =>
          match nth_error ranges plow with
          | None => (ranges, Undefined)
          | Some (_, a) =>
              if Shard_eq (cr_shard a) (cr_shard b) then
                match ChunkRange_merge a b with
                | None => (ranges, AssertFailed)
                | Some cr =>
                    (map_set (erase_range ranges plow (S low)) (cr_max cr) cr, Done)
                end
              else (ranges, Done)
          end
      end
  end.

(** The "merge high-end if possible" block. *)
Definition merge_high (ranges : ChunkRangeMap) (max : BSONObj)
  : ChunkRangeMap * Outcome :=
  let high := lower_bound ranges max in
  if Nat.eqb (S high) (length ranges) then (ranges, Done) (* high == prior(end) *)
  else
    match nth_error ranges high, nth_error ranges (S high) with
    | Some (_, a), Some (_, b) =>
        if Shard_eq (cr_shard a) (cr_shard b) then
          match ChunkRange_merge a b with
          | None => (ranges, AssertFailed)
          | Some cr =>
              (map_set (erase_range ranges high (S (S high))) (cr_max cr) cr, Done)
          end
        else (ranges, Done)
    | _, _ => (ranges, Undefined)
    end.

(** [void ChunkRangeManager::reloadRange(chunks, min, max)] *)
Definition reloadRange (ranges : ChunkRangeMap) (chunks : ChunkMap)
           (min max : BSONObj) : ChunkRangeMap * Outcome :=
  match ranges with
  | [] => (reloadAll chunks, Done)
  | _ =>
      let low := upper_bound ranges min in
      let high := lower_bound ranges max in
      match nth_error ranges low, nth_error ranges high with
      | Some (_, lowr), Some (_, highr) =>
          let begin := upper_bound chunks (cr_min lowr) in
          let end_ := lower_bound chunks (cr_max highr) in
          if (begin <? length chunks)%nat && (end_ <? length chunks)%nat then
            if (low <=? high)%nat && (begin <=? end_)%nat then
              let ranges1 := erase_range ranges low (S high) in
              let ranges2 := _insertRange ranges1 (slice chunks begin (S end_)) in
              match ranges2 with
              | [] => (ranges2, AssertFailed)      (* assert(!_ranges.empty()) *)
              | _ =>
                  match merge_low ranges2 min with
                  | (ranges3, Done) => merge_high ranges3 max
                  | failed => failed
                  end
              end
            else (ranges, Undefined)               (* erase/insert of a reversed range *)
          else (ranges, AssertFailed)
      | _, _ => (ranges, AssertFailed)
      end
  end.

(** *** The chunk manager, the process state around it, and the backends *)

(** What a call can throw: [uassert]/[UserException], [massert], a plain
    [assert], or an execution that left defined behaviour. *)
Inductive Exn :=
| UserException (code : Z)
| MsgAssertionException (code : Z)
| AssertionException
| UndefinedBehaviour.

Inductive Res (A : Type) :=
| Ret (a : A)
| Throw (e : Exn).
Arguments Ret {A}.
Arguments Throw {A}.

(** The [Chunk] objects live in [heap]; a [Chunk*] is a position in it, so
    that [_chunks] and [_chunkMap] share the objects they point to. *)
Record ChunkManager := mkChunkManager {
  heap : list Chunk;
  _chunks : list nat;                 (* vector<Chunk*> *)
  _chunkMap : omap nat;               (* map<BSONObj,Chunk*,BSONObjCmp> *)
  _chunkRanges : ChunkRangeMap;       (* ChunkRangeManager::_ranges *)
  _sequenceNumber : Z
}.

(** Ghost record of what was sent out, most recent first. *)
Inductive Event :=
| EvLockNamespace (s : Shard)
| EvChunkSave (c : nat)
| EvManagerSave
| EvReload
| EvMoveChunkStart (from to : Shard)
| EvMoveChunkFinish (to : Shard) (newVersion : Z)
| EvLogChange (what : string)
| EvSplit (c : nat) (m : BSONObj).

Record World := mkWorld {
  mgr : ChunkManager;
  NextSequenceNumber : Z;             (* AtomicUInt, unsigned 32 bit *)
  timestamps_used : nat;              (* server timestamps handed out so far *)
  loads : nat;                        (* queries of config.chunks so far *)
  trace : list Event
}.

(** A chunk document of [config.chunks] as [_load] and [unserialize] read it. *)
Record ChunkDoc := mkChunkDoc {
  d_isMaxMarker : bool;
  d_ns : string;
  d_shard : string;
  d_lastmod : option Z;
  d_minDotted : option BSONObj;
  d_min : BSONObj;
  d_max : BSONObj;
  d_maxDotted : BSONObj
}.

(** The replies of the collaborators outside this file: the cluster lock,
    the process-wide split lock, the config server and the shards. *)
Record Backend := mkBackend {
  lockNamespaceOnServer : Shard -> bool;
  chunkSplitLock_lock_try : bool;
  serverTimestamp : nat -> Z;               (* lastmod given to the k-th new save *)
  configChunks : nat -> list ChunkDoc;      (* reply to the k-th query of config.chunks *)
  findOne_edge : Chunk -> BSONObj;          (* first document in key order (or reverse) *)
  medianKey : Chunk -> option BSONObj;      (* [None]: the command failed *)
  findOne_after_min : Chunk -> BSONObj;     (* first document above the chunk's min *)
  datasize : Chunk -> option Z;             (* [None]: the command failed *)
  countObjects : Chunk -> Z;
  Shard_pick : Shard;
  movechunk_start : bool;
  movechunk_finish : bool
}.

Variable env : Backend.

(** The manager's constants: [_ns] and what its [ShardKeyPattern] gives. *)
Variable ns : string.
Variable keyPattern : BSONObj.               (* _key.key() *)
Variables globalMin globalMax : BSONObj.     (* _key.globalMin(), _key.globalMax() *)
Variable extractKey : BSONObj -> BSONObj.    (* _key.extractKey *)
Variable isNumber : BSONValue -> bool.       (* BSONElement::isNumber *)

Definition nullChunk : Chunk := mkChunk EmptyString [] [] EmptyString 0 false 0.

Definition chunkAt (m : ChunkManager) (p : nat) : Chunk := nth p (heap m) nullChunk.

Fixpoint list_set {A : Type} (l : list A) (i : nat) (x : A) : list A :=
  match l, i with
  | [], _ => []
  | _ :: l', O => x :: l'
  | y :: l', S i' => y :: list_set l' i' x
  end.

Definition set_chunk (m : ChunkManager) (p : nat) (c : Chunk) : ChunkManager :=
  mkChunkManager (list_set (heap m) p c) (_chunks m) (_chunkMap m)
                 (_chunkRanges m) (_sequenceNumber m).

Definition set_mgr (w : World) (m : ChunkManager) : World :=
  mkWorld m (NextSequenceNumber w) (timestamps_used w) (loads w) (trace w).

Definition log_event (w : World) (e : Event) : World :=
  mkWorld (mgr w) (NextSequenceNumber w) (timestamps_used w) (loads w) (e :: trace w).

(** The chunk map as the range manager sees it. *)
Definition chunkMapView (m : ChunkManager) : ChunkMap :=
  map (fun e => (fst e, chunkAt m (snd e))) (_chunkMap m).

(** State and exceptions. *)
Definition M (A : Type) : Type := World -> World * Res A.
Definition ret {A} (a : A) : M A := fun w => (w, Ret a).
Definition throw {A} (e : Exn) : M A := fun w => (w, Throw e).
Definition bind {A B} (m : M A) (f : A -> M B) : M B :=
  fun w => match m w with
           | (w', Ret a) => f a w'
           | (w', Throw e) => (w', Throw e)
           end.
Definition uassert (code : Z) (cond : bool) : M unit :=
  if cond then ret tt else throw (UserException code).
Definition massert (code : Z) (cond : bool) : M unit :=
  if cond then ret tt else throw (MsgAssertionException code).
Definition emit (e : Event) : M unit := fun w => (log_event w e, Ret tt).

Local Notation "x <- m ;; k" := (bind m (fun x => k))
  (at level 61, m at next level, right associativity).
Local Notation "m ;;; k" := (bind m (fun _ => k))
  (at level 61, right associativity).

Definition get_mgr : M ChunkManager := fun w => (w, Ret (mgr w)).
Definition put_mgr (m : ChunkManager) : M unit := fun w => (set_mgr w m, Ret tt).
Definition get_chunk (p : nat) : M Chunk := fun w => (w, Ret (chunkAt (mgr w) p)).
Definition put_chunk (p : nat) (c : Chunk) : M unit :=
  fun w => (set_mgr w (set_chunk (mgr w) p c), Ret tt).

(** An assignment to fields of the chunk object at [p]. *)
Definition modify_chunk (p : nat) (f : Chunk -> Chunk) : M unit :=
  fun w => (set_mgr w (set_chunk (mgr w) p (f (chunkAt (mgr w) p))), Ret tt).

Definition set_shard (s : Shard) (c : Chunk) : Chunk :=
  mkChunk (_ns c) (_min c) (_max c) s (_lastmod c) (_modified c) (_dataWritten c).


(** [static int Chunk::MaxChunkSize] (initialised to [1024 * 1204 * 200]). *)
Variable MaxChunkSize : Z.


(** [ShardChunkVersion ChunkManager::getVersion( const Shard& shard )] *)
Definition getVersion_of (m : ChunkManager) (shard : Shard) : Z :=
  fold_left (fun mx p =>
               let c := chunkAt m p in
               if negb (Shard_eq (getShard c) shard) then mx
               else if _lastmod c >? mx then _lastmod c else mx)
            (_chunks m) 0.

(** [ShardChunkVersion ChunkManager::getVersion()] *)
Definition getVersion (m : ChunkManager) : Z :=
  fold_left (fun mx p =>
               let c := chunkAt m p in
               if _lastmod c >? mx then _lastmod c else mx)
            (_chunks m) 0.

(** [Chunk* ChunkManager::findChunkOnServer( const Shard& shard )];
    [None] is the null pointer. *)
Definition findChunkOnServer (m : ChunkManager) (shard : Shard) : option nat :=
  find (fun p => Shard_eq (getShard (chunkAt m p)) shard) (_chunks m).

(** [Chunk::save( bool check )].  [Model::save] writes the document; a chunk
    whose [_lastmod] is 0 is then loaded back and so receives the version
    the config server assigned.  The server is taken to return the document
    it was given, so the four [massert]s on the round trip hold. *)
Definition Chunk_save (p : nat) : M unit :=
  c <- get_chunk p ;;
  emit (EvChunkSave p) ;;;
  if _lastmod c =? 0 then
    fun w =>
      let c' := mkChunk (_ns c) (_min c) (_max c) (_shard c)
                        (serverTimestamp env (timestamps_used w))
                        (_modified c) (_dataWritten c) in
      (mkWorld (set_chunk (mgr w) p c') (NextSequenceNumber w)
               (S (timestamps_used w)) (loads w) (trace w), Ret tt)
  else ret tt.

(** [_sequenceNumber = ++NextSequenceNumber] *)
Definition next_sequence : M unit :=
  fun w =>
    let n := (NextSequenceNumber w + 1) mod 2 ^ 32 in
    let m := mgr w in
    (mkWorld (mkChunkManager (heap m) (_chunks m) (_chunkMap m) (_chunkRanges m) n)
             n (timestamps_used w) (loads w) (trace w), Ret tt).

Fixpoint save_loop (l : list nat) : M unit :=
  match l with
  | [] => ret tt
  | p :: l' =>
      c <- get_chunk p ;;
      if negb (_modified c) then save_loop l'
      else Chunk_save p ;;; next_sequence ;;; save_loop l'
  end.

(** [void ChunkManager::save()]; [ensureIndex()] only talks to the shards. *)
Definition ChunkManager_save : M unit :=
  m <- get_mgr ;;
  let a := getVersion m in
  save_loop (_chunks m) ;;;
  m' <- get_mgr ;;
  massert 10417 (getVersion m' >=? a) ;;;
  emit EvManagerSave.

(** [void ChunkManager::_migrationNotification(Chunk* c)] *)
Definition _migrationNotification (p : nat) : M unit :=
  m <- get_mgr ;;
  let c := chunkAt m p in
  let '(ranges, o) := reloadRange (_chunkRanges m) (chunkMapView m) (getMin c) (getMax c) in
  put_mgr (mkChunkManager (heap m) (_chunks m) (_chunkMap m) ranges (_sequenceNumber m)) ;;;
  match o with
  | Done => ret tt
  | AssertFailed => throw AssertionException
  | Undefined => throw UndefinedBehaviour
  end.

(** [void Chunk::setShard( const Shard& s )] *)
Definition setShard (p : nat) (s : Shard) : M unit :=
  modify_chunk p (set_shard s) ;;;
  _migrationNotification p ;;;
  modify_chunk p _markModified.

(** The in-memory part of [split]: the new chunk [s] is allocated and both
    chunks are marked modified; then, under the write lock, [s] is pushed on
    [_chunks] and entered in [_chunkMap] under its max, this chunk's max
    becomes [m], and this chunk is entered under [m]. *)
Definition split_install (mg : ChunkManager) (p : nat) (m : BSONObj) : ChunkManager :=
  let c := chunkAt mg p in
  let s := _markModified (mkChunk (_ns c) m (_max c) (_shard c) 0 false 0) in
  let sp := length (heap mg) in
  let this := _markModified c in
  let this' := mkChunk (_ns this) (_min this) m (_shard this) (_lastmod this)
                       (_modified this) (_dataWritten this) in
  mkChunkManager (list_set (heap mg) p this' ++ [s])
                 (_chunks mg ++ [sp])
                 (map_set (map_set (_chunkMap mg) (getMax s) sp) m p)
                 (_chunkRanges mg) (_sequenceNumber mg).

(** [Chunk * Chunk::split( const BSONObj& m )].  Every chunk of the heap was
    built with [new Chunk( this )], so [_manager] is never null (uassert
    10165). The result is the new chunk. *)
Definition split (p : nat) (m : BSONObj) : M nat :=
  c <- get_chunk p ;;
  emit (EvLockNamespace (getShard c)) ;;;
  uassert 10166 (lockNamespaceOnServer env (getShard c)) ;;;
  uassert 13003 (negb (isEmpty m) && negb (woCompare (_min c) m =? 0)
                 && negb (woCompare (_max c) m =? 0)) ;;;
  mg <- get_mgr ;;
  put_mgr (split_install mg p m) ;;;
  emit (EvSplit p m) ;;;
  ChunkManager_save ;;;
  emit (EvLogChange "split") ;;;
  ret (length (heap mg)).

(** The version block of [moveAndCommit]: the value of [newVersion] that
    goes into [movechunk.finish].  [newVersion++] is on 64 unsigned bits. *)
Definition newVersion_to_send (from : Shard) (oldVersion : Z) : M Z :=
  m2 <- get_mgr ;;
  let newVersion := getVersion_of m2 from in
  if (newVersion =? 0) && (oldVersion >? 0)
  then ChunkManager_save ;;; ret ((oldVersion + 1) mod 2 ^ 64)
  else if newVersion <=? oldVersion
       then uassert 10168 (newVersion >? oldVersion) ;;; ret newVersion
       else ret newVersion.

(** "need to increment version # for old server" *)
Definition mark_chunk_on_old_server (from : Shard) : M unit :=
  m1 <- get_mgr ;;
  match findChunkOnServer m1 from with
  | Some q => modify_chunk q _markModified
  | None => ret tt
  end.

(** [bool Chunk::moveAndCommit( const Shard& to , string& errmsg )] *)
Definition moveAndCommit (p : nat) (to : Shard) : M bool :=
  c <- get_chunk p ;;
  uassert 10167 (negb (Shard_eq (getShard c) to)) ;;;
  let from := _shard c in
  m0 <- get_mgr ;;
  let oldVersion := getVersion_of m0 from in
  emit (EvMoveChunkStart from to) ;;;
  if negb (movechunk_start env) then ret false
  else
    setShard p to ;;;
    mark_chunk_on_old_server from ;;;
    ChunkManager_save ;;;
    newVersion <- newVersion_to_send from oldVersion ;;
    emit (EvMoveChunkFinish to newVersion) ;;;
    if negb (movechunk_finish env) then ret false
    else emit (EvLogChange "migrate") ;;; ret true.







(** [void Chunk::unserialize(const BSONObj& from)] on a fresh chunk. *)
Definition unserialize (d : ChunkDoc) : Res Chunk :=
  let lastmod := match d_lastmod d with Some t => t | None => 0 end in
  let '(mn, mx) := match d_minDotted d with
                   | None => (d_min d, d_max d)
                   | Some e => (e, d_maxDotted d)
                   end in
  if String.eqb (d_ns d) EmptyString then Throw (UserException 10170)
  else if String.eqb (d_ns d) EmptyString then Throw (UserException 10171)
  else if isEmpty mn then Throw (UserException 10172)
  else if isEmpty mx then Throw (UserException 10173)
  else Ret (mkChunk (d_ns d) mn mx (d_shard d) lastmod false 0).

(** The cursor loop of [_load]. *)
Fixpoint load_docs (docs : list ChunkDoc) : M unit :=
  match docs with
  | [] => ret tt
  | d :: docs' =>
      if d_isMaxMarker d then load_docs docs'
      else
        match unserialize d with
        | Throw e => throw e
        | Ret c =>
            mg <- get_mgr ;;
            let cp := length (heap mg) in
            put_mgr (mkChunkManager (heap mg ++ [c]) (_chunks mg ++ [cp])
                                    (map_set (_chunkMap mg) (getMax c) cp)
                                    (_chunkRanges mg) (_sequenceNumber mg)) ;;;
            load_docs docs'
        end
  end.

(** [void ChunkManager::_load()] *)
Definition _load : M unit :=
  fun w =>
    let docs := configChunks env (loads w) in
    let w1 := mkWorld (mgr w) (NextSequenceNumber w) (timestamps_used w)
                      (S (loads w)) (trace w) in
    (load_docs docs ;;;
     mg <- get_mgr ;;
     put_mgr (mkChunkManager (heap mg) (_chunks mg) (_chunkMap mg)
                             (reloadAll (chunkMapView mg)) (_sequenceNumber mg))) w1.

(** [void ChunkManager::_reload()] *)
Definition _reload : M unit :=
  emit EvReload ;;;
  mg <- get_mgr ;;
  put_mgr (mkChunkManager (heap mg) [] [] (_chunkRanges mg) (_sequenceNumber mg)) ;;;
  _load.

(** [ChunkManager::ChunkManager( config , ns , pattern , unique )]: the new
    manager takes the next sequence number and loads its chunks; with none
    on the config server it makes the first chunk, over the whole key space
    on [config->getPrimary()]. *)
Definition first_chunk (primary : Shard) : Chunk :=
  _markModified (mkChunk ns globalMin globalMax primary 0 false 0).

Definition ChunkManager_ctor (primary : Shard) : M unit :=
  fun w =>
    let n := (NextSequenceNumber w + 1) mod 2 ^ 32 in
    let w0 := mkWorld (mkChunkManager [] [] [] [] n) n
                      (timestamps_used w) (loads w) (trace w) in
    (_load ;;;
     mg <- get_mgr ;;
     if Nat.eqb (length (_chunks mg)) 0 then
       let c := first_chunk primary in
       let cp := length (heap mg) in
       let heap' := heap mg ++ [c] in
       let chunks' := _chunks mg ++ [cp] in
       let map' := map_set (_chunkMap mg) (getMax c) cp in
       let mg1 := mkChunkManager heap' chunks' map' (_chunkRanges mg)
                                 (_sequenceNumber mg) in
       put_mgr (mkChunkManager heap' chunks' map' (reloadAll (chunkMapView mg1))
                               (_sequenceNumber mg))
     else ret tt) w0.

(** The body of [findChunk] up to the [retry] test: [Some c] is the early
    [return *c]. *)
Definition findChunk_lookup (obj : BSONObj) : M (option nat) :=
  let key := extractKey obj in
  mg <- get_mgr ;;
  match nth_error (_chunkMap mg) (upper_bound (_chunkMap mg) key) with
  | Some (_, c) =>
      if contains (chunkAt mg c) obj then ret (Some c)
      else _reload ;;; massert 13141 false ;;; ret None
  | None => ret None
  end.

(** [Chunk& ChunkManager::findChunk( const BSONObj & obj , bool retry )]:
    the call with [retry = true], then the one with [retry = false]. *)
Definition findChunk_retry (obj : BSONObj) : M nat :=
  r <- findChunk_lookup obj ;;
  match r with
  | Some c => ret c
  | None => throw (UserException 8070)
  end.

Definition findChunk (obj : BSONObj) : M nat :=
  r <- findChunk_lookup obj ;;
  match r with
  | Some c => ret c
  | None => _reload ;;; findChunk_retry obj
  end.

(** The entry [upper_bound] finds for the key of [obj], if any. *)
Definition lookup (m : ChunkManager) (obj : BSONObj) : option (BSONObj * nat) :=
  nth_error (_chunkMap m) (upper_bound (_chunkMap m) (extractKey obj)).

(** *** [Chunk::operator==] *)

(** C10. [operator==] holds exactly when both the min keys and the max keys
    compare equal under the shard-key comparator; namespace, shard, version
    and the transient fields of the right-hand chunk play no part, so the
    same range on another shard compares equal. *)
Theorem Chunk_eq_compares_range_only (c s : Chunk) :
  (Chunk_eq c s = true <->
   skCompare (_min c) (_min s) = 0 /\ skCompare (_max c) (_max s) = 0)
  /\ (forall ns' shard' lastmod' modified' written',
        Chunk_eq c (mkChunk ns' (_min s) (_max s) shard' lastmod' modified' written')
        = Chunk_eq c s)
  /\ (forall ns' shard' lastmod' modified' written',
        Chunk_eq (mkChunk ns' (_min c) (_max c) shard' lastmod' modified' written') s
        = Chunk_eq c s).
Proof.
  split; [|split].
  - unfold Chunk_eq. rewrite andb_true_iff, !Z.eqb_eq. tauto.
  - intros. reflexivity.
  - intros. reflexivity.
Qed.

(** *** [ChunkManager::findChunk] *)

Lemma load_docs_loads docs : forall w w' r,
  load_docs docs w = (w', r) -> loads w' = loads w.
Proof.
  induction docs as [|d docs IH]; intros w w' r H; simpl in H.
  - inversion H; reflexivity.
  - destruct (d_isMaxMarker d); [eauto|].
    destruct (unserialize d) as [c|e].
    + unfold bind, get_mgr, put_mgr in H. simpl in H.
      apply IH in H. simpl in H. exact H.
    + inversion H; reflexivity.
Qed.

Lemma _reload_loads w w' r : _reload w = (w', r) -> loads w' = S (loads w).
Proof.
  unfold _reload, _load, bind, emit, get_mgr, put_mgr. simpl.
  destruct (load_docs _ _) as [w1 [[]|e]] eqn:E; intros H; inversion H; subst;
    apply load_docs_loads in E; simpl in *; auto.
Qed.

Lemma findChunk_lookup_hit obj w k c :
  lookup (mgr w) obj = Some (k, c) -> contains (chunkAt (mgr w) c) obj = true ->
  findChunk_lookup obj w = (w, Ret (Some c)).
Proof.
  intros L C. unfold findChunk_lookup, bind, get_mgr. unfold lookup in L.
  rewrite L, C. reflexivity.
Qed.

Lemma findChunk_lookup_none obj w :
  lookup (mgr w) obj = None -> findChunk_lookup obj w = (w, Ret None).
Proof.
  intros L. unfold findChunk_lookup, bind, get_mgr. unfold lookup in L.
  rewrite L. reflexivity.
Qed.

Lemma findChunk_lookup_wrong obj w k c :
  lookup (mgr w) obj = Some (k, c) -> contains (chunkAt (mgr w) c) obj = false ->
  findChunk_lookup obj w
  = (fst (_reload w),
     match snd (_reload w) with
     | Ret _ => Throw (MsgAssertionException 13141)
     | Throw e => Throw e
     end).
Proof.
  intros L C. unfold findChunk_lookup, bind at 1, get_mgr. unfold lookup in L.
  rewrite L, C. unfold bind. destruct (_reload w) as [w1 [[]|e]]; reflexivity.
Qed.

Lemma findChunk_lookup_ret obj w w' c :
  findChunk_lookup obj w = (w', Ret (Some c)) ->
  w' = w /\ contains (chunkAt (mgr w) c) obj = true.
Proof.
  unfold findChunk_lookup, bind at 1, get_mgr.
  destruct (nth_error _ _) as [[k c']|]; [|discriminate].
  destruct (contains (chunkAt (mgr w) c') obj) eqn:C.
  - intros H; inversion H; subst. auto.
  - unfold bind. destruct (_reload w) as [w1 [[]|e]]; discriminate.
Qed.

(** C1 (as amended). [findChunk(doc)] looks the key up with [upper_bound]
    and checks [contains].  A chunk that contains [doc] is returned with no
    reload.  When no chunk is found the map is reloaded once and the lookup
    retried, and a second "no chunk" is the error 8070.  When a chunk is found
    that does not contain [doc], on the first lookup or on the retry, the map
    is reloaded and assertion 13141 is raised at once, with no further
    lookup.  A returned chunk always contains [doc] and costs at most one
    reload. *)
Theorem findChunk_miss_handling (obj : BSONObj) (w : World) :
  (forall k c, lookup (mgr w) obj = Some (k, c) ->
               contains (chunkAt (mgr w) c) obj = true ->
               findChunk obj w = (w, Ret c))
  /\ (forall k c w1, lookup (mgr w) obj = Some (k, c) ->
               contains (chunkAt (mgr w) c) obj = false ->
               _reload w = (w1, Ret tt) ->
               findChunk obj w = (w1, Throw (MsgAssertionException 13141)))
  /\ (forall w1, lookup (mgr w) obj = None -> _reload w = (w1, Ret tt) ->
        (forall k c, lookup (mgr w1) obj = Some (k, c) ->
                     contains (chunkAt (mgr w1) c) obj = true ->
                     findChunk obj w = (w1, Ret c))
        /\ (lookup (mgr w1) obj = None ->
            findChunk obj w = (w1, Throw (UserException 8070)))
        /\ (forall k c w2, lookup (mgr w1) obj = Some (k, c) ->
                     contains (chunkAt (mgr w1) c) obj = false ->
                     _reload w1 = (w2, Ret tt) ->
                     findChunk obj w = (w2, Throw (MsgAssertionException 13141))))
  /\ (forall c w', findChunk obj w = (w', Ret c) ->
        contains (chunkAt (mgr w') c) obj = true /\ (loads w' <= S (loads w))%nat).
Proof.
  split; [|split; [|split]].
  - intros k c L C. unfold findChunk, bind.
    rewrite (findChunk_lookup_hit _ _ _ _ L C). reflexivity.
  - intros k c w1 L C R. unfold findChunk, bind.
    rewrite (findChunk_lookup_wrong _ _ _ _ L C), R. reflexivity.
  - intros w1 L R.
    assert (E : findChunk obj w = findChunk_retry obj w1).
    { unfold findChunk, bind at 1. rewrite (findChunk_lookup_none _ _ L).
      unfold bind. rewrite R. reflexivity. }
    rewrite E. unfold findChunk_retry, bind. split; [|split].
    + intros k c L1 C1. rewrite (findChunk_lookup_hit _ _ _ _ L1 C1). reflexivity.
    + intros L1. rewrite (findChunk_lookup_none _ _ L1). reflexivity.
    + intros k c w2 L1 C1 R1.
      rewrite (findChunk_lookup_wrong _ _ _ _ L1 C1), R1. reflexivity.
  - intros c w' H. unfold findChunk, bind at 1 in H.
    destruct (findChunk_lookup obj w) as [w0 [[c0|]|e]] eqn:E; try discriminate.
    + inversion H; subst. apply findChunk_lookup_ret in E. destruct E as [-> C].
      split; auto.
    + unfold bind in H. destruct (_reload w0) as [w1 [[]|e]] eqn:R; try discriminate.
      unfold findChunk_retry, bind in H.
      destruct (findChunk_lookup obj w1) as [w2 [[c2|]|e]] eqn:E2; try discriminate.
      inversion H; subst. apply findChunk_lookup_ret in E2. destruct E2 as [-> C].
      split; auto.
      apply _reload_loads in R. rewrite R.
      assert (loads w0 = loads w); [|lia].
      clear - E. unfold findChunk_lookup, bind at 1, get_mgr in E.
      destruct (nth_error _ _) as [[k c']|].
      * destruct (contains _ _); [inversion E; auto|].
        unfold bind in E. destruct (_reload w) as [w3 [[]|e]]; discriminate.
      * inversion E; auto.
Qed.

(** *** What [ChunkManager::save] changes *)

(** Two chunk objects that differ at most in [_lastmod]. *)
Definition same_but_lastmod (c c' : Chunk) : Prop :=
  _ns c' = _ns c /\ _min c' = _min c /\ _max c' = _max c /\
  _shard c' = _shard c /\ _modified c' = _modified c /\
  _dataWritten c' = _dataWritten c.

(** [saved m m']: [m'] is [m] after some chunks whose [_lastmod] was 0 have
    been given a version (and the sequence number was advanced). *)
Definition saved (m m' : ChunkManager) : Prop :=
  _chunks m' = _chunks m /\ _chunkMap m' = _chunkMap m /\
  _chunkRanges m' = _chunkRanges m /\ length (heap m') = length (heap m) /\
  forall p, same_but_lastmod (chunkAt m p) (chunkAt m' p) /\
            (_lastmod (chunkAt m p) = 0 \/
             _lastmod (chunkAt m' p) = _lastmod (chunkAt m p)).

(** The chunk saves and the final marker that one [save()] adds to the trace. *)
Definition is_chunk_save (e : Event) : Prop := exists p, e = EvChunkSave p.

Lemma list_set_length {A} (l : list A) i x : length (list_set l i x) = length l.
Proof. revert i; induction l as [|y l IH]; intros [|i]; simpl; auto. Qed.

Lemma nth_list_set_same {A} (l : list A) i x d :
  (i < length l)%nat -> nth i (list_set l i x) d = x.
Proof.
  revert i; induction l as [|y l IH]; intros [|i] H; simpl in *; try lia; auto.
  apply IH; lia.
Qed.

Lemma nth_list_set_other {A} (l : list A) i j x d :
  i <> j -> nth j (list_set l i x) d = nth j l d.
Proof.
  revert i j; induction l as [|y l IH]; intros [|i] [|j] H; simpl; auto.
  congruence.
Qed.

Lemma list_set_beyond {A} (l : list A) i x :
  (length l <= i)%nat -> list_set l i x = l.
Proof.
  revert i; induction l as [|y l IH]; intros [|i] H; simpl in *; auto; try lia.
  rewrite IH; auto; lia.
Qed.

Lemma chunkAt_set_same m p c :
  (p < length (heap m))%nat -> chunkAt (set_chunk m p c) p = c.
Proof. intros H. unfold chunkAt, set_chunk; simpl. apply nth_list_set_same; auto. Qed.

Lemma chunkAt_set_other m p q c :
  p <> q -> chunkAt (set_chunk m p c) q = chunkAt m q.
Proof. intros H. unfold chunkAt, set_chunk; simpl. apply nth_list_set_other; auto. Qed.

Lemma set_chunk_beyond m p c :
  (length (heap m) <= p)%nat -> set_chunk m p c = m.
Proof.
  intros H. unfold set_chunk. rewrite list_set_beyond by auto. destruct m; reflexivity.
Qed.

Lemma same_but_lastmod_refl c : same_but_lastmod c c.
Proof. unfold same_but_lastmod; tauto. Qed.

Lemma saved_refl m : saved m m.
Proof.
  unfold saved. repeat split; auto; try apply same_but_lastmod_refl.
Qed.

Lemma saved_trans m1 m2 m3 : saved m1 m2 -> saved m2 m3 -> saved m1 m3.
Proof.
  intros (A1 & A2 & A3 & A4 & A5) (B1 & B2 & B3 & B4 & B5).
  unfold saved. do 4 (split; [congruence|]). intros p. split.
  - destruct (A5 p) as [(?&?&?&?&?&?) _], (B5 p) as [(?&?&?&?&?&?) _].
    unfold same_but_lastmod. repeat split; congruence.
  - destruct (A5 p) as [_ [Z1|E1]]; [left; exact Z1|].
    destruct (B5 p) as [_ [Z2|E2]].
    + left. congruence.
    + right. congruence.
Qed.

Lemma Chunk_save_saved p w :
  exists w', Chunk_save p w = (w', Ret tt) /\ saved (mgr w) (mgr w') /\
             trace w' = EvChunkSave p :: trace w.
Proof.
  unfold Chunk_save, bind, get_chunk, emit. simpl.
  destruct (_lastmod (chunkAt (mgr w) p) =? 0) eqn:E.
  - eexists. split; [reflexivity|]. simpl. split; [|reflexivity].
    apply Z.eqb_eq in E.
    destruct (Nat.lt_ge_cases p (length (heap (mgr w)))) as [Hlt|Hge].
    + unfold saved. simpl. rewrite list_set_length.
      do 4 (split; [reflexivity|]). intros q.
      destruct (Nat.eq_dec p q) as [<-|Hne].
      * rewrite chunkAt_set_same by auto. split; [|left; exact E].
        unfold same_but_lastmod; simpl; tauto.
      * rewrite chunkAt_set_other by auto. split; [apply same_but_lastmod_refl|auto].
    + rewrite set_chunk_beyond by auto. apply saved_refl.
  - eexists. split; [reflexivity|]. simpl. split; [|reflexivity]. apply saved_refl.
Qed.

Lemma save_loop_saved l : forall w,
  exists w' evs, save_loop l w = (w', Ret tt) /\ saved (mgr w) (mgr w') /\
                 trace w' = evs ++ trace w /\ Forall is_chunk_save evs.
Proof.
  induction l as [|p l IH]; intros w; simpl.
  - exists w, []. split; [reflexivity|]. split; [apply saved_refl|].
    split; [reflexivity|constructor].
  - unfold bind at 1, get_chunk.
    destruct (negb (_modified (chunkAt (mgr w) p))).
    + apply IH.
    + unfold bind at 1.
      destruct (Chunk_save_saved p w) as (w1 & E1 & S1 & T1). rewrite E1.
      unfold bind at 1, next_sequence.
      match goal with |- context [save_loop l ?x] => destruct (IH x) as (w2 & evs & E2 & S2 & T2 & F2) end.
      exists w2, (evs ++ [EvChunkSave p]). rewrite E2. split; auto. split.
      * eapply saved_trans; [exact S1|]. eapply saved_trans; [|exact S2].
        unfold saved; simpl. do 4 (split; [reflexivity|]). intros q.
        split; [apply same_but_lastmod_refl|auto].
      * simpl in T2. rewrite T2, T1. rewrite <- app_assoc. split; auto.
        apply Forall_app. split; auto. constructor; [|constructor]. exists p; auto.
Qed.

Lemma getVersion_fold_mono m m' : saved m m' -> forall l a a',
  0 <= a <= a' ->
  0 <= fold_left (fun mx p => if _lastmod (chunkAt m p) >? mx
                              then _lastmod (chunkAt m p) else mx) l a
    <= fold_left (fun mx p => if _lastmod (chunkAt m' p) >? mx
                              then _lastmod (chunkAt m' p) else mx) l a'.
Proof.
  intros (_ & _ & _ & _ & H5). induction l as [|p l IH]; intros a a' Ha; simpl.
  - lia.
  - apply IH. destruct (H5 p) as [_ Hp].
    destruct (_lastmod (chunkAt m p) >? a) eqn:E1;
      destruct (_lastmod (chunkAt m' p) >? a') eqn:E2;
      rewrite Z.gtb_ltb in E1, E2;
      try apply Z.ltb_lt in E1; try apply Z.ltb_ge in E1;
      try apply Z.ltb_lt in E2; try apply Z.ltb_ge in E2; lia.
Qed.

Lemma getVersion_saved m m' : saved m m' -> getVersion m <= getVersion m'.
Proof.
  intros S. unfold getVersion. destruct S as (E & R). rewrite E.
  apply (getVersion_fold_mono m m'); [unfold saved; auto|lia].
Qed.

(** In this model [save()] always completes: versions are only handed to
    chunks whose [_lastmod] was 0, so the overall version cannot fall. *)
Lemma ChunkManager_save_ok w :
  exists w' evs, ChunkManager_save w = (w', Ret tt) /\ saved (mgr w) (mgr w') /\
                 trace w' = EvManagerSave :: evs ++ trace w /\
                 Forall is_chunk_save evs.
Proof.
  unfold ChunkManager_save, bind at 1, get_mgr.
  destruct (save_loop_saved (_chunks (mgr w)) w) as (w1 & evs & E & S & T & F).
  unfold bind at 1. rewrite E. unfold bind at 1, get_mgr. unfold bind at 1.
  pose proof (getVersion_saved _ _ S) as Hv.
  assert (G : (getVersion (mgr w1) >=? getVersion (mgr w)) = true).
  { rewrite Z.geb_leb. apply Z.leb_le. exact Hv. }
  rewrite G. simpl. unfold emit.
  eexists. exists evs. split; [reflexivity|]. simpl. rewrite T. auto.
Qed.

(** *** [Chunk::split] *)




(** *** [Chunk::moveAndCommit] *)

Lemma bind_ret_inv {A B} (m : M A) (f : A -> M B) w w' b :
  bind m f w = (w', Ret b) ->
  exists a w1, m w = (w1, Ret a) /\ f a w1 = (w', Ret b).
Proof.
  unfold bind. destruct (m w) as [w1 [a|e]]; [eauto|discriminate].
Qed.

Lemma newVersion_to_send_cases from oldVersion w :
  let posted := getVersion_of (mgr w) from in
  (posted = 0 -> 0 < oldVersion ->
     exists w' evs,
       newVersion_to_send from oldVersion w = (w', Ret ((oldVersion + 1) mod 2 ^ 64))
       /\ trace w' = EvManagerSave :: evs ++ trace w /\ Forall is_chunk_save evs)
  /\ (~ (posted = 0 /\ 0 < oldVersion) -> posted <= oldVersion ->
      newVersion_to_send from oldVersion w = (w, Throw (UserException 10168)))
  /\ (~ (posted = 0 /\ 0 < oldVersion) -> oldVersion < posted ->
      newVersion_to_send from oldVersion w = (w, Ret posted)).
Proof.
  intros posted.
  assert (U : newVersion_to_send from oldVersion w
              = (if (posted =? 0) && (oldVersion >? 0)
                 then ChunkManager_save ;;; ret ((oldVersion + 1) mod 2 ^ 64)
                 else if posted <=? oldVersion
                      then uassert 10168 (posted >? oldVersion) ;;; ret posted
                      else ret posted) w) by reflexivity.
  rewrite U. clear U.
  split; [|split].
  - intros Hz Hpos.
    assert (E : (posted =? 0) && (oldVersion >? 0) = true).
    { apply andb_true_iff. split; [apply Z.eqb_eq; auto|].
      rewrite Z.gtb_ltb. apply Z.ltb_lt. auto. }
    rewrite E. unfold bind.
    destruct (ChunkManager_save_ok w) as (w' & evs & Es & _ & T & F).
    rewrite Es. exists w', evs. auto.
  - intros Hn Hle.
    assert (E : (posted =? 0) && (oldVersion >? 0) = false).
    { apply andb_false_iff. destruct (Z.eq_dec posted 0) as [Hz|Hz].
      - right. rewrite Z.gtb_ltb. apply Z.ltb_ge. lia.
      - left. apply Z.eqb_neq. auto. }
    rewrite E. apply Z.leb_le in Hle. rewrite Hle.
    assert (G : (posted >? oldVersion) = false).
    { rewrite Z.gtb_ltb. apply Z.ltb_ge. apply Z.leb_le. auto. }
    unfold bind, uassert. rewrite G. reflexivity.
  - intros Hn Hlt.
    assert (E : (posted =? 0) && (oldVersion >? 0) = false).
    { apply andb_false_iff. destruct (Z.eq_dec posted 0) as [Hz|Hz].
      - right. rewrite Z.gtb_ltb. apply Z.ltb_ge. lia.
      - left. apply Z.eqb_neq. auto. }
    rewrite E. apply Z.leb_gt in Hlt. rewrite Hlt. reflexivity.
Qed.

Lemma newVersion_to_send_greater from oldVersion w w' nv :
  newVersion_to_send from oldVersion w = (w', Ret nv) ->
  oldVersion < 2 ^ 64 - 1 -> oldVersion < nv.
Proof.
  intros H Hb.
  destruct (newVersion_to_send_cases from oldVersion w) as (A & B & C).
  set (posted := getVersion_of (mgr w) from) in *.
  assert (D : (posted = 0 /\ 0 < oldVersion) \/ ~ (posted = 0 /\ 0 < oldVersion)) by lia.
  destruct D as [[Hz Hp]|Hn].
  - destruct (A Hz Hp) as (w1 & evs & E & _). rewrite E in H. inversion H; subst.
    rewrite Z.mod_small; lia.
  - destruct (Z_lt_le_dec oldVersion posted) as [Hlt|Hle].
    + rewrite C in H; auto. inversion H; subst. auto.
    + rewrite B in H; auto. discriminate.
Qed.

Lemma uassert_ret_inv code b w w' u :
  uassert code b w = (w', Ret u) -> w' = w /\ b = true.
Proof.
  unfold uassert. destruct b; unfold ret, throw; intros H; inversion H; auto.
Qed.

(** C3 (as amended). When [moveAndCommit] returns true, the [newVersion] it
    sent in [movechunk.finish] is strictly greater than the source shard's
    version before the move, provided that version is below [2^64 - 1] (the
    64-bit counter wraps at that value).  In the version block: a post-save
    version of zero with a positive old version sends [oldVersion + 1] and
    saves the manager again; otherwise a post-save version not above the old
    one raises assertion 10168, and a greater one is sent as it is. *)
Theorem moveAndCommit_version_increases (p : nat) (to : Shard) (w : World) :
  let from := getShard (chunkAt (mgr w) p) in
  let oldVersion := getVersion_of (mgr w) from in
  (forall w', moveAndCommit p to w = (w', Ret true) ->
     exists nv rest,
       trace w' = EvLogChange "migrate" :: EvMoveChunkFinish to nv :: rest /\
       (oldVersion < 2 ^ 64 - 1 -> oldVersion < nv))
  /\ (forall w2, let posted := getVersion_of (mgr w2) from in
       (posted = 0 -> 0 < oldVersion ->
          exists w3 evs,
            newVersion_to_send from oldVersion w2
            = (w3, Ret ((oldVersion + 1) mod 2 ^ 64))
            /\ trace w3 = EvManagerSave :: evs ++ trace w2
            /\ Forall is_chunk_save evs)
       /\ (~ (posted = 0 /\ 0 < oldVersion) -> posted <= oldVersion ->
           newVersion_to_send from oldVersion w2 = (w2, Throw (UserException 10168)))
       /\ (~ (posted = 0 /\ 0 < oldVersion) -> oldVersion < posted ->
           newVersion_to_send from oldVersion w2 = (w2, Ret posted))).
Proof.
  intros from oldVersion. split.
  - intros w' H. unfold moveAndCommit in H.
    apply bind_ret_inv in H. destruct H as (c & w1 & H1 & H).
    unfold get_chunk in H1. inversion H1; subst c w1. clear H1.
    apply bind_ret_inv in H. destruct H as (u & w1 & H1 & H).
    apply uassert_ret_inv in H1. destruct H1 as [-> _].
    apply bind_ret_inv in H. destruct H as (m0 & w1 & H1 & H).
    unfold get_mgr in H1. inversion H1; subst m0 w1. clear H1.
    apply bind_ret_inv in H. destruct H as (u1 & w1 & H1 & H).
    unfold emit in H1. inversion H1; subst w1. clear H1.
    destruct (negb (movechunk_start env)); [discriminate|].
    apply bind_ret_inv in H. destruct H as (u2 & w2 & _ & H).
    apply bind_ret_inv in H. destruct H as (u3 & w3 & _ & H).
    apply bind_ret_inv in H. destruct H as (u4 & w4 & _ & H).
    apply bind_ret_inv in H. destruct H as (nv & w5 & Hnv & H).
    apply bind_ret_inv in H. destruct H as (u5 & w6 & H1 & H).
    unfold emit in H1. inversion H1; subst w6. clear H1.
    destruct (negb (movechunk_finish env)); [discriminate|].
    unfold bind, emit, ret in H. inversion H; subst w'. simpl.
    exists nv, (trace w5). split; [reflexivity|].
    intros Hb. eapply newVersion_to_send_greater; eauto.
  - intros w2. apply newVersion_to_send_cases.
Qed.

(** *** [Chunk::splitIfShould] *)







(** *** The [_dataWritten] counters are only touched by [splitIfShould] *)




























(** *** [ChunkManager::_getChunksForQuery] *)

(** [FieldBound], [FieldInterval] and [FieldRange] of db/queryutil.h, as far
    as this function reads them.  The predicates of a range and the validity
    of an interval are computed there. *)
Record FieldBound := mkFieldBound { bound_ : BSONValue; inclusive_ : bool }.
Record FieldInterval := mkFieldInterval { lower_ : FieldBound; upper_ : FieldBound }.
Record FieldRange := mkFieldRange {
  getSpecial : string;
  intervals : list FieldInterval
}.
Variable FieldRange_empty : FieldRange -> bool.       (* range.empty() *)
Variable FieldRange_equality : FieldRange -> bool.    (* range.equality() *)
Variable FieldRange_nontrivial : FieldRange -> bool.  (* range.nontrivial() *)
Variable FieldRange_min : FieldRange -> BSONValue.    (* range.min() *)
Variable FieldInterval_valid : FieldInterval -> bool. (* fi.valid() *)
(** [FieldRangeSet ranges(ns, query, false); ranges.range(fieldName)] *)
Variable rangeOf : BSONObj -> string -> FieldRange.

(** The name of the first field of the key pattern. *)
Definition firstFieldName : string :=
  match keyPattern with
  | (f, _) :: _ => f
  | [] => EmptyString
  end.

(** [set<shared_ptr<ChunkRange>, ChunkCmp>::insert]: ordered by [getMin()];
    an element equivalent to one already there is not inserted. *)
Fixpoint chunkSet_insert (set : list ChunkRange) (r : ChunkRange) : list ChunkRange :=
  match set with
  | [] => [r]
  | x :: set' =>
      if BSONObjCmp (cr_min r) (cr_min x) then r :: set
      else if BSONObjCmp (cr_min x) (cr_min r) then x :: chunkSet_insert set' r
      else set
  end.

(** The two iterators of an interval: [min], and [max] made one-past. *)
Definition interval_min (ranges : ChunkRangeMap) (field : string) (fi : FieldInterval) : nat :=
  let minObj := [(field, bound_ (lower_ fi))] in
  if inclusive_ (lower_ fi) then upper_bound ranges minObj else lower_bound ranges minObj.

Definition interval_max (ranges : ChunkRangeMap) (field : string) (fi : FieldInterval) : nat :=
  let maxObj := [(field, bound_ (upper_ fi))] in
  let max := if inclusive_ (upper_ fi)
             then upper_bound ranges maxObj else lower_bound ranges maxObj in
  if Nat.eqb max (length ranges) then max else S max.

(** The loop over [range.intervals()]. Running [it] from [min] past [max] is
    undefined. *)
Fixpoint intervals_loop (ranges : ChunkRangeMap) (field : string)
         (ivs : list FieldInterval) (chunkSet : list ChunkRange)
  : Res (list ChunkRange) :=
  match ivs with
  | [] => Ret chunkSet
  | fi :: rest =>
      if negb (FieldInterval_valid fi) then Throw AssertionException
      else
        let min := interval_min ranges field fi in
        let max := interval_max ranges field fi in
        if Nat.eqb min (length ranges) then Throw AssertionException
        else if (max <? min)%nat then Throw UndefinedBehaviour
        else intervals_loop ranges field rest
               (fold_left chunkSet_insert (map snd (slice ranges min max)) chunkSet)
  end.

(** [int ChunkManager::_getChunksForQuery( vector<shared_ptr<ChunkRange> >&
    chunks , const BSONObj& query )]: the vector as it is left, and the
    returned number. *)
Definition _getChunksForQuery (m : ChunkManager) (chunks : list ChunkRange)
           (query : BSONObj) : Res (list ChunkRange * Z) :=
  let field := firstFieldName in
  let range := rangeOf query field in
  let ranges := _chunkRanges m in
  if negb (String.eqb (getSpecial range) EmptyString) then Throw (UserException 13088)
  else if FieldRange_empty range then Ret (chunks, 0)
  else if FieldRange_equality range then
    match nth_error ranges (upper_bound ranges [(field, FieldRange_min range)]) with
    | Some (_, r) => Ret (chunks ++ [r], 1)
    | None => Throw UndefinedBehaviour
    end
  else if negb (FieldRange_nontrivial range) then Ret (chunks, -1)
  else
    match intervals_loop ranges field (intervals range) [] with
    | Ret chunkSet => Ret (chunkSet, Z.of_nat (length chunkSet))
    | Throw e => Throw e
    end.

















(** *** Versions *)

Lemma fold_version_le (m : ChunkManager) (shard : Shard) : forall l a b,
  a <= b ->
  a <= fold_left (fun mx p =>
                    let c := chunkAt m p in
                    if negb (Shard_eq (getShard c) shard) then mx
                    else if _lastmod c >? mx then _lastmod c else mx) l a
    <= fold_left (fun mx p =>
                    let c := chunkAt m p in
                    if _lastmod c >? mx then _lastmod c else mx) l b.
Proof.
  induction l as [|p l IH]; intros a b Hab; simpl; [lia|].
  set (a' := if negb (Shard_eq (getShard (chunkAt m p)) shard) then a
             else if _lastmod (chunkAt m p) >? a then _lastmod (chunkAt m p) else a).
  set (b' := if _lastmod (chunkAt m p) >? b then _lastmod (chunkAt m p) else b).
  assert (a <= a' <= b').
  { unfold a', b'. destruct (negb _);
      destruct (_lastmod (chunkAt m p) >? a) eqn:E1;
      destruct (_lastmod (chunkAt m p) >? b) eqn:E2;
      rewrite ?Z.gtb_ltb in *;
      try (apply Z.ltb_lt in E1); try (apply Z.ltb_ge in E1);
      try (apply Z.ltb_lt in E2); try (apply Z.ltb_ge in E2); lia. }
  specialize (IH a' b' (proj2 H)). cbv zeta in IH. lia.
Qed.

Lemma fold_version_covers (m : ChunkManager) (shard : Shard) : forall l a p,
  In p l -> Shard_eq (getShard (chunkAt m p)) shard = true ->
  _lastmod (chunkAt m p)
  <= fold_left (fun mx p =>
                  let c := chunkAt m p in
                  if negb (Shard_eq (getShard c) shard) then mx
                  else if _lastmod c >? mx then _lastmod c else mx) l a.
Proof.
  induction l as [|q l IH]; intros a p Hin Hs; [destruct Hin|].
  simpl. destruct Hin as [->|Hin].
  - rewrite Hs. simpl negb. cbv iota.
    set (a' := if _lastmod (chunkAt m p) >? a then _lastmod (chunkAt m p) else a).
    assert (_lastmod (chunkAt m p) <= a').
    { unfold a'. destruct (_lastmod (chunkAt m p) >? a) eqn:E; [lia|].
      rewrite Z.gtb_ltb in E. apply Z.ltb_ge in E. exact E. }
    pose proof (fold_version_le m shard l a' a' (Z.le_refl _)) as X.
    cbv zeta in X. lia.
  - apply IH; auto.
Qed.

Lemma fold_version_none (m : ChunkManager) (shard : Shard) : forall l a,
  (forall p, In p l -> Shard_eq (getShard (chunkAt m p)) shard = false) ->
  fold_left (fun mx p =>
               let c := chunkAt m p in
               if negb (Shard_eq (getShard c) shard) then mx
               else if _lastmod c >? mx then _lastmod c else mx) l a = a.
Proof.
  induction l as [|q l IH]; intros a H; simpl; [reflexivity|].
  rewrite (H q (or_introl eq_refl)). simpl. apply IH.
  intros p Hp. apply H. right. exact Hp.
Qed.

(** X8. The version of a shard is the greatest [_lastmod] among its chunks
    (0 when it has none): it is between 0 and the version of the whole
    manager and at least the [_lastmod] of every chunk on the shard.  A
    shard on which [findChunkOnServer] finds no chunk has version 0, and a
    shard of positive version has a chunk that [findChunkOnServer]
    returns. *)
Theorem shard_version_bounds (m : ChunkManager) (shard : Shard) :
  0 <= getVersion_of m shard <= getVersion m
  /\ (forall p, In p (_chunks m) ->
        Shard_eq (getShard (chunkAt m p)) shard = true ->
        _lastmod (chunkAt m p) <= getVersion_of m shard)
  /\ (findChunkOnServer m shard = None -> getVersion_of m shard = 0)
  /\ (0 < getVersion_of m shard ->
      exists p, findChunkOnServer m shard = Some p /\ In p (_chunks m)
                /\ Shard_eq (getShard (chunkAt m p)) shard = true).
Proof.
  assert (Hnone : findChunkOnServer m shard = None -> getVersion_of m shard = 0).
  { intros H. unfold getVersion_of. apply fold_version_none.
    intros p Hp. unfold findChunkOnServer in H.
    apply (find_none _ _ H p Hp). }
  split; [|split; [|split]].
  - unfold getVersion_of, getVersion. apply fold_version_le. lia.
  - intros p Hp Hs. unfold getVersion_of. apply fold_version_covers; auto.
  - exact Hnone.
  - intros Hpos. destruct (findChunkOnServer m shard) as [p|] eqn:E.
    + exists p. split; [reflexivity|]. unfold findChunkOnServer in E.
      apply find_some in E. exact E.
    + rewrite (Hnone eq_refl) in Hpos. lia.
Qed.

(** *** What [ChunkManager::save] writes *)

Definition modified_chunks (m : ChunkManager) : list nat :=
  filter (fun p => _modified (chunkAt m p)) (_chunks m).

Lemma Chunk_save_counter p w :
  NextSequenceNumber (fst (Chunk_save p w)) = NextSequenceNumber w.
Proof.
  unfold Chunk_save, bind, get_chunk, emit, ret.
  destruct (_lastmod (chunkAt (mgr w) p) =? 0); reflexivity.
Qed.

Lemma saved_modified m m' p :
  saved m m' -> _modified (chunkAt m' p) = _modified (chunkAt m p).
Proof. intros (_ & _ & _ & _ & H). destruct (H p) as [(_ & _ & _ & _ & X & _) _]. exact X. Qed.

Lemma save_loop_trace (m0 : ChunkManager) l : forall w,
  saved m0 (mgr w) ->
  exists w', save_loop l w = (w', Ret tt) /\ saved m0 (mgr w')
    /\ trace w'
       = rev (map EvChunkSave (filter (fun p => _modified (chunkAt m0 p)) l)) ++ trace w
    /\ NextSequenceNumber w' mod 2 ^ 32
       = (NextSequenceNumber w
          + Z.of_nat (length (filter (fun p => _modified (chunkAt m0 p)) l))) mod 2 ^ 32.
Proof.
  induction l as [|p l IH]; intros w Hs.
  - exists w. simpl. rewrite Z.add_0_r. auto.
  - simpl save_loop. unfold bind at 1. unfold get_chunk at 1.
    rewrite (saved_modified m0 (mgr w) p Hs). simpl filter.
    destruct (_modified (chunkAt m0 p)) eqn:Em; cbn [negb].
    + destruct (Chunk_save_saved p w) as (w1 & E1 & S1 & T1).
      pose proof (Chunk_save_counter p w) as C1. rewrite E1 in C1. simpl in C1.
      unfold bind at 1. rewrite E1.
      unfold bind at 1. unfold next_sequence at 1.
      set (w2 := mkWorld _ _ _ _ _).
      assert (S2 : saved m0 (mgr w2)).
      { apply (saved_trans _ _ _ Hs). apply (saved_trans _ _ _ S1).
        unfold w2. simpl. unfold saved. simpl. repeat split; auto. }
      destruct (IH w2 S2) as (w' & E & S' & T & N).
      exists w'. split; [exact E|]. split; [exact S'|]. split.
      * rewrite T. unfold w2. simpl trace. rewrite T1. simpl.
        rewrite <- app_assoc. reflexivity.
      * rewrite N. unfold w2. simpl NextSequenceNumber. rewrite C1.
        simpl length. rewrite Nat2Z.inj_succ.
        rewrite Zplus_mod_idemp_l. f_equal. lia.
    + apply IH. exact Hs.
Qed.


(** *** Chunk documents: [serialize] and [unserialize] *)

Section Serialize.
(** [BSONElement::toString( false )], as [genID] uses it. *)
Variable toString : BSONValue -> string.

(** [void Chunk::serialize(BSONObjBuilder& to)]: the [_id] and the fields
    that [unserialize] and [_load] read back.  [appendTimestamp( "lastmod" )]
    without a value writes the timestamp 0, which is what [_lastmod] holds
    in that branch; no [isMaxMarker], [minDotted] or [maxDotted] is
    written. *)
Definition serialize (c : Chunk) : string * ChunkDoc :=
  (ChunkID.genID BSONValue toString (_ns c) (_min c),
   mkChunkDoc false (_ns c) (_shard c) (Some (_lastmod c)) None
              (_min c) (_max c) []).

(** X10. Reading back what [serialize] wrote gives the chunk's namespace,
    range, shard and version, with [_modified] and [_dataWritten] as in a
    new chunk, provided namespace, min and max are not empty; a chunk with
    an empty namespace, min or max is written but cannot be read back
    (10170, 10172, 10173).  The document is never a max marker, and its
    [_id] is made of the namespace and the min alone. *)
Theorem unserialize_serialize (c : Chunk) :
  let d := snd (serialize c) in
  d_isMaxMarker d = false
  /\ (forall c', _ns c' = _ns c -> _min c' = _min c ->
                 fst (serialize c') = fst (serialize c))
  /\ (_ns c <> EmptyString -> isEmpty (_min c) = false -> isEmpty (_max c) = false ->
      unserialize d
      = Ret (mkChunk (_ns c) (_min c) (_max c) (_shard c) (_lastmod c) false 0))
  /\ (_ns c = EmptyString -> unserialize d = Throw (UserException 10170))
  /\ (_ns c <> EmptyString -> isEmpty (_min c) = true ->
      unserialize d = Throw (UserException 10172))
  /\ (_ns c <> EmptyString -> isEmpty (_min c) = false -> isEmpty (_max c) = true ->
      unserialize d = Throw (UserException 10173)).
Proof.
  unfold serialize, unserialize; simpl.
  split; [reflexivity|]. split.
  { intros c' H1 H2. rewrite H1, H2. reflexivity. }
  split; [|split; [|split]].
  - intros Hn Hmin Hmax. apply String.eqb_neq in Hn. rewrite Hn, Hmin, Hmax.
    reflexivity.
  - intros ->. reflexivity.
  - intros Hn Hmin. apply String.eqb_neq in Hn. rewrite Hn, Hmin. reflexivity.
  - intros Hn Hmin Hmax. apply String.eqb_neq in Hn. rewrite Hn, Hmin, Hmax.
    reflexivity.
Qed.

End Serialize.

(** X11. What [unserialize] checks.  It fails with 10170 exactly when the
    namespace is empty, and never with 10171: "Chunk needs a server" tests
    the namespace again, so a document with an empty shard name is accepted.
    An accepted chunk has a non-empty namespace, min and max, the shard and
    version of the document (version 0 without a [lastmod] field), and its
    range comes from [minDotted]/[maxDotted] when [minDotted] is there. *)
Theorem unserialize_validation (d : ChunkDoc) :
  unserialize d <> Throw (UserException 10171)
  /\ (unserialize d = Throw (UserException 10170) <-> d_ns d = EmptyString)
  /\ (forall c, unserialize d = Ret c ->
        _ns c = d_ns d /\ _ns c <> EmptyString /\ _shard c = d_shard d
        /\ isEmpty (_min c) = false /\ isEmpty (_max c) = false
        /\ _modified c = false /\ _dataWritten c = 0
        /\ _lastmod c = match d_lastmod d with Some t => t | None => 0 end
        /\ (_min c, _max c) = match d_minDotted d with
                              | None => (d_min d, d_max d)
                              | Some e => (e, d_maxDotted d)
                              end)
  /\ (d_ns d <> EmptyString -> d_shard d = EmptyString -> d_minDotted d = None ->
      isEmpty (d_min d) = false -> isEmpty (d_max d) = false ->
      exists c, unserialize d = Ret c /\ _shard c = EmptyString).
Proof.
  unfold unserialize.
  destruct (d_minDotted d) as [e|] eqn:Ed;
    destruct (String.eqb_spec (d_ns d) EmptyString) as [En|En].
  all: repeat match goal with |- _ /\ _ => split end.
  all: try (intros H; discriminate).
  all: try (split; [intros _; exact En|intros _; reflexivity]).
  all: try (intros c H; discriminate).
  all: try (intros H; contradiction).
  all: try (intros _ _ H; discriminate).
  - destruct (isEmpty e); [intros H; discriminate|].
    destruct (isEmpty (d_maxDotted d)); intros H; discriminate.
  - split.
    + destruct (isEmpty e); [intros H; discriminate|].
      destruct (isEmpty (d_maxDotted d)); intros H; discriminate.
    + intros H. contradiction.
  - intros c. destruct (isEmpty e) eqn:E1; [intros H; discriminate|].
    destruct (isEmpty (d_maxDotted d)) eqn:E2; [intros H; discriminate|].
    intros H. inversion H; subst c; simpl. repeat split; auto.
  - destruct (isEmpty (d_min d)); [intros H; discriminate|].
    destruct (isEmpty (d_max d)); intros H; discriminate.
  - split.
    + destruct (isEmpty (d_min d)); [intros H; discriminate|].
      destruct (isEmpty (d_max d)); intros H; discriminate.
    + intros H. contradiction.
  - intros c. destruct (isEmpty (d_min d)) eqn:E1; [intros H; discriminate|].
    destruct (isEmpty (d_max d)) eqn:E2; [intros H; discriminate|].
    intros H. inversion H; subst c; simpl. repeat split; auto.
  - intros _ Hs _ Hmin Hmax. rewrite Hmin, Hmax. eexists. split; [reflexivity|].
    simpl. exact Hs.
Qed.

(** *** Loading the chunks *)

Definition not_marker (d : ChunkDoc) : bool := negb (d_isMaxMarker d).

(** The map that [_chunkMap[c->getMax()] = c] builds for the chunks [cs]
    allocated from position [base] on. *)
Definition loaded_map (base : nat) (cs : list Chunk) (m : omap nat) : omap nat :=
  fold_left (fun m e => map_set m (getMax (snd e)) (fst e))
            (combine (seq base (length cs)) cs) m.

Lemma load_docs_filter docs : forall w,
  load_docs docs w = load_docs (filter not_marker docs) w.
Proof.
  induction docs as [|d docs IH]; intros w; [reflexivity|].
  simpl. unfold not_marker at 1. destruct (d_isMaxMarker d) eqn:E; simpl.
  - apply IH.
  - rewrite E. destruct (unserialize d); [|reflexivity].
    unfold bind, get_mgr, put_mgr. apply IH.
Qed.

Lemma load_docs_ok docs : forall cs w,
  Forall (fun d => d_isMaxMarker d = false) docs ->
  map unserialize docs = map Ret cs ->
  exists w', load_docs docs w = (w', Ret tt)
    /\ heap (mgr w') = heap (mgr w) ++ cs
    /\ _chunks (mgr w') = _chunks (mgr w) ++ seq (length (heap (mgr w))) (length cs)
    /\ _chunkMap (mgr w') = loaded_map (length (heap (mgr w))) cs (_chunkMap (mgr w))
    /\ _chunkRanges (mgr w') = _chunkRanges (mgr w)
    /\ _sequenceNumber (mgr w') = _sequenceNumber (mgr w)
    /\ NextSequenceNumber w' = NextSequenceNumber w
    /\ timestamps_used w' = timestamps_used w
    /\ loads w' = loads w /\ trace w' = trace w.
Proof.
  induction docs as [|d docs IH]; intros cs w Hm Hu.
  - destruct cs; [|discriminate]. exists w. simpl. rewrite !app_nil_r.
    repeat split; reflexivity.
  - destruct cs as [|c cs]; [discriminate|].
    inversion Hm as [|? ? Hd Hm']; subst. simpl in Hu. inversion Hu as [[Hc Hu']].
    simpl load_docs. rewrite Hd, Hc.
    unfold bind at 1. unfold get_mgr at 1. unfold bind at 1. unfold put_mgr at 1.
    set (w1 := set_mgr w _).
    destruct (IH cs w1 Hm' Hu') as (w' & E & A & B & C & D & F & G & H & I & J).
    exists w'. split; [exact E|]. unfold w1 in *. simpl in *.
    rewrite A, B, C, D, F, G, H, I, J.
    rewrite length_app. simpl.
    replace (length (heap (mgr w)) + 1)%nat with (S (length (heap (mgr w)))) by lia.
    rewrite <- !app_assoc. simpl. repeat split; reflexivity.
Qed.

Lemma load_docs_stops pre d rest e : forall cs w,
  Forall (fun d => d_isMaxMarker d = false) pre ->
  map unserialize pre = map Ret cs ->
  d_isMaxMarker d = false -> unserialize d = Throw e ->
  exists w', load_docs (pre ++ d :: rest) w = (w', Throw e)
    /\ _chunks (mgr w') = _chunks (mgr w) ++ seq (length (heap (mgr w))) (length cs)
    /\ _chunkRanges (mgr w') = _chunkRanges (mgr w)
    /\ trace w' = trace w.
Proof.
  induction pre as [|d0 pre IH]; intros cs w Hm Hu Hd He.
  - destruct cs; [|discriminate]. exists w. simpl. rewrite Hd, He, app_nil_r.
    repeat split; reflexivity.
  - destruct cs as [|c cs]; [discriminate|].
    inversion Hm as [|? ? Hd0 Hm']; subst. simpl in Hu. inversion Hu as [[Hc Hu']].
    simpl load_docs. rewrite Hd0, Hc.
    unfold bind at 1. unfold get_mgr at 1. unfold bind at 1. unfold put_mgr at 1.
    set (w1 := set_mgr w _).
    destruct (IH cs w1 Hm' Hu' Hd He) as (w' & E & B & D & J).
    exists w'. split; [exact E|]. unfold w1 in *. simpl in *.
    rewrite B, D, J. rewrite length_app. simpl.
    replace (length (heap (mgr w)) + 1)%nat with (S (length (heap (mgr w)))) by lia.
    rewrite <- !app_assoc. simpl. repeat split; reflexivity.
Qed.

Lemma filter_not_marker docs :
  Forall (fun d => d_isMaxMarker d = false) (filter not_marker docs).
Proof.
  apply Forall_forall. intros d Hd. apply filter_In in Hd. destruct Hd as [_ H].
  unfold not_marker in H. apply negb_true_iff in H. exact H.
Qed.

Lemma Forall_app_l {T} (P : T -> Prop) (a b : list T) :
  Forall P (a ++ b) -> Forall P a.
Proof. intros H. apply Forall_app in H. destruct H as [H _]. exact H. Qed.

Lemma Forall_app_mid {T} (P : T -> Prop) (a : list T) x (b : list T) :
  Forall P (a ++ x :: b) -> P x.
Proof.
  intros H. apply Forall_app in H. destruct H as [_ H].
  inversion H; subst. assumption.
Qed.

Lemma _load_ok w cs :
  map unserialize (filter not_marker (configChunks env (loads w))) = map Ret cs ->
  exists w', _load w = (w', Ret tt)
    /\ heap (mgr w') = heap (mgr w) ++ cs
    /\ _chunks (mgr w') = _chunks (mgr w) ++ seq (length (heap (mgr w))) (length cs)
    /\ _chunkMap (mgr w') = loaded_map (length (heap (mgr w))) cs (_chunkMap (mgr w))
    /\ _chunkRanges (mgr w') = reloadAll (chunkMapView (mgr w'))
    /\ _sequenceNumber (mgr w') = _sequenceNumber (mgr w)
    /\ NextSequenceNumber w' = NextSequenceNumber w
    /\ loads w' = S (loads w) /\ trace w' = trace w.
Proof.
  intros Hu. unfold _load.
  set (w1 := mkWorld (mgr w) (NextSequenceNumber w) (timestamps_used w)
                     (S (loads w)) (trace w)).
  unfold bind at 1. rewrite load_docs_filter.
  destruct (load_docs_ok _ cs w1 (filter_not_marker _) Hu)
    as (w2 & E & A & B & C & D & F & G & H & I & J).
  rewrite E. unfold bind, get_mgr, put_mgr.
  eexists. split; [reflexivity|]. unfold w1 in *. simpl in *.
  split; [exact A|]. split; [exact B|]. split; [exact C|].
  split; [reflexivity|]. split; [exact F|]. split; [exact G|].
  split; [exact I|exact J].
Qed.

(** X12. [_reload] forgets the chunk list and the chunk map and reads the
    chunk documents again, max markers left out.  When every document is
    accepted, the manager holds one new chunk per document, in the order of
    the cursor, the map built from their max keys, and the range index made
    from that map by [reloadAll].  When a document is refused, the exception
    leaves the manager with the chunks read before it and with the range
    index it had before the reload. *)
Theorem _reload_outcome (w : World) :
  let docs := filter not_marker (configChunks env (loads w)) in
  let base := length (heap (mgr w)) in
  (forall cs, map unserialize docs = map Ret cs ->
     exists w', _reload w = (w', Ret tt)
       /\ heap (mgr w') = heap (mgr w) ++ cs
       /\ _chunks (mgr w') = seq base (length cs)
       /\ _chunkMap (mgr w') = loaded_map base cs []
       /\ _chunkRanges (mgr w') = reloadAll (chunkMapView (mgr w'))
       /\ loads w' = S (loads w) /\ trace w' = EvReload :: trace w)
  /\ (forall pre d rest cs e,
        docs = pre ++ d :: rest -> map unserialize pre = map Ret cs ->
        unserialize d = Throw e ->
        exists w', _reload w = (w', Throw e)
          /\ _chunks (mgr w') = seq base (length cs)
          /\ _chunkRanges (mgr w') = _chunkRanges (mgr w)
          /\ loads w' = S (loads w)).
Proof.
  cbv zeta. split.
  - intros cs Hu. unfold _reload.
    unfold bind at 1. unfold emit at 1. unfold bind at 1. unfold get_mgr at 1.
    unfold bind at 1. unfold put_mgr at 1.
    set (w1 := set_mgr _ _).
    destruct (_load_ok w1 cs Hu) as (w' & E & A & B & C & D & _ & _ & I & J).
    exists w'. split; [exact E|]. unfold w1 in *. simpl in *.
    rewrite A, B, C, I, J. repeat split; auto.
  - intros pre d rest cs e Hd Hu He. unfold _reload.
    unfold bind at 1. unfold emit at 1. unfold bind at 1. unfold get_mgr at 1.
    unfold bind at 1. unfold put_mgr at 1.
    set (w1 := set_mgr _ _). unfold _load.
    set (w2 := mkWorld (mgr w1) (NextSequenceNumber w1) (timestamps_used w1)
                       (S (loads w1)) (trace w1)).
    unfold bind at 1. rewrite load_docs_filter.
    change (configChunks env (loads w1)) with (configChunks env (loads w)).
    rewrite Hd.
    pose proof (filter_not_marker (configChunks env (loads w))) as Hf.
    rewrite Hd in Hf.
    destruct (load_docs_stops pre d rest e cs w2 (Forall_app_l _ _ _ Hf) Hu
                (Forall_app_mid _ _ _ _ Hf) He) as (w' & E & B & D & J).
    rewrite E. exists w'. split; [reflexivity|].
    rewrite B, D. unfold w2, w1. simpl. repeat split; auto.
    pose proof (load_docs_loads _ _ _ _ E) as L. rewrite L. reflexivity.
Qed.

(** *** The constructor *)

Lemma _load_ranges w w' :
  _load w = (w', Ret tt) -> _chunkRanges (mgr w') = reloadAll (chunkMapView (mgr w')).
Proof.
  unfold _load. set (w1 := mkWorld _ _ _ _ _). unfold bind at 1.
  destruct (load_docs (configChunks env (loads w)) w1) as [w2 [[]|e]]; [|discriminate].
  unfold bind, get_mgr, put_mgr. intros H. inversion H; subst. reflexivity.
Qed.

Lemma load_docs_frame docs : forall w w' r,
  load_docs docs w = (w', r) ->
  _sequenceNumber (mgr w') = _sequenceNumber (mgr w)
  /\ NextSequenceNumber w' = NextSequenceNumber w /\ trace w' = trace w.
Proof.
  induction docs as [|d docs IH]; intros w w' r H; simpl in H.
  - inversion H; subst. auto.
  - destruct (d_isMaxMarker d); [eauto|].
    destruct (unserialize d) as [c|e].
    + unfold bind, get_mgr, put_mgr in H. apply IH in H. simpl in H. exact H.
    + inversion H; subst. auto.
Qed.

Lemma _load_frame w w' r :
  _load w = (w', r) ->
  _sequenceNumber (mgr w') = _sequenceNumber (mgr w)
  /\ NextSequenceNumber w' = NextSequenceNumber w /\ trace w' = trace w.
Proof.
  unfold _load. set (w1 := mkWorld _ _ _ _ _). unfold bind at 1.
  destruct (load_docs (configChunks env (loads w)) w1) as [w2 [[]|e]] eqn:E;
    apply load_docs_frame in E; simpl in E.
  - unfold bind, get_mgr, put_mgr. intros H. inversion H; subst. simpl. exact E.
  - intros H. inversion H; subst. exact E.
Qed.

Lemma reloadAll_single k c :
  reloadAll [(k, c)] = [(getMax c, mkChunkRange (getShard c) (getMin c) (getMax c))].
Proof.
  unfold reloadAll, _insertRange. simpl. unfold Shard_eq. rewrite String.eqb_refl.
  reflexivity.
Qed.

(** X13. A manager that its constructor has built holds at least one chunk,
    its sequence number is the new value of the process-wide counter, its
    range index is the one [reloadAll] makes from its chunk map, and nothing
    has been written.  With no chunk document on the config server it holds
    the first chunk alone: the whole key space on the primary shard, marked
    modified, with one range over it. *)
Theorem ChunkManager_ctor_outcome (primary : Shard) (w w' : World) :
  ChunkManager_ctor primary w = (w', Ret tt) ->
  _chunks (mgr w') <> []
  /\ _chunkRanges (mgr w') = reloadAll (chunkMapView (mgr w'))
  /\ _sequenceNumber (mgr w') = (NextSequenceNumber w + 1) mod 2 ^ 32
  /\ NextSequenceNumber w' = (NextSequenceNumber w + 1) mod 2 ^ 32
  /\ trace w' = trace w
  /\ (filter not_marker (configChunks env (loads w)) = [] ->
      heap (mgr w') = [mkChunk ns globalMin globalMax primary 0 true 0]
      /\ _chunks (mgr w') = [O]
      /\ _chunkMap (mgr w') = [(globalMax, O)]
      /\ _chunkRanges (mgr w')
         = [(globalMax, mkChunkRange primary globalMin globalMax)]).
Proof.
  unfold ChunkManager_ctor.
  set (n := (NextSequenceNumber w + 1) mod 2 ^ 32).
  set (w0 := mkWorld _ _ _ _ _). intros H.
  unfold bind at 1 in H.
  destruct (_load w0) as [w1 [[]|e]] eqn:E; [|discriminate].
  pose proof (_load_frame _ _ _ E) as (F1 & F2 & F3).
  pose proof (_load_ranges _ _ E) as R.
  unfold bind at 1 in H. unfold get_mgr at 1 in H.
  assert (Hempty : filter not_marker (configChunks env (loads w)) = [] ->
                   heap (mgr w1) = [] /\ _chunks (mgr w1) = [] /\ _chunkMap (mgr w1) = []).
  { intros Hf. destruct (_load_ok w0 []) as (w1' & E' & A & B & C & _).
    - change (loads w0) with (loads w). rewrite Hf. reflexivity.
    - rewrite E in E'. inversion E'; subst w1'. simpl in A, B, C.
      rewrite A, B, C. repeat split; reflexivity. }
  destruct (Nat.eqb (length (_chunks (mgr w1))) 0) eqn:Ez.
  - unfold put_mgr in H. inversion H; subst w'. simpl.
    split; [destruct (_chunks (mgr w1)); discriminate|].
    split; [reflexivity|]. split; [exact F1|]. split; [exact F2|].
    split; [exact F3|].
    intros Hf. destruct (Hempty Hf) as (A & B & C). rewrite A, B, C. simpl.
    split; [reflexivity|]. split; [reflexivity|]. split; [reflexivity|].
    unfold chunkMapView, chunkAt. simpl. rewrite reloadAll_single. reflexivity.
  - inversion H; subst w'.
    split; [intros X; rewrite X in Ez; discriminate|].
    split; [exact R|]. split; [exact F1|]. split; [exact F2|].
    split; [exact F3|].
    intros Hf. destruct (Hempty Hf) as (A & B & C). rewrite B in Ez. discriminate.
Qed.

(** *** [moveAndCommit] when the move does not complete *)

Lemma bind_inv {A B} (m : M A) (f : A -> M B) w w' r :
  bind m f w = (w', r) ->
  (exists a w1, m w = (w1, Ret a) /\ f a w1 = (w', r))
  \/ (exists e, m w = (w', Throw e) /\ r = Throw e).
Proof.
  unfold bind. destruct (m w) as [w1 [a|e]].
  - intros H. left. exists a, w1. auto.
  - intros H. inversion H; subst. right. exists e. auto.
Qed.

Lemma ChunkManager_save_run w :
  exists w',
    ChunkManager_save w = (w', Ret tt)
    /\ trace w'
       = EvManagerSave :: rev (map EvChunkSave (modified_chunks (mgr w))) ++ trace w
    /\ saved (mgr w) (mgr w').
Proof.
  destruct (save_loop_trace (mgr w) (_chunks (mgr w)) w (saved_refl _))
    as (w1 & E & S1 & T & N).
  pose proof (getVersion_saved _ _ S1) as Hv.
  exists (log_event w1 EvManagerSave).
  assert (U : ChunkManager_save w
              = (save_loop (_chunks (mgr w)) ;;;
                 m' <- get_mgr ;;
                 massert 10417 (getVersion m' >=? getVersion (mgr w)) ;;;
                 emit EvManagerSave) w) by reflexivity.
  rewrite U. unfold bind at 1. rewrite E.
  unfold bind at 1. unfold get_mgr at 1. unfold bind at 1.
  assert (Hge : (getVersion (mgr w1) >=? getVersion (mgr w)) = true).
  { rewrite Z.geb_leb. apply Z.leb_le. exact Hv. }
  rewrite Hge. unfold massert, ret, emit.
  split; [reflexivity|]. split; [|exact S1].
  simpl. rewrite T. reflexivity.
Qed.

(** What the steps after [setShard] keep of the chunk [p]: its shard, its
    [_modified] flag once set, and the events already in the trace. *)
Definition move_kept (p : nat) (w w' : World) : Prop :=
  getShard (chunkAt (mgr w') p) = getShard (chunkAt (mgr w) p)
  /\ (_modified (chunkAt (mgr w) p) = true -> _modified (chunkAt (mgr w') p) = true)
  /\ _chunks (mgr w') = _chunks (mgr w)
  /\ exists evs, trace w' = evs ++ trace w.

Lemma move_kept_refl p w : move_kept p w w.
Proof.
  unfold move_kept. split; [reflexivity|]. split; [auto|]. split; [reflexivity|].
  exists []. reflexivity.
Qed.

Lemma move_kept_trans p w1 w2 w3 :
  move_kept p w1 w2 -> move_kept p w2 w3 -> move_kept p w1 w3.
Proof.
  intros (A1 & A2 & A3 & e1 & A4) (B1 & B2 & B3 & e2 & B4).
  unfold move_kept. split; [congruence|]. split; [auto|]. split; [congruence|].
  exists (e2 ++ e1). rewrite B4, A4, app_assoc. reflexivity.
Qed.

Lemma saved_move_kept p w w' evs :
  saved (mgr w) (mgr w') -> trace w' = evs ++ trace w -> move_kept p w w'.
Proof.
  intros S T. unfold move_kept. destruct S as (S1 & _ & _ & _ & S5).
  destruct (S5 p) as [(_ & _ & _ & Hs & Hm & _) _].
  split; [exact Hs|]. split; [intros H; rewrite Hm; exact H|].
  split; [exact S1|]. exists evs. exact T.
Qed.

Lemma markModified_move_kept p q w :
  move_kept p w (set_mgr w (set_chunk (mgr w) q (_markModified (chunkAt (mgr w) q)))).
Proof.
  unfold move_kept. simpl mgr. simpl trace.
  assert (H : getShard (chunkAt (set_chunk (mgr w) q (_markModified (chunkAt (mgr w) q))) p)
              = getShard (chunkAt (mgr w) p)
              /\ (_modified (chunkAt (mgr w) p) = true ->
                  _modified (chunkAt (set_chunk (mgr w) q (_markModified (chunkAt (mgr w) q))) p)
                  = true)).
  { destruct (Nat.eq_dec q p) as [->|Hne].
    - destruct (Nat.lt_ge_cases p (length (heap (mgr w)))) as [Hlt|Hge].
      + rewrite chunkAt_set_same by exact Hlt. split; [reflexivity|]. intros _. reflexivity.
      + rewrite set_chunk_beyond by exact Hge. split; [reflexivity|]. auto.
    - rewrite chunkAt_set_other by exact Hne. split; [reflexivity|]. auto. }
  destruct H as [H1 H2].
  split; [exact H1|]. split; [exact H2|]. split; [reflexivity|].
  exists []. reflexivity.
Qed.

Lemma mark_chunk_on_old_server_run from p w :
  exists w', mark_chunk_on_old_server from w = (w', Ret tt) /\ move_kept p w w'.
Proof.
  unfold mark_chunk_on_old_server, bind, get_mgr.
  destruct (findChunkOnServer (mgr w) from) as [q|].
  - unfold modify_chunk. eexists. split; [reflexivity|]. apply markModified_move_kept.
  - exists w. split; [reflexivity|]. apply move_kept_refl.
Qed.

Lemma newVersion_to_send_kept from oldVersion p w w' r :
  newVersion_to_send from oldVersion w = (w', r) ->
  move_kept p w w'
  /\ forall e, r = Throw e -> e = UserException 10168.
Proof.
  unfold newVersion_to_send. unfold bind at 1. unfold get_mgr at 1.
  destruct ((getVersion_of (mgr w) from =? 0) && (oldVersion >? 0)).
  - destruct (ChunkManager_save_run w) as (w1 & E & T & S).
    unfold bind. rewrite E. unfold ret. intros H. inversion H; subst. split.
    + apply (saved_move_kept p w w'
               (EvManagerSave :: rev (map EvChunkSave (modified_chunks (mgr w)))) S T).
    + intros e He. discriminate.
  - destruct (getVersion_of (mgr w) from <=? oldVersion).
    + unfold bind, uassert. destruct (getVersion_of (mgr w) from >? oldVersion);
        unfold ret, throw; intros H; inversion H; subst;
        (split; [apply move_kept_refl|]); intros e He; inversion He; reflexivity.
    + unfold ret. intros H. inversion H; subst. split; [apply move_kept_refl|].
      intros e He. discriminate.
Qed.

Lemma setShard_inv p s w w' r :
  setShard p s w = (w', r) ->
  (r = Throw AssertionException \/ r = Throw UndefinedBehaviour)
  \/ (r = Ret tt
      /\ _chunks (mgr w') = _chunks (mgr w) /\ trace w' = trace w
      /\ ((p < length (heap (mgr w)))%nat ->
          getShard (chunkAt (mgr w') p) = s /\ _modified (chunkAt (mgr w') p) = true)).
Proof.
  unfold setShard. unfold bind at 1. unfold modify_chunk at 1.
  unfold bind at 1. unfold _migrationNotification. unfold bind at 1.
  unfold get_mgr at 1.
  match goal with |- context [reloadRange ?a ?b ?c ?d] =>
    destruct (reloadRange a b c d) as [ranges o] end.
  unfold bind at 1, put_mgr at 1.
  destruct o; unfold ret, throw, modify_chunk.
  - intros H. inversion H; subst. clear H. right. split; [reflexivity|].
    simpl. split; [reflexivity|]. split; [reflexivity|]. intros Hp.
    unfold chunkAt. simpl.
    rewrite nth_list_set_same by (rewrite list_set_length; exact Hp).
    rewrite nth_list_set_same by exact Hp.
    split; reflexivity.
  - intros H. inversion H; subst. left. left. reflexivity.
  - intros H. inversion H; subst. left. right. reflexivity.
Qed.

(** X21. [moveAndCommit] does not undo a move that fails half way.  When
    [movechunk.start] has worked and the call then returns false (because
    [movechunk.finish] did not work) or raises assertion 10168, the chunk is
    left assigned to the shard [to] and marked modified, and the manager has
    been saved in between: [save] ran, and it wrote this chunk when the chunk
    is on the manager's list.  The call returns false without having changed
    anything only when [movechunk.start] itself fails. *)
Theorem moveAndCommit_keeps_failed_move (p : nat) (to : Shard) (w : World) :
  let c := chunkAt (mgr w) p in
  (Shard_eq (getShard c) to = false -> movechunk_start env = false ->
     moveAndCommit p to w = (log_event w (EvMoveChunkStart (getShard c) to), Ret false))
  /\ (movechunk_start env = true -> (p < length (heap (mgr w)))%nat ->
      forall w' r, moveAndCommit p to w = (w', r) ->
        r = Ret false \/ r = Throw (UserException 10168) ->
        getShard (chunkAt (mgr w') p) = to
        /\ _modified (chunkAt (mgr w') p) = true
        /\ In EvManagerSave (trace w')
        /\ (In p (_chunks (mgr w)) -> In (EvChunkSave p) (trace w'))
        /\ (r = Ret false -> movechunk_finish env = false)).
Proof.
  intros c. split.
  - intros Hne Hst. unfold moveAndCommit.
    unfold bind at 1, get_chunk at 1. fold c.
    unfold bind at 1, uassert at 1. rewrite Hne. cbn [negb]. unfold ret at 1.
    unfold bind at 1, get_mgr at 1. unfold bind at 1, emit at 1.
    rewrite Hst. reflexivity.
  - intros Hst Hp w' r H Hr. unfold moveAndCommit in H.
    unfold bind at 1, get_chunk at 1 in H. fold c in H.
    apply bind_inv in H. destruct H as [(u & w1 & H1 & H)|(e & H1 & ->)].
    2:{ unfold uassert in H1. destruct (negb (Shard_eq (getShard c) to));
          unfold ret, throw in H1; inversion H1; subst.
        destruct Hr as [Hr|Hr]; discriminate. }
    unfold uassert in H1. destruct (negb (Shard_eq (getShard c) to));
      unfold ret, throw in H1; inversion H1; subst w1. clear H1.
    unfold bind at 1, get_mgr at 1 in H. unfold bind at 1, emit at 1 in H.
    rewrite Hst in H. cbn [negb] in H.
    set (w0 := log_event w (EvMoveChunkStart (_shard c) to)) in H.
    apply bind_inv in H. destruct H as [(u2 & w2 & H2 & H)|(e & H2 & ->)].
    2:{ apply setShard_inv in H2. destruct H2 as [[X|X]|(X & _)];
          inversion X; subst; destruct Hr as [Hr|Hr]; discriminate. }
    apply setShard_inv in H2. destruct H2 as [[X|X]|(_ & C2 & T2 & K2)];
      try discriminate.
    destruct (K2 Hp) as [Sh2 Mo2]. clear K2.
    destruct (mark_chunk_on_old_server_run (_shard c) p w2) as (w3 & E3 & K3).
    unfold bind at 1 in H. rewrite E3 in H.
    destruct (ChunkManager_save_run w3) as (w4 & E4 & T4 & S4).
    unfold bind at 1 in H. rewrite E4 in H.
    assert (K4 : move_kept p w3 w4).
    { apply (saved_move_kept p w3 w4
               (EvManagerSave :: rev (map EvChunkSave (modified_chunks (mgr w3)))) S4 T4). }
    assert (Kfin : forall w5, move_kept p w4 w5 ->
              getShard (chunkAt (mgr w5) p) = to
              /\ _modified (chunkAt (mgr w5) p) = true
              /\ In EvManagerSave (trace w5)
              /\ (In p (_chunks (mgr w)) -> In (EvChunkSave p) (trace w5))).
    { intros w5 K5.
      pose proof (move_kept_trans p _ _ _ K3 K4) as K34.
      destruct K34 as (A1 & A2 & A3 & _).
      destruct K5 as (B1 & B2 & B3 & evs & B4).
      split; [congruence|]. split; [auto|]. split.
      - rewrite B4, T4. apply in_or_app. right. left. reflexivity.
      - intros Hin. rewrite B4, T4. apply in_or_app. right. right.
        apply in_or_app. left. rewrite <- in_rev. apply in_map.
        unfold modified_chunks. apply filter_In. split.
        + destruct K3 as (_ & _ & D3 & _). rewrite D3, C2. exact Hin.
        + destruct K3 as (_ & D2 & _). apply D2. exact Mo2. }
    apply bind_inv in H. destruct H as [(nv & w5 & H5 & H)|(e & H5 & ->)].
    2:{ apply (newVersion_to_send_kept _ _ p) in H5. destruct H5 as [K5 _].
        destruct (Kfin w' K5) as (F1 & F2 & F3 & F4).
        split; [exact F1|]. split; [exact F2|]. split; [exact F3|].
        split; [exact F4|]. intros X. discriminate. }
    apply (newVersion_to_send_kept _ _ p) in H5. destruct H5 as [K5 _].
    unfold bind at 1, emit at 1 in H.
    assert (K6 : move_kept p w4 (log_event w5 (EvMoveChunkFinish to nv))).
    { apply (move_kept_trans p _ _ _ K5). unfold move_kept. simpl.
      split; [reflexivity|]. split; [auto|]. split; [reflexivity|].
      exists [EvMoveChunkFinish to nv]. reflexivity. }
    destruct (movechunk_finish env) eqn:Ef; cbn [negb] in H.
    + unfold bind, emit, ret in H. inversion H; subst.
      destruct Hr as [Hr|Hr]; discriminate.
    + unfold ret in H. inversion H; subst.
      destruct (Kfin _ K6) as (F1 & F2 & F3 & F4).
      split; [exact F1|]. split; [exact F2|]. split; [exact F3|].
      split; [exact F4|]. intros _. reflexivity.
Qed.

(** *** Queries: [getChunksForQuery], [getShardsForQuery], [getAllShards] *)

(** [int ChunkManager::getChunksForQuery( chunks , query )]: the vector as
    the call leaves it and the value returned, [chunks.size()]. *)
Definition getChunksForQuery (m : ChunkManager) (chunks : list ChunkRange)
           (query : BSONObj) : Res (list ChunkRange * Z) :=
  match _getChunksForQuery m chunks query with
  | Throw e => Throw e
  | Ret (chunks1, ret) =>
      let chunks2 :=
        if ret =? -1 then chunks1 ++ map snd (_chunkRanges m) else chunks1 in
      Ret (chunks2, Z.of_nat (length chunks2))
  end.

(** A [set<Shard>] as the list of its elements, each once; the order in
    which [std::set] keeps them plays no part in what follows. *)
Definition shards_insert (set : list Shard) (s : Shard) : list Shard :=
  if existsb (Shard_eq s) set then set else set ++ [s].

(** [void ChunkManager::getAllShards( set<Shard>& all )] *)
Definition getAllShards (m : ChunkManager) (all : list Shard) : list Shard :=
  fold_left shards_insert (map (fun p => getShard (chunkAt m p)) (_chunks m)) all.

(** [int ChunkManager::getShardsForQuery( shards , query )] *)
Definition getShardsForQuery (m : ChunkManager) (shards : list Shard)
           (query : BSONObj) : Res (list Shard * Z) :=
  match _getChunksForQuery m [] query with
  | Throw e => Throw e
  | Ret (chunks, ret) =>
      let shards' :=
        if ret =? -1 then getAllShards m shards
        else fold_left shards_insert (map cr_shard chunks) shards in
      Ret (shards', Z.of_nat (length shards'))
  end.

Lemma getChunksForQuery_all m chunks query cs r :
  _getChunksForQuery m chunks query = Ret (cs, r) ->
  0 <= r \/ (r = -1 /\ cs = chunks).
Proof.
  unfold _getChunksForQuery.
  destruct (negb (String.eqb _ _)); [discriminate|].
  destruct (FieldRange_empty _); [intros H; inversion H; subst; left; lia|].
  destruct (FieldRange_equality _).
  { destruct (nth_error _ _) as [[? ?]|]; [|discriminate].
    intros H; inversion H; subst; left; lia. }
  destruct (negb (FieldRange_nontrivial _)).
  { intros H; inversion H; subst. right. auto. }
  destruct (intervals_loop _ _ _ _); [|discriminate].
  intros H; inversion H; subst. left. lia.
Qed.

(** X19. [getChunksForQuery] returns the size of the vector as it leaves
    it, never -1 and not the number of ranges it added: when the query does
    not bound the key, all the ranges of the index are appended in key order
    to what the vector held; otherwise the vector is as [_getChunksForQuery]
    left it.  It throws exactly when [_getChunksForQuery] does. *)
Theorem getChunksForQuery_result (m : ChunkManager) (chunks : list ChunkRange)
        (query : BSONObj) :
  (forall e, getChunksForQuery m chunks query = Throw e <->
             _getChunksForQuery m chunks query = Throw e)
  /\ (forall cs n, getChunksForQuery m chunks query = Ret (cs, n) ->
        n = Z.of_nat (length cs) /\ 0 <= n)
  /\ (forall cs1, _getChunksForQuery m chunks query = Ret (cs1, -1) ->
        getChunksForQuery m chunks query
        = Ret (chunks ++ map snd (_chunkRanges m),
               Z.of_nat (length chunks + length (_chunkRanges m))))
  /\ (forall cs1 r, _getChunksForQuery m chunks query = Ret (cs1, r) -> r <> -1 ->
        getChunksForQuery m chunks query = Ret (cs1, Z.of_nat (length cs1))).
Proof.
  unfold getChunksForQuery.
  destruct (_getChunksForQuery m chunks query) as [[cs1 r]|e] eqn:E.
  - split; [|split; [|split]].
    + intros e. split; intros H; discriminate.
    + intros cs n H. inversion H; subst. split; [reflexivity|lia].
    + intros cs1' H. inversion H; subst.
      destruct (getChunksForQuery_all _ _ _ _ _ E) as [X|[_ ->]]; [lia|].
      simpl. rewrite length_app, length_map. reflexivity.
    + intros cs1' r' H Hr. inversion H; subst.
      destruct (r' =? -1) eqn:Er; [apply Z.eqb_eq in Er; contradiction|].
      reflexivity.
  - split; [|split; [|split]].
    + intros e'. split; intros H; exact H.
    + intros cs n H. discriminate.
    + intros cs1 H. discriminate.
    + intros cs1 r H. discriminate.
Qed.

Lemma existsb_Shard_eq s set : existsb (Shard_eq s) set = true <-> In s set.
Proof.
  rewrite existsb_exists. split.
  - intros (x & Hin & Heq). apply String.eqb_eq in Heq. subst. exact Hin.
  - intros Hin. exists s. split; [exact Hin|apply String.eqb_refl].
Qed.

Lemma shards_insert_spec set s :
  NoDup set ->
  NoDup (shards_insert set s)
  /\ forall x, In x (shards_insert set s) <-> In x set \/ x = s.
Proof.
  intros Hn. unfold shards_insert.
  destruct (existsb (Shard_eq s) set) eqn:E.
  - apply existsb_Shard_eq in E. split; [exact Hn|].
    intros x. split; [auto|]. intros [H| ->]; auto.
  - split.
    + apply NoDup_app; [exact Hn|constructor; [intros []|constructor]|].
      intros x Hx [<-|[]].
      apply existsb_Shard_eq in Hx. rewrite Hx in E. discriminate.
    + intros x. rewrite in_app_iff. simpl. split.
      * intros [H|[H|[]]]; auto.
      * intros [H|H]; auto.
Qed.

Lemma shards_fold_spec l : forall set,
  NoDup set ->
  NoDup (fold_left shards_insert l set)
  /\ forall x, In x (fold_left shards_insert l set) <-> In x set \/ In x l.
Proof.
  induction l as [|s l IH]; intros set Hn; simpl.
  - split; [exact Hn|]. intros x. split; [auto|]. intros [H|[]]. exact H.
  - destruct (shards_insert_spec set s Hn) as [Hn1 Hin1].
    destruct (IH _ Hn1) as [Hn2 Hin2]. split; [exact Hn2|].
    intros x. rewrite Hin2, Hin1. split.
    + intros [[H|H]|H]; auto.
    + intros [H|[H|H]]; auto.
Qed.

(** X20. [getShardsForQuery] adds to the set the shards of the ranges that
    [_getChunksForQuery] finds for the query, or, when the query does not
    bound the key, the shards of all the chunks; what the set held stays in
    it, no shard is in it twice, and the value returned is the size of the
    set, the shards it held before included. *)
Theorem getShardsForQuery_result (m : ChunkManager) (shards : list Shard)
        (query : BSONObj) :
  NoDup shards ->
  (forall e, getShardsForQuery m shards query = Throw e <->
             _getChunksForQuery m [] query = Throw e)
  /\ (forall ss n, getShardsForQuery m shards query = Ret (ss, n) ->
        NoDup ss /\ n = Z.of_nat (length ss) /\ (forall s, In s shards -> In s ss)
        /\ exists cs r, _getChunksForQuery m [] query = Ret (cs, r)
             /\ (r = -1 ->
                 forall s, In s ss <->
                   In s shards \/ exists p, In p (_chunks m) /\ getShard (chunkAt m p) = s)
             /\ (r <> -1 ->
                 forall s, In s ss <->
                   In s shards \/ exists c, In c cs /\ cr_shard c = s)).
Proof.
  intros Hn. unfold getShardsForQuery.
  destruct (_getChunksForQuery m [] query) as [[cs r]|e] eqn:E.
  - split; [intros e; split; intros H; discriminate|].
    intros ss n H. inversion H; subst n. clear H.
    destruct (r =? -1) eqn:Er.
    + apply Z.eqb_eq in Er. subst ss. unfold getAllShards.
      destruct (shards_fold_spec (map (fun p => getShard (chunkAt m p)) (_chunks m))
                  shards Hn) as [Hn' Hin].
      split; [exact Hn'|]. split; [reflexivity|]. split.
      { intros s Hs. apply Hin. auto. }
      exists cs, r. split; [reflexivity|]. split.
      * intros _ s. rewrite Hin. rewrite in_map_iff. split.
        -- intros [H|(p & Hp & Hin')]; [auto|right; exists p; auto].
        -- intros [H|(p & Hp & Hin')]; [auto|right; exists p; auto].
      * intros Hne. contradiction.
    + apply Z.eqb_neq in Er. subst ss.
      destruct (shards_fold_spec (map cr_shard cs) shards Hn) as [Hn' Hin].
      split; [exact Hn'|]. split; [reflexivity|]. split.
      { intros s Hs. apply Hin. auto. }
      exists cs, r. split; [reflexivity|]. split.
      * intros Heq. contradiction.
      * intros _ s. rewrite Hin. rewrite in_map_iff. split.
        -- intros [H|(c & Hc & Hin')]; [auto|right; exists c; auto].
        -- intros [H|(c & Hc & Hin')]; [auto|right; exists c; auto].
  - split; [intros e'; split; intros H; inversion H; reflexivity|].
    intros ss n H. discriminate.
Qed.

(** *** [ChunkManager::drop] *)

Section Drop.
(** [Shard::operator<], which orders the keys of [map<Shard,ShardChunkVersion>]. *)
Variable Shard_lt : Shard -> Shard -> bool.
(** [configServer.allUp()] *)
Variable allUp : bool.
(** [_config->removeSharding( _ns )] *)
Variable removeSharding : bool.
(** [setShardVersion( conn , _ns , 0 , true , res )] on the given shard. *)
Variable setShardVersion_ok : Shard -> bool.

(** The commands [drop] sends, in the order in which it sends them. *)
Inductive DropOp : Type :=
| OpLock (s : Shard)
| OpDropCollection (s : Shard)
| OpRemoveSharding
| OpConfigSave
| OpRemoveChunks
| OpResetVersion (s : Shard).

(** [seen], with its keys in increasing order; the value is whether the
    version stored is non-zero.  Two keys are the same key when neither is
    less than the other. *)
Definition SeenMap : Type := list (Shard * bool).

Fixpoint seen_find (seen : SeenMap) (s : Shard) : option bool :=
  match seen with
  | [] => None
  | (k, v) :: rest =>
      if Shard_lt k s then seen_find rest s
      else if Shard_lt s k then None
      else Some v
  end.

Fixpoint seen_set (seen : SeenMap) (s : Shard) (v : bool) : SeenMap :=
  match seen with
  | [] => [(s, v)]
  | (k, x) :: rest =>
      if Shard_lt k s then (k, x) :: seen_set rest s v
      else if Shard_lt s k then (s, v) :: (k, x) :: rest
      else (k, v) :: rest
  end.

(** "lock all shards so no one can do a split/migrate": [seen[shard]] makes
    an entry with version 0 when there is none; the loop ends at the first
    shard that cannot be locked (the flag is then [false]). *)
Fixpoint drop_lock_loop (m : ChunkManager) (l : list nat) (seen : SeenMap)
         (ops : list DropOp) : SeenMap * list DropOp * bool :=
  match l with
  | [] => (seen, ops, true)
  | p :: l' =>
      let s := getShard (chunkAt m p) in
      match seen_find seen s with
      | Some true => drop_lock_loop m l' seen ops
      | _ =>
          let version := lockNamespaceOnServer env s in
          let seen' := seen_set seen s version in
          if version then drop_lock_loop m l' seen' (ops ++ [OpLock s])
          else (seen', ops ++ [OpLock s], false)
      end
  end.

(** The last loop: the first shard that refuses the version 0 ends it. *)
Fixpoint drop_reset_loop (l : list Shard) (ops : list DropOp) : list DropOp * bool :=
  match l with
  | [] => (ops, true)
  | s :: l' =>
      if setShardVersion_ok s then drop_reset_loop l' (ops ++ [OpResetVersion s])
      else (ops ++ [OpResetVersion s], false)
  end.

(** [void ChunkManager::drop()]: the manager as the call leaves it, the
    commands sent, and how the call ends. *)
Definition drop (m : ChunkManager) : ChunkManager * list DropOp * Res unit :=
  if negb allUp then (m, [], Throw (UserException 10174))
  else
    let '(seen, ops, locked) := drop_lock_loop m (_chunks m) [] [] in
    if negb locked then (m, ops, Throw (UserException 10175))
    else
      let m1 := mkChunkManager (heap m) [] [] [] (_sequenceNumber m) in
      let ops1 := ops ++ map (fun e => OpDropCollection (fst e)) seen in
      if negb removeSharding
      then (m1, ops1 ++ [OpRemoveSharding], Throw (UserException 10176))
      else
        let ops2 := ops1 ++ [OpRemoveSharding; OpConfigSave; OpRemoveChunks] in
        let '(ops3, done) := drop_reset_loop (map fst seen) ops2 in
        (m1, ops3, if done then Ret tt else Throw (UserException 8071)).

Definition lock_ok (s : Shard) : Prop := lockNamespaceOnServer env s = true.

Lemma drop_lock_loop_spec m l : forall seen ops seen' ops' locked,
  drop_lock_loop m l seen ops = (seen', ops', locked) ->
  exists locks,
    ops' = ops ++ map OpLock locks
    /\ (forall s, In s locks -> exists p, In p l /\ getShard (chunkAt m p) = s)
    /\ (locked = true -> Forall lock_ok locks)
    /\ (locked = false ->
        exists l0 s, locks = l0 ++ [s] /\ Forall lock_ok l0
                     /\ lockNamespaceOnServer env s = false).
Proof.
  induction l as [|p l IH]; intros seen ops seen' ops' locked H; simpl in H.
  - inversion H; subst. exists []. simpl. rewrite app_nil_r.
    split; [reflexivity|]. split; [intros s []|]. split; [constructor|discriminate].
  - assert (Hstep :
      (drop_lock_loop m l seen ops = (seen', ops', locked))
      \/ (lockNamespaceOnServer env (getShard (chunkAt m p)) = true
          /\ drop_lock_loop m l (seen_set seen (getShard (chunkAt m p)) true)
               (ops ++ [OpLock (getShard (chunkAt m p))]) = (seen', ops', locked))
      \/ (lockNamespaceOnServer env (getShard (chunkAt m p)) = false
          /\ ops' = ops ++ [OpLock (getShard (chunkAt m p))] /\ locked = false)).
    { destruct (seen_find seen (getShard (chunkAt m p))) as [[|]|];
        [left; exact H| | ];
        (destruct (lockNamespaceOnServer env (getShard (chunkAt m p))) eqn:E;
         [right; left; split; [reflexivity|exact H]
         |right; right; inversion H; subst; auto]). }
    destruct Hstep as [H1|[[E H1]|(E & -> & ->)]].
    + destruct (IH _ _ _ _ _ H1) as (locks & A & B & C & D).
      exists locks. split; [exact A|]. split; [|split; [exact C|exact D]].
      intros s Hs. destruct (B s Hs) as (q & Hq & Hq'). exists q. split; [right; exact Hq|exact Hq'].
    + destruct (IH _ _ _ _ _ H1) as (locks & A & B & C & D).
      exists (getShard (chunkAt m p) :: locks).
      split; [rewrite A, <- app_assoc; reflexivity|]. split; [|split].
      * intros s [<-|Hs]; [exists p; split; [left; reflexivity|reflexivity]|].
        destruct (B s Hs) as (q & Hq & Hq'). exists q. split; [right; exact Hq|exact Hq'].
      * intros Hl. constructor; [exact E|apply C; exact Hl].
      * intros Hl. destruct (D Hl) as (l0 & s & -> & F & G).
        exists (getShard (chunkAt m p) :: l0), s.
        split; [reflexivity|]. split; [constructor; [exact E|exact F]|exact G].
    + exists [getShard (chunkAt m p)]. split; [reflexivity|]. split; [|split].
      * intros s [<-|[]]. exists p. split; [left; reflexivity|reflexivity].
      * discriminate.
      * intros _. exists [], (getShard (chunkAt m p)).
        split; [reflexivity|]. split; [constructor|exact E].
Qed.

Lemma drop_reset_loop_spec l : forall ops ops' done,
  drop_reset_loop l ops = (ops', done) ->
  exists resets,
    ops' = ops ++ map OpResetVersion resets
    /\ (done = true -> resets = l /\ Forall (fun s => setShardVersion_ok s = true) l)
    /\ (done = false ->
        exists pre s post, l = pre ++ s :: post /\ resets = pre ++ [s]
          /\ Forall (fun s => setShardVersion_ok s = true) pre
          /\ setShardVersion_ok s = false).
Proof.
  induction l as [|s l IH]; intros ops ops' done H; simpl in H.
  - inversion H; subst. exists []. simpl. rewrite app_nil_r.
    split; [reflexivity|]. split; [intros _; split; [reflexivity|constructor]|discriminate].
  - destruct (setShardVersion_ok s) eqn:E.
    + destruct (IH _ _ _ H) as (resets & A & B & C).
      exists (s :: resets). split; [rewrite A, <- app_assoc; reflexivity|]. split.
      * intros Hd. destruct (B Hd) as [-> F]. split; [reflexivity|].
        constructor; [exact E|exact F].
      * intros Hd. destruct (C Hd) as (pre & s' & post & -> & -> & F & G).
        exists (s :: pre), s', post. split; [reflexivity|]. split; [reflexivity|].
        split; [constructor; [exact E|exact F]|exact G].
    + inversion H; subst. exists [s]. split; [reflexivity|]. split; [discriminate|].
      intros _. exists [], s, l. split; [reflexivity|]. split; [reflexivity|].
      split; [constructor|exact E].
Qed.

Lemma seen_set_keys seen s v :
  forall k, In k (map fst (seen_set seen s v)) -> k = s \/ In k (map fst seen).
Proof.
  induction seen as [|[k0 x] rest IH]; intros k; simpl.
  - intros [<-|[]]. left. reflexivity.
  - destruct (Shard_lt k0 s).
    + simpl. intros [<-|H]; [right; left; reflexivity|].
      destruct (IH k H) as [->|H']; [left; reflexivity|right; right; exact H'].
    + destruct (Shard_lt s k0); simpl.
      * intros [<-|[<-|H]]; [left; reflexivity|right; left; reflexivity|right; right; exact H].
      * intros [<-|H]; [right; left; reflexivity|right; right; exact H].
Qed.

Lemma drop_lock_loop_keys m l : forall seen ops seen' ops' locked,
  drop_lock_loop m l seen ops = (seen', ops', locked) ->
  forall k, In k (map fst seen') ->
    In k (map fst seen) \/ exists p, In p l /\ getShard (chunkAt m p) = k.
Proof.
  induction l as [|p l IH]; intros seen ops seen' ops' locked H k Hk; simpl in H.
  - inversion H; subst. left. exact Hk.
  - assert (Hstep :
      (drop_lock_loop m l seen ops = (seen', ops', locked))
      \/ (exists v, drop_lock_loop m l (seen_set seen (getShard (chunkAt m p)) v)
               (ops ++ [OpLock (getShard (chunkAt m p))]) = (seen', ops', locked))
      \/ (exists v, seen' = seen_set seen (getShard (chunkAt m p)) v)).
    { destruct (seen_find seen (getShard (chunkAt m p))) as [[|]|];
        [left; exact H| | ];
        (destruct (lockNamespaceOnServer env (getShard (chunkAt m p))) eqn:E;
         [right; left; exists true; exact H
         |right; right; exists false; inversion H; subst; reflexivity]). }
    destruct Hstep as [H1|[[v H1]|[v ->]]].
    + destruct (IH _ _ _ _ _ H1 k Hk) as [X|(q & Hq & Hq')]; [left; exact X|].
      right. exists q. split; [right; exact Hq|exact Hq'].
    + destruct (IH _ _ _ _ _ H1 k Hk) as [X|(q & Hq & Hq')].
      * destruct (seen_set_keys _ _ _ _ X) as [->|X']; [|left; exact X'].
        right. exists p. split; [left; reflexivity|reflexivity].
      * right. exists q. split; [right; exact Hq|exact Hq'].
    + destruct (seen_set_keys _ _ _ _ Hk) as [->|X']; [|left; exact X'].
      right. exists p. split; [left; reflexivity|reflexivity].
Qed.

(** X22. [drop] undoes nothing.  With the config servers not all up it
    fails with 10174 before doing anything.  Otherwise it locks shards that
    hold chunks, and the first lock that fails ends it with 10175: the
    manager is as before and the locks already taken stay (no command other
    than the locks was sent).  Once all locks are taken, the manager's chunk
    list, chunk map and range index are emptied and the shards' collections
    dropped before anything else can fail: 10176 comes after that, with the
    chunk documents still on the config server, and 8071 after the chunk
    documents are removed, at the first shard that refuses version 0. *)
Theorem drop_outcome (m : ChunkManager) :
  (allUp = false -> drop m = (m, [], Throw (UserException 10174)))
  /\ (allUp = true ->
      exists locks shards,
        (forall s, In s locks \/ In s shards ->
           exists p, In p (_chunks m) /\ getShard (chunkAt m p) = s)
        /\ ((exists l0 s, locks = l0 ++ [s] /\ Forall lock_ok l0
               /\ lockNamespaceOnServer env s = false
               /\ drop m = (m, map OpLock locks, Throw (UserException 10175)))
            \/ (Forall lock_ok locks
                /\ let wiped := mkChunkManager (heap m) [] [] [] (_sequenceNumber m) in
                   let dropped := map OpLock locks ++ map OpDropCollection shards in
                   (removeSharding = false ->
                      drop m = (wiped, dropped ++ [OpRemoveSharding],
                                Throw (UserException 10176)))
                   /\ (removeSharding = true ->
                       (Forall (fun s => setShardVersion_ok s = true) shards
                        /\ drop m = (wiped,
                                     (dropped ++ [OpRemoveSharding; OpConfigSave; OpRemoveChunks])
                                     ++ map OpResetVersion shards,
                                     Ret tt))
                       \/ (exists pre s post, shards = pre ++ s :: post
                             /\ Forall (fun s => setShardVersion_ok s = true) pre
                             /\ setShardVersion_ok s = false
                             /\ drop m = (wiped,
                                          (dropped ++ [OpRemoveSharding; OpConfigSave; OpRemoveChunks])
                                          ++ map OpResetVersion (pre ++ [s]),
                                          Throw (UserException 8071))))))).
Proof.
  split.
  - intros H. unfold drop. rewrite H. reflexivity.
  - intros H. unfold drop. rewrite H. cbn [negb].
    destruct (drop_lock_loop m (_chunks m) [] []) as [[seen ops] locked] eqn:E.
    destruct (drop_lock_loop_spec _ _ _ _ _ _ _ E) as (locks & A & B & C & D).
    pose proof (drop_lock_loop_keys _ _ _ _ _ _ _ E) as K.
    simpl in A. subst ops.
    exists locks, (map fst seen). split.
    { intros s [Hs|Hs]; [apply B; exact Hs|].
      destruct (K s Hs) as [[]|X]. exact X. }
    destruct locked; cbn [negb].
    + right. split; [apply C; reflexivity|]. cbv zeta. rewrite map_map. split.
      * intros Hr. rewrite Hr. reflexivity.
      * intros Hr. rewrite Hr. cbn [negb].
        destruct (drop_reset_loop (map fst seen) _) as [ops3 done] eqn:E3.
        destruct (drop_reset_loop_spec _ _ _ _ E3) as (resets & A3 & B3 & C3).
        subst ops3. destruct done.
        -- left. destruct (B3 eq_refl) as [-> F]. split; [exact F|reflexivity].
        -- right. destruct (C3 eq_refl) as (pre & s & post & E4 & -> & F & G).
           exists pre, s, post. split; [exact E4|]. split; [exact F|].
           split; [exact G|reflexivity].
    + left. destruct (D eq_refl) as (l0 & s & -> & F & G).
      exists l0, s. split; [reflexivity|]. split; [exact F|]. split; [exact G|reflexivity].
Qed.

Section DropOrdered.
(** [Shard::operator<] is a strict total order. *)
Hypothesis Shard_lt_irrefl : forall a, Shard_lt a a = false.
Hypothesis Shard_lt_trans :
  forall a b c, Shard_lt a b = true -> Shard_lt b c = true -> Shard_lt a c = true.
Hypothesis Shard_lt_total :
  forall a b, Shard_lt a b = false -> Shard_lt b a = false -> a = b.

Definition seen_sorted (seen : SeenMap) : Prop :=
  StronglySorted (fun a b => Shard_lt a b = true) (map fst seen).

Lemma seen_sorted_head k x rest s v :
  seen_sorted ((k, x) :: rest) -> In (s, v) rest -> Shard_lt k s = true.
Proof.
  intros H Hin. unfold seen_sorted in H. simpl in H.
  apply StronglySorted_inv in H. destruct H as [_ H].
  rewrite Forall_forall in H. apply H.
  change s with (fst (s, v)). apply in_map. exact Hin.
Qed.

Lemma seen_sorted_tail e rest : seen_sorted (e :: rest) -> seen_sorted rest.
Proof.
  unfold seen_sorted. simpl. intros H. apply StronglySorted_inv in H. apply H.
Qed.

Lemma seen_find_In seen s v :
  seen_sorted seen -> (seen_find seen s = Some v <-> In (s, v) seen).
Proof.
  induction seen as [|[k x] rest IH]; intros Hs; simpl.
  - split; [discriminate|intros []].
  - pose proof (seen_sorted_tail _ _ Hs) as Ht.
    destruct (Shard_lt k s) eqn:E1.
    + rewrite (IH Ht). split; [auto|]. intros [H|H]; [|exact H].
      inversion H; subst. rewrite Shard_lt_irrefl in E1. discriminate.
    + destruct (Shard_lt s k) eqn:E2.
      * split; [discriminate|]. intros [H|H].
        -- inversion H; subst. rewrite Shard_lt_irrefl in E2. discriminate.
        -- rewrite (seen_sorted_head _ _ _ _ _ Hs H) in E1. discriminate.
      * pose proof (Shard_lt_total _ _ E1 E2) as ->. split.
        -- intros H. inversion H; subst. left. reflexivity.
        -- intros [H|H]; [inversion H; reflexivity|].
           pose proof (seen_sorted_head _ _ _ _ _ Hs H) as X.
           rewrite Shard_lt_irrefl in X. discriminate.
Qed.

Lemma seen_set_In seen s v :
  seen_sorted seen ->
  forall k x, In (k, x) (seen_set seen s v)
              <-> (k = s /\ x = v) \/ (k <> s /\ In (k, x) seen).
Proof.
  induction seen as [|[k0 x0] rest IH]; intros Hs k x; simpl.
  - split.
    + intros [H|[]]. inversion H; subst. left. auto.
    + intros [[-> ->]|[_ []]]. left. reflexivity.
  - pose proof (seen_sorted_tail _ _ Hs) as Ht.
    destruct (Shard_lt k0 s) eqn:E1.
    + simpl. rewrite (IH Ht). split.
      * intros [H|[H|[H1 H2]]].
        -- inversion H; subst. right. split; [|left; reflexivity].
           intros ->. rewrite Shard_lt_irrefl in E1. discriminate.
        -- left. exact H.
        -- right. split; [exact H1|right; exact H2].
      * intros [H|[H1 [H2|H2]]].
        -- right. left. exact H.
        -- left. exact H2.
        -- right. right. split; assumption.
    + destruct (Shard_lt s k0) eqn:E2; simpl.
      * split.
        -- intros [H|[H|H]].
           ++ inversion H; subst. left. auto.
           ++ inversion H; subst. right. split; [|left; reflexivity].
              intros ->. rewrite Shard_lt_irrefl in E2. discriminate.
           ++ right. split; [|right; exact H].
              intros ->. rewrite (seen_sorted_head _ _ _ _ _ Hs H) in E1. discriminate.
        -- intros [[-> ->]|[H1 [H2|H2]]].
           ++ left. reflexivity.
           ++ right. left. exact H2.
           ++ right. right. exact H2.
      * pose proof (Shard_lt_total _ _ E1 E2) as ->. split.
        -- intros [H|H].
           ++ inversion H; subst. left. auto.
           ++ right. split; [|right; exact H].
              intros ->. pose proof (seen_sorted_head _ _ _ _ _ Hs H) as X.
              rewrite Shard_lt_irrefl in X. discriminate.
        -- intros [[-> ->]|[H1 [H2|H2]]].
           ++ left. reflexivity.
           ++ inversion H2; subst. contradiction.
           ++ right. exact H2.
Qed.

Lemma seen_set_sorted seen s v : seen_sorted seen -> seen_sorted (seen_set seen s v).
Proof.
  induction seen as [|[k0 x0] rest IH]; intros Hs; simpl.
  - unfold seen_sorted. simpl. constructor; constructor.
  - pose proof (seen_sorted_tail _ _ Hs) as Ht.
    destruct (Shard_lt k0 s) eqn:E1.
    + unfold seen_sorted. simpl. constructor; [apply IH; exact Ht|].
      apply Forall_forall. intros k Hk. apply in_map_iff in Hk.
      destruct Hk as ([k' x'] & <- & Hin). simpl.
      apply (seen_set_In rest s v Ht) in Hin.
      destruct Hin as [[-> _]|[_ Hin]]; [exact E1|].
      apply (seen_sorted_head _ _ _ _ _ Hs Hin).
    + destruct (Shard_lt s k0) eqn:E2.
      * unfold seen_sorted. simpl. constructor; [exact Hs|].
        constructor; [exact E2|].
        apply Forall_forall. intros k Hk. apply in_map_iff in Hk.
        destruct Hk as ([k' x'] & <- & Hin). simpl.
        apply (Shard_lt_trans _ _ _ E2). apply (seen_sorted_head _ _ _ _ _ Hs Hin).
      * exact Hs.
Qed.

Lemma seen_sorted_NoDup seen : seen_sorted seen -> NoDup (map fst seen).
Proof.
  unfold seen_sorted. induction (map fst seen) as [|k l IH]; intros H.
  - constructor.
  - apply StronglySorted_inv in H. destruct H as [H1 H2]. constructor; [|apply IH; exact H1].
    intros Hin. rewrite Forall_forall in H2. specialize (H2 k Hin).
    rewrite Shard_lt_irrefl in H2. discriminate.
Qed.

(** What the lock loop keeps: the entries of [seen] are the shards locked
    so far, each with a version. *)
Definition seen_locks (seen : SeenMap) (locks : list Shard) : Prop :=
  seen_sorted seen /\ NoDup locks
  /\ forall k x, In (k, x) seen <-> (x = true /\ In k locks).

Lemma drop_lock_loop_once m l : forall seen ops locks0 seen' ops',
  seen_locks seen locks0 ->
  (forall p, In p l -> lock_ok (getShard (chunkAt m p))) ->
  drop_lock_loop m l seen ops = (seen', ops', true) ->
  exists locks,
    ops' = ops ++ map OpLock locks
    /\ seen_locks seen' (locks0 ++ locks)
    /\ forall s, In s (locks0 ++ locks)
                 <-> In s locks0 \/ exists p, In p l /\ getShard (chunkAt m p) = s.
Proof.
  induction l as [|p l IH]; intros seen ops locks0 seen' ops' Hinv Hok H; simpl in H.
  - inversion H; subst. exists []. simpl. rewrite !app_nil_r.
    split; [reflexivity|]. split; [exact Hinv|].
    intros s. split; [auto|]. intros [X|(q & [] & _)]. exact X.
  - destruct Hinv as (Hs & Hn & Hi).
    set (s0 := getShard (chunkAt m p)) in *.
    assert (Hl : lockNamespaceOnServer env s0 = true) by (apply Hok; left; reflexivity).
    assert (Hok' : forall q, In q l -> lock_ok (getShard (chunkAt m q))).
    { intros q Hq. apply Hok. right. exact Hq. }
    destruct (seen_find seen s0) as [[|]|] eqn:Ef.
    + apply (seen_find_In seen s0 true Hs) in Ef. apply Hi in Ef. destruct Ef as [_ Hin].
      destruct (IH _ _ locks0 _ _ (conj Hs (conj Hn Hi)) Hok' H) as (locks & A & B & C).
      exists locks. split; [exact A|]. split; [exact B|].
      intros s. rewrite C. split.
      * intros [X|(q & Hq & Hq')]; [left; exact X|right; exists q; split; [right; exact Hq|exact Hq']].
      * intros [X|(q & [<-|Hq] & Hq')]; [left; exact X| |right; exists q; auto].
        left. rewrite <- Hq'. exact Hin.
    + apply (seen_find_In seen s0 false Hs) in Ef. apply Hi in Ef.
      destruct Ef as [X _]. discriminate.
    + rewrite Hl in H.
      assert (Hnot : ~ In s0 locks0).
      { intros Hin. assert (X : In (s0, true) seen) by (apply Hi; auto).
        apply (seen_find_In seen s0 true Hs) in X. rewrite X in Ef. discriminate. }
      assert (Hinv' : seen_locks (seen_set seen s0 true) (locks0 ++ [s0])).
      { split; [apply seen_set_sorted; exact Hs|]. split.
        - apply NoDup_app; [exact Hn|constructor; [intros []|constructor]|].
          intros x Hx [<-|[]]. exact (Hnot Hx).
        - intros k x. rewrite (seen_set_In seen s0 true Hs), in_app_iff. rewrite Hi. simpl.
          split.
          + intros [[-> ->]|[Hne [Hx Hin]]]; [split; [reflexivity|right; left; reflexivity]|].
            split; [exact Hx|left; exact Hin].
          + intros [Hx [Hin|[<-|[]]]].
            * right. split; [|split; [exact Hx|exact Hin]].
              intros ->. exact (Hnot Hin).
            * left. split; [reflexivity|exact Hx]. }
      destruct (IH _ _ (locks0 ++ [s0]) _ _ Hinv' Hok' H) as (locks & A & B & C).
      exists (s0 :: locks).
      split; [rewrite A, <- app_assoc; reflexivity|].
      assert (E : locks0 ++ s0 :: locks = (locks0 ++ [s0]) ++ locks)
        by (rewrite <- app_assoc; reflexivity).
      rewrite E. split; [exact B|].
      intros s. rewrite C, in_app_iff. simpl. split.
      * intros [[X|[<-|[]]]|(q & Hq & Hq')].
        -- left. exact X.
        -- right. exists p. split; [left; reflexivity|reflexivity].
        -- right. exists q. split; [right; exact Hq|exact Hq'].
      * intros [X|(q & [<-|Hq] & Hq')].
        -- left. left. exact X.
        -- left. right. left. exact Hq'.
        -- right. exists q. auto.
Qed.

(** X23. A [drop] that meets no refusal deals with each shard that holds a
    chunk exactly once: it locks each of these shards once, then drops the
    collection on each, in the order of the shards, removes the sharding
    data and the chunk documents, and sets version 0 on each, in the same
    order; the manager is left without chunks. *)
Theorem drop_handles_each_shard_once (m : ChunkManager) :
  allUp = true -> removeSharding = true ->
  (forall p, In p (_chunks m) ->
     lockNamespaceOnServer env (getShard (chunkAt m p)) = true
     /\ setShardVersion_ok (getShard (chunkAt m p)) = true) ->
  exists locks shards,
    NoDup locks /\ NoDup shards
    /\ StronglySorted (fun a b => Shard_lt a b = true) shards
    /\ (forall s, In s locks <-> exists p, In p (_chunks m) /\ getShard (chunkAt m p) = s)
    /\ (forall s, In s shards <-> In s locks)
    /\ drop m
       = (mkChunkManager (heap m) [] [] [] (_sequenceNumber m),
          ((map OpLock locks ++ map OpDropCollection shards)
           ++ [OpRemoveSharding; OpConfigSave; OpRemoveChunks])
          ++ map OpResetVersion shards,
          Ret tt).
Proof.
  intros Hup Hrm Hall. unfold drop. rewrite Hup, Hrm. cbn [negb].
  destruct (drop_lock_loop m (_chunks m) [] []) as [[seen ops] locked] eqn:E.
  assert (Hlocked : locked = true).
  { destruct locked; [reflexivity|].
    destruct (drop_lock_loop_spec _ _ _ _ _ _ _ E) as (locks & _ & B & _ & D).
    destruct (D eq_refl) as (l0 & s & -> & _ & G).
    destruct (B s) as (p & Hp & Hp'); [apply in_or_app; right; left; reflexivity|].
    destruct (Hall p Hp) as [X _]. rewrite Hp' in X. rewrite X in G. discriminate. }
  subst locked. cbn [negb].
  assert (Hinv0 : seen_locks [] []).
  { split; [constructor|]. split; [constructor|].
    intros k x. split; [intros []|intros [_ []]]. }
  assert (Hok : forall p, In p (_chunks m) -> lock_ok (getShard (chunkAt m p))).
  { intros p Hp. apply Hall. exact Hp. }
  destruct (drop_lock_loop_once m _ _ _ _ _ _ Hinv0 Hok E) as (locks & A & B & C).
  simpl in A, B, C. subst ops. destruct B as (Hs & Hn & Hi).
  assert (Hkeys : forall s, In s (map fst seen) <-> In s locks).
  { intros s. rewrite in_map_iff. split.
    - intros ([k x] & <- & Hin). apply Hi in Hin. apply Hin.
    - intros Hin. exists (s, true). split; [reflexivity|]. apply Hi. auto. }
  assert (Hmem : forall s, In s locks
                           <-> exists p, In p (_chunks m) /\ getShard (chunkAt m p) = s).
  { intros s. rewrite C. split; [intros [[]|X]; exact X|intros X; right; exact X]. }
  destruct (drop_reset_loop (map fst seen) _) as [ops3 done] eqn:E3.
  destruct (drop_reset_loop_spec _ _ _ _ E3) as (resets & A3 & B3 & C3).
  assert (Hdone : done = true).
  { destruct done; [reflexivity|].
    destruct (C3 eq_refl) as (pre & s & post & E4 & _ & _ & G).
    assert (Hin : In s (map fst seen)) by (rewrite E4; apply in_or_app; right; left; reflexivity).
    apply Hkeys in Hin. apply Hmem in Hin. destruct Hin as (p & Hp & Hp').
    destruct (Hall p Hp) as [_ X]. rewrite Hp' in X. rewrite X in G. discriminate. }
  subst done. destruct (B3 eq_refl) as [-> _]. subst ops3.
  exists locks, (map fst seen).
  split; [exact Hn|]. split; [apply seen_sorted_NoDup; exact Hs|].
  split; [exact Hs|]. split; [exact Hmem|]. split; [exact Hkeys|].
  rewrite (map_map fst OpDropCollection). reflexivity.
Qed.

End DropOrdered.

End Drop.

(** *** [reloadRange] against [reloadAll] *)

Section RangeIndex.

(** What the proof asks of the comparators: [BSONObjCmp] is a strict order
    and [operator==] holds between an object and itself. *)
Hypothesis cmp_irrefl : forall a, BSONObjCmp a a = false.
Hypothesis cmp_trans : forall a b c,
  BSONObjCmp a b = true -> BSONObjCmp b c = true -> BSONObjCmp a c = true.
Hypothesis objEq_refl : forall a, objEq a a = true.

(** Propositional steps, without the parts of the manager that play no role
    here. *)
Ltac taut :=
  try clear woCompare; try clear skCompare; try clear env; try clear ns;
  try clear keyPattern; try clear globalMin; try clear globalMax;
  try clear extractKey; try clear isNumber; try clear MaxChunkSize;
  try clear FieldRange_empty; try clear FieldRange_equality;
  try clear FieldRange_nontrivial; try clear FieldRange_min;
  try clear FieldInterval_valid; try clear rangeOf;
  tauto.

Definition lt (a b : BSONObj) : Prop := BSONObjCmp a b = true.
Definition le (a b : BSONObj) : Prop := a = b \/ lt a b.

Lemma le_refl a : le a a.
Proof. left; reflexivity. Qed.

Lemma lt_le a b : lt a b -> le a b.
Proof. right; auto. Qed.

Lemma le_lt_trans a b c : le a b -> lt b c -> lt a c.
Proof. intros [->|H] H'; auto. eapply cmp_trans; eauto. Qed.

Lemma lt_le_trans a b c : lt a b -> le b c -> lt a c.
Proof. intros H [<-|H']; auto. eapply cmp_trans; eauto. Qed.

Lemma le_trans a b c : le a b -> le b c -> le a c.
Proof.
  intros [->|H] H'; auto. right. eapply lt_le_trans; eauto.
Qed.

Lemma le_not_gt a b : le a b -> BSONObjCmp b a = false.
Proof.
  intros [->|H]; [apply cmp_irrefl|].
  destruct (BSONObjCmp b a) eqn:E; auto.
  pose proof (cmp_trans _ _ _ H E) as X. rewrite cmp_irrefl in X. discriminate.
Qed.

Lemma lt_not_ge a b : lt a b -> BSONObjCmp b a = false.
Proof. intros H. apply le_not_gt. right; auto. Qed.

(** Positions found by the two bounds in a concatenation. *)
Lemma upper_bound_app {V} (X Y : omap V) key :
  Forall (fun e => le (fst e) key) X ->
  upper_bound (X ++ Y) key = (length X + upper_bound Y key)%nat.
Proof.
  induction 1 as [|[k v] X Hk _ IH]; simpl; auto.
  simpl in Hk. rewrite (le_not_gt _ _ Hk). rewrite IH. reflexivity.
Qed.

Lemma upper_bound_head {V} (Y : omap V) k v key :
  lt key k -> upper_bound ((k, v) :: Y) key = O.
Proof. intros H. simpl. unfold lt in H. rewrite H. reflexivity. Qed.

Lemma lower_bound_app {V} (X Y : omap V) key :
  Forall (fun e => lt (fst e) key) X ->
  lower_bound (X ++ Y) key = (length X + lower_bound Y key)%nat.
Proof.
  induction 1 as [|[k v] X Hk _ IH]; simpl; auto.
  simpl in Hk. unfold lt in Hk. rewrite Hk. rewrite IH. reflexivity.
Qed.

Lemma lower_bound_head {V} (Y : omap V) k v key :
  le key k -> lower_bound ((k, v) :: Y) key = O.
Proof. intros H. simpl. rewrite (le_not_gt _ _ H). reflexivity. Qed.

Lemma nth_error_middle {A} (X Z : list A) y :
  nth_error (X ++ y :: Z) (length X) = Some y.
Proof.
  rewrite nth_error_app2 by lia. rewrite Nat.sub_diag. reflexivity.
Qed.

Lemma erase_range_middle {V} (X Y Z : omap V) :
  erase_range (X ++ Y ++ Z) (length X) (length X + length Y) = X ++ Z.
Proof.
  unfold erase_range. rewrite firstn_app, Nat.sub_diag, firstn_all. simpl.
  rewrite app_nil_r. f_equal.
  rewrite skipn_app. rewrite skipn_all2 by lia. simpl.
  replace (length X + length Y - length X)%nat with (length Y) by lia.
  rewrite skipn_app, skipn_all, Nat.sub_diag. reflexivity.
Qed.

Lemma slice_middle {V} (X Y Z : omap V) :
  slice (X ++ Y ++ Z) (length X) (length X + length Y) = Y.
Proof.
  unfold slice. rewrite skipn_app, skipn_all, Nat.sub_diag. simpl.
  replace (length X + length Y - length X)%nat with (length Y) by lia.
  rewrite firstn_app, firstn_all, Nat.sub_diag. simpl. apply app_nil_r.
Qed.

(** [m[k] = v] in front of, and behind, entries on one side of [k]. *)
Lemma map_set_app {V} (X Z : omap V) key v :
  Forall (fun e => lt (fst e) key) X ->
  map_set (X ++ Z) key v = X ++ map_set Z key v.
Proof.
  induction 1 as [|[k' v'] X Hk _ IH]; simpl; auto.
  simpl in Hk. rewrite (lt_not_ge _ _ Hk). unfold lt in Hk. rewrite Hk.
  rewrite IH. reflexivity.
Qed.

Lemma map_set_before {V} (Z : omap V) key v :
  match Z with [] => True | e :: _ => lt key (fst e) end ->
  map_set Z key v = (key, v) :: Z.
Proof.
  destruct Z as [|[k' v'] Z]; simpl; auto.
  intros H. unfold lt in H. rewrite H. reflexivity.
Qed.

Lemma upper_bound_le_pos {V} (m : omap V) key : forall i k v,
  nth_error m i = Some (k, v) -> lt key k -> (upper_bound m key <= i)%nat.
Proof.
  induction m as [|[k' v'] m IH]; intros [|i] k v Hn Hlt; simpl in *;
    try discriminate.
  - inversion Hn; subst. unfold lt in Hlt. rewrite Hlt. lia.
  - destruct (BSONObjCmp key k'); [lia|]. apply IH in Hn; auto. lia.
Qed.

Lemma lower_bound_le_pos {V} (m : omap V) key : forall i k v,
  nth_error m i = Some (k, v) -> le key k -> (lower_bound m key <= i)%nat.
Proof.
  induction m as [|[k' v'] m IH]; intros [|i] k v Hn Hle; simpl in *;
    try discriminate.
  - inversion Hn; subst. rewrite (le_not_gt _ _ Hle). lia.
  - destruct (BSONObjCmp k' key); [|lia]. apply IH in Hn; auto. lia.
Qed.

(** **** Contiguous runs of intervals keyed by their upper end *)

Section Chain.
Variable V : Type.
Variables vmin vmax : V -> BSONObj.

(** [chain lo m]: the entries of [m] cover, without gap, a span that starts
    at [lo]; each is keyed by its max and has its min before its max. *)
Fixpoint chain (lo : BSONObj) (m : omap V) : Prop :=
  match m with
  | [] => True
  | (k, v) :: m' =>
      k = vmax v /\ vmin v = lo /\ lt (vmin v) (vmax v) /\ chain (vmax v) m'
  end.

(** Where the span ends. *)
Fixpoint end_key (lo : BSONObj) (m : omap V) : BSONObj :=
  match m with
  | [] => lo
  | (_, v) :: m' => end_key (vmax v) m'
  end.

Lemma end_key_app lo X Y : end_key lo (X ++ Y) = end_key (end_key lo X) Y.
Proof. revert lo; induction X as [|[k v] X IH]; intros lo; simpl; auto. Qed.

Lemma chain_app lo X Y :
  chain lo (X ++ Y) <-> chain lo X /\ chain (end_key lo X) Y.
Proof.
  revert lo; induction X as [|[k v] X IH]; intros lo; simpl.
  - taut.
  - rewrite IH. taut.
Qed.

Lemma chain_le_end lo m : chain lo m -> le lo (end_key lo m).
Proof.
  revert lo; induction m as [|[k v] m IH]; intros lo; simpl.
  - intros _. apply le_refl.
  - intros (_ & <- & Hlt & Hc). right. eapply lt_le_trans; eauto.
Qed.

Lemma chain_keys_below lo m :
  chain lo m -> Forall (fun e => le (fst e) (end_key lo m)) m.
Proof.
  revert lo; induction m as [|[k v] m IH]; intros lo; simpl; [constructor|].
  intros (-> & _ & _ & Hc). constructor; [simpl; apply chain_le_end; auto|].
  apply IH; auto.
Qed.

(** Keys of a prefix are at or below any key at or above its end. *)
Lemma chain_prefix_le lo X key :
  chain lo X -> le (end_key lo X) key -> Forall (fun e => le (fst e) key) X.
Proof.
  intros Hc Hle. apply chain_keys_below in Hc. revert Hc. apply Forall_impl.
  intros e He. eapply le_trans; eauto.
Qed.

Lemma chain_prefix_lt lo X key :
  chain lo X -> lt (end_key lo X) key -> Forall (fun e => lt (fst e) key) X.
Proof.
  intros Hc Hlt. apply chain_keys_below in Hc. revert Hc. apply Forall_impl.
  intros e He. eapply le_lt_trans; eauto.
Qed.

Lemma chain_nonempty_lt lo m : m <> [] -> chain lo m -> lt lo (end_key lo m).
Proof.
  destruct m as [|[k v] m]; [congruence|]. intros _ (_ & <- & Hlt & Hc).
  simpl. eapply lt_le_trans; [exact Hlt|]. apply chain_le_end; auto.
Qed.

(** Entries of a chain put back between the two parts they came from. *)
Lemma fold_map_set_chain lo : forall Y X Z,
  chain lo (X ++ Y ++ Z) ->
  fold_left (fun m e => map_set m (fst e) (snd e)) Y (X ++ Z) = X ++ Y ++ Z.
Proof.
  induction Y as [|[k v] Y IH]; intros X Z Hc; simpl; auto.
  pose proof Hc as Hc0.
  apply chain_app in Hc. destruct Hc as [HX HYZ]. simpl in HYZ.
  destruct HYZ as (Hk & Hmin & Hlt & Hrest).
  rewrite map_set_app.
  - rewrite map_set_before.
    + replace (X ++ (k, v) :: Z) with ((X ++ [(k, v)]) ++ Z)
        by (rewrite <- app_assoc; reflexivity).
      rewrite IH by (rewrite <- app_assoc; exact Hc0).
      rewrite <- app_assoc. reflexivity.
    + destruct Z as [|[kz vz] Z]; auto. simpl.
      apply chain_app in Hrest. destruct Hrest as [HY HZ]. simpl in HZ.
      destruct HZ as (-> & Hm & Hl & _). subst k.
      eapply le_lt_trans; [apply chain_le_end; eauto|]. rewrite <- Hm. exact Hl.
  - apply chain_prefix_lt with (lo := lo); auto. subst k. rewrite <- Hmin. exact Hlt.
Qed.

(** The position of the entry whose interval a key falls in. *)
Lemma upper_bound_in lo X k v Z key :
  chain lo (X ++ (k, v) :: Z) -> le (end_key lo X) key -> lt key k ->
  upper_bound (X ++ (k, v) :: Z) key = length X.
Proof.
  intros Hc Hle Hlt. apply chain_app in Hc. destruct Hc as [HX _].
  rewrite upper_bound_app by (apply chain_prefix_le with (lo := lo); auto).
  rewrite upper_bound_head by exact Hlt. lia.
Qed.

Lemma lower_bound_in lo X k v Z key :
  chain lo (X ++ (k, v) :: Z) -> lt (end_key lo X) key -> le key k ->
  lower_bound (X ++ (k, v) :: Z) key = length X.
Proof.
  intros Hc Hlt Hle. apply chain_app in Hc. destruct Hc as [HX _].
  rewrite lower_bound_app by (apply chain_prefix_lt with (lo := lo); auto).
  rewrite lower_bound_head by exact Hle. lia.
Qed.

Lemma chain_last lo X k v :
  chain lo (X ++ [(k, v)]) ->
  k = vmax v /\ vmin v = end_key lo X /\ lt (vmin v) (vmax v)
  /\ end_key lo (X ++ [(k, v)]) = vmax v.
Proof.
  intros Hc. rewrite end_key_app. apply chain_app in Hc. simpl in Hc. taut.
Qed.

End Chain.

(** **** The ranges [_insertRange] builds, as a list *)

Definition range_of (c : Chunk) : ChunkRange :=
  mkChunkRange (getShard c) (getMin c) (getMax c).

Definition entry (r : ChunkRange) : BSONObj * ChunkRange := (cr_max r, r).

Definition merged (a b : ChunkRange) : ChunkRange :=
  mkChunkRange (cr_shard a) (cr_min a) (cr_max b).

(** One pass over the chunks with the range under construction in hand. *)
Fixpoint coalesce_from (cur : ChunkRange) (l : ChunkMap) : ChunkRangeMap :=
  match l with
  | [] => [entry cur]
  | (_, c) :: l' =>
      if Shard_eq (getShard c) (cr_shard cur)
      then coalesce_from (mkChunkRange (cr_shard cur) (cr_min cur) (getMax c)) l'
      else entry cur :: coalesce_from (range_of c) l'
  end.

Definition coalesce (l : ChunkMap) : ChunkRangeMap :=
  match l with
  | [] => []
  | (_, c) :: l' => coalesce_from (range_of c) l'
  end.

(** Two lists of ranges put end to end, the two ranges that meet being
    merged when they are on the same shard. *)
Fixpoint glue (X Y : ChunkRangeMap) : ChunkRangeMap :=
  match X with
  | [] => Y
  | (ka, a) :: X' =>
      match X' with
      | [] =>
          match Y with
          | [] => X
          | (_, b) :: Y' =>
              if Shard_eq (cr_shard a) (cr_shard b)
              then entry (merged a b) :: Y'
              else (ka, a) :: Y
          end
      | _ :: _ => (ka, a) :: glue X' Y
      end
  end.

(** No two neighbours on the same shard. *)
Fixpoint alt (m : ChunkRangeMap) : Prop :=
  match m with
  | (_, a) :: m' =>
      match m' with
      | [] => True
      | (_, b) :: _ => Shard_eq (cr_shard a) (cr_shard b) = false /\ alt m'
      end
  | [] => True
  end.

Lemma Shard_eq_true a b : Shard_eq a b = true <-> a = b.
Proof. apply String.eqb_eq. Qed.

Lemma Shard_eq_refl a : Shard_eq a a = true.
Proof. apply String.eqb_refl. Qed.

Lemma Shard_eq_sym a b : Shard_eq a b = Shard_eq b a.
Proof. apply String.eqb_sym. Qed.

Lemma same_shard_run_spec shard mn : forall l last lastc rest,
  same_shard_run shard l last = (lastc, rest) ->
  coalesce_from (mkChunkRange shard mn (getMax last)) l
  = entry (mkChunkRange shard mn (getMax lastc)) :: coalesce rest
  /\ (length rest <= length l)%nat.
Proof.
  induction l as [|[k c] l IH]; intros last lastc rest H; simpl in H.
  - inversion H; subst. simpl. auto.
  - simpl. destruct (Shard_eq (getShard c) shard) eqn:E.
    + apply IH in H. destruct H as [H1 H2]. split; [exact H1|lia].
    + inversion H; subst. simpl. auto.
Qed.

Lemma insertRange_loop_coalesce fuel : forall l ranges,
  (length l <= fuel)%nat ->
  insertRange_loop fuel ranges l
  = fold_left (fun m e => map_set m (fst e) (snd e)) (coalesce l) ranges.
Proof.
  induction fuel as [|fuel IH]; intros l ranges Hf.
  - destruct l; [reflexivity|simpl in Hf; lia].
  - destruct l as [|[k first] l]; [reflexivity|].
    simpl insertRange_loop. rewrite Shard_eq_refl.
    destruct (same_shard_run (getShard first) l first) as [lastc rest] eqn:E.
    destruct (same_shard_run_spec _ (getMin first) _ _ _ _ E) as [H1 H2].
    simpl coalesce. unfold range_of. rewrite H1. simpl fold_left.
    apply IH. simpl in Hf. lia.
Qed.

Lemma _insertRange_coalesce ranges l :
  _insertRange ranges l
  = fold_left (fun m e => map_set m (fst e) (snd e)) (coalesce l) ranges.
Proof. apply insertRange_loop_coalesce. auto. Qed.

(** The min of the range in hand only shows in the first range produced. *)
Lemma coalesce_from_min : forall l shard mx,
  exists top rest, forall mn',
    coalesce_from (mkChunkRange shard mn' mx) l
    = entry (mkChunkRange shard mn' top) :: rest.
Proof.
  induction l as [|[k c] l IH]; intros shard mx.
  - exists mx, []. reflexivity.
  - simpl. destruct (Shard_eq (getShard c) shard).
    + destruct (IH shard (getMax c)) as (top & rest & H).
      exists top, rest. exact H.
    + exists mx, (coalesce_from (range_of c) l). reflexivity.
Qed.

Lemma coalesce_from_glue : forall l cur,
  coalesce_from cur l = glue [entry cur] (coalesce l).
Proof.
  intros [|[k c] l] cur; [reflexivity|].
  simpl coalesce. simpl coalesce_from.
  destruct (coalesce_from_min l (getShard c) (getMax c))
    as (top & rest & H).
  unfold range_of. rewrite (H (getMin c)). simpl glue.
  rewrite (Shard_eq_sym (cr_shard cur)).
  destruct (Shard_eq (getShard c) (cr_shard cur)) eqn:E; [|reflexivity].
  apply Shard_eq_true in E. unfold merged, entry. simpl.
  rewrite <- E. rewrite (H (cr_min cur)). reflexivity.
Qed.

Lemma glue_single_assoc ka a X Y :
  glue (glue [(ka, a)] X) Y = glue [(ka, a)] (glue X Y).
Proof.
  destruct X as [|[kx x] [|ex2 X]].
  - reflexivity.
  - destruct Y as [|[ky y] Y].
    + simpl. destruct (Shard_eq (cr_shard a) (cr_shard x)); reflexivity.
    + simpl.
      destruct (Shard_eq (cr_shard a) (cr_shard x)) eqn:E1;
        destruct (Shard_eq (cr_shard x) (cr_shard y)) eqn:E2; simpl;
        try rewrite E1; try rewrite E2; try reflexivity.
      * apply Shard_eq_true in E1. rewrite E1, E2. reflexivity.
      * apply Shard_eq_true in E1. rewrite E1, E2. reflexivity.
  - simpl. destruct (Shard_eq (cr_shard a) (cr_shard x)); reflexivity.
Qed.

Lemma coalesce_app X Y : coalesce (X ++ Y) = glue (coalesce X) (coalesce Y).
Proof.
  induction X as [|[k c] X IH]; [reflexivity|].
  simpl app. simpl coalesce.
  rewrite (coalesce_from_glue (X ++ Y)), IH. rewrite (coalesce_from_glue X).
  unfold entry. rewrite glue_single_assoc. reflexivity.
Qed.

Lemma glue_snoc_cons P ka a kb b Q :
  glue (P ++ [(ka, a)]) ((kb, b) :: Q)
  = if Shard_eq (cr_shard a) (cr_shard b)
    then P ++ entry (merged a b) :: Q
    else P ++ (ka, a) :: (kb, b) :: Q.
Proof.
  induction P as [|[kp p] P IH]; simpl.
  - destruct (Shard_eq _ _); reflexivity.
  - destruct (P ++ [(ka, a)]) eqn:E; [destruct P; discriminate|].
    rewrite IH. destruct (Shard_eq _ _); reflexivity.
Qed.

Local Abbreviation cchain := (chain Chunk getMin getMax).
Local Abbreviation cend := (end_key Chunk getMax).
Local Abbreviation rchain := (chain ChunkRange cr_min cr_max).
Local Abbreviation rend := (end_key ChunkRange cr_max).

Lemma coalesce_from_chain : forall l cur,
  lt (cr_min cur) (cr_max cur) -> cchain (cr_max cur) l ->
  rchain (cr_min cur) (coalesce_from cur l)
  /\ rend (cr_min cur) (coalesce_from cur l) = cend (cr_max cur) l.
Proof.
  induction l as [|[k c] l IH]; intros cur Hlt Hc.
  - simpl. repeat split; auto.
  - simpl in Hc. destruct Hc as (Hk & Hmin & Hlt' & Hc).
    simpl. destruct (Shard_eq (getShard c) (cr_shard cur)).
    + apply (IH (mkChunkRange (cr_shard cur) (cr_min cur) (getMax c))); simpl; auto.
      eapply cmp_trans; [exact Hlt|]. unfold getMin in *. rewrite <- Hmin. exact Hlt'.
    + destruct (IH (range_of c)) as [H1 H2]; simpl; auto.
      simpl in H1, H2. unfold getMin in *. rewrite Hmin in H1, H2.
      simpl. repeat split; auto.
Qed.

Lemma coalesce_chain lo l :
  cchain lo l -> rchain lo (coalesce l) /\ rend lo (coalesce l) = cend lo l.
Proof.
  destruct l as [|[k c] l]; simpl; [auto|].
  intros (Hk & Hmin & Hlt & Hc). rewrite <- Hmin.
  apply (coalesce_from_chain l (range_of c)); simpl; auto.
Qed.

Lemma coalesce_from_head : forall l cur,
  exists top rest,
    coalesce_from cur l = entry (mkChunkRange (cr_shard cur) (cr_min cur) top) :: rest.
Proof.
  intros l [s mn mx]. destruct (coalesce_from_min l s mx) as (top & rest & H).
  exists top, rest. apply H.
Qed.

Lemma coalesce_from_alt : forall l cur, alt (coalesce_from cur l).
Proof.
  induction l as [|[k c] l IH]; intros cur; simpl; auto.
  destruct (Shard_eq (getShard c) (cr_shard cur)) eqn:E; [apply IH|].
  specialize (IH (range_of c)).
  destruct (coalesce_from_head l (range_of c)) as (top & rest & H).
  rewrite H in *. simpl. split; auto. rewrite Shard_eq_sym. exact E.
Qed.

Lemma coalesce_alt l : alt (coalesce l).
Proof. destruct l as [|[k c] l]; simpl; auto. apply coalesce_from_alt. Qed.

Lemma alt_nth m : forall i ka a kb b,
  alt m -> nth_error m i = Some (ka, a) -> nth_error m (S i) = Some (kb, b) ->
  Shard_eq (cr_shard a) (cr_shard b) = false.
Proof.
  induction m as [|[k x] m IH]; intros i ka a kb b Ha H1 H2.
  - destruct i; discriminate.
  - destruct i as [|i].
    + simpl in H1. inversion H1; subst. simpl in H2.
      destruct m as [|[k' y] m]; [discriminate|]. simpl in H2. inversion H2; subst.
      simpl in Ha. taut.
    + simpl in H1. apply (IH i ka a kb b); auto.
      simpl in Ha. destruct m as [|[k' y] m]; [simpl; auto|taut].
Qed.

Lemma coalesce_nonempty l : l <> [] -> coalesce l <> [].
Proof.
  destruct l as [|[k c] l]; [congruence|]. intros _. simpl.
  destruct (coalesce_from_head l (range_of c)) as (top & rest & H).
  rewrite H. discriminate.
Qed.

Lemma coalesce_head k c l :
  exists top rest,
    coalesce ((k, c) :: l)
    = entry (mkChunkRange (getShard c) (getMin c) top) :: rest.
Proof. simpl. apply (coalesce_from_head l (range_of c)). Qed.

Lemma coalesce_snoc l k c :
  exists Init r, coalesce (l ++ [(k, c)]) = Init ++ [entry r]
                 /\ cr_shard r = getShard c.
Proof.
  rewrite coalesce_app. simpl coalesce.
  destruct (coalesce l) as [|e R] eqn:E.
  - exists [], (range_of c). simpl. auto.
  - destruct (exists_last (l := e :: R)) as (P & [ka a] & HP); [discriminate|].
    rewrite HP. unfold entry at 1. rewrite glue_snoc_cons.
    destruct (Shard_eq (cr_shard a) (cr_shard (range_of c))) eqn:Es.
    + exists P, (merged a (range_of c)). split; auto.
      simpl. apply Shard_eq_true in Es. exact Es.
    + exists (P ++ [(ka, a)]), (range_of c). rewrite <- app_assoc. simpl. auto.
Qed.

Lemma coalesce_app_diff X k1 c1 k2 c2 Y :
  Shard_eq (getShard c1) (getShard c2) = false ->
  coalesce ((X ++ [(k1, c1)]) ++ (k2, c2) :: Y)
  = coalesce (X ++ [(k1, c1)]) ++ coalesce ((k2, c2) :: Y).
Proof.
  intros Hd. rewrite coalesce_app.
  destruct (coalesce_snoc X k1 c1) as (Init & r & H1 & Hs).
  destruct (coalesce_head k2 c2 Y) as (top & rest & H2).
  rewrite H1, H2. unfold entry. rewrite glue_snoc_cons. simpl.
  rewrite Hs, Hd. rewrite <- app_assoc. reflexivity.
Qed.

Lemma coalesce_from_uniform : forall X cur,
  Forall (fun e => Shard_eq (getShard (snd e)) (cr_shard cur) = true) X ->
  coalesce_from cur X
  = [entry (mkChunkRange (cr_shard cur) (cr_min cur) (cend (cr_max cur) X))].
Proof.
  induction X as [|[k c] X IH]; intros cur H.
  - destruct cur; reflexivity.
  - inversion H as [|? ? Hc HX]; subst. simpl in Hc. simpl. rewrite Hc.
    rewrite IH; auto.
Qed.

Lemma coalesce_uniform k c X :
  Forall (fun e => Shard_eq (getShard (snd e)) (getShard c) = true) X ->
  coalesce ((k, c) :: X)
  = [entry (mkChunkRange (getShard c) (getMin c) (cend (getMax c) X))].
Proof. intros H. simpl. apply (coalesce_from_uniform X (range_of c)). exact H. Qed.

(** **** The two boundary fix-ups *)

Lemma merge_low_keep m key M1 M2 :
  m = M1 ++ M2 -> alt M1 -> (upper_bound m key < length M1)%nat ->
  merge_low m key = (m, Done).
Proof.
  intros Hm Ha Hlow. subst m. unfold merge_low.
  destruct (nth_error (M1 ++ M2) (upper_bound (M1 ++ M2) key)) as [[kb b]|] eqn:Eb.
  - destruct (upper_bound (M1 ++ M2) key) as [|plow] eqn:El; [reflexivity|].
    destruct (nth_error (M1 ++ M2) plow) as [[ka a]|] eqn:Ea.
    + rewrite nth_error_app1 in Ea, Eb by lia.
      rewrite (alt_nth M1 plow ka a kb b Ha Ea Eb). reflexivity.
    + apply nth_error_None in Ea. rewrite length_app in Ea. lia.
  - apply nth_error_None in Eb. rewrite length_app in Eb. lia.
Qed.

Lemma chain_merge_pair lo P ka a kd d Q :
  rchain lo (P ++ (ka, a) :: (kd, d) :: Q) ->
  rchain lo (P ++ [entry (merged a d)] ++ Q) /\ cr_max a = cr_min d.
Proof.
  intros Hc. apply chain_app in Hc. destruct Hc as [HP Hc]. simpl in Hc.
  destruct Hc as (Hka & Hmina & Hlta & Hkd & Hmind & Hltd & HQ).
  split; [|auto]. apply chain_app. split; auto. simpl.
  repeat split; auto. eapply cmp_trans; [exact Hlta|]. rewrite <- Hmind. exact Hltd.
Qed.

Lemma merge_pair_set lo P ka a kd d Q :
  rchain lo (P ++ (ka, a) :: (kd, d) :: Q) ->
  map_set (erase_range (P ++ (ka, a) :: (kd, d) :: Q) (length P) (S (S (length P))))
          (cr_max (merged a d)) (merged a d)
  = P ++ entry (merged a d) :: Q.
Proof.
  intros Hc. destruct (chain_merge_pair _ _ _ _ _ _ _ Hc) as [Hc' _].
  replace (S (S (length P))) with (length P + length [(ka, a); (kd, d)])%nat
    by (simpl; lia).
  change (P ++ (ka, a) :: (kd, d) :: Q) with (P ++ [(ka, a); (kd, d)] ++ Q).
  rewrite erase_range_middle.
  apply (fold_map_set_chain ChunkRange cr_min cr_max lo [entry (merged a d)] P Q Hc').
Qed.

Lemma merge_low_junction lo P ka a kd d Q key :
  rchain lo (P ++ (ka, a) :: (kd, d) :: Q) ->
  upper_bound (P ++ (ka, a) :: (kd, d) :: Q) key = S (length P) ->
  merge_low (P ++ (ka, a) :: (kd, d) :: Q) key
  = (glue (P ++ [(ka, a)]) ((kd, d) :: Q), Done).
Proof.
  intros Hc Hlow. unfold merge_low. rewrite Hlow.
  replace (nth_error (P ++ (ka, a) :: (kd, d) :: Q) (S (length P)))
    with (Some (kd, d)).
  2:{ change (P ++ (ka, a) :: (kd, d) :: Q) with (P ++ [(ka, a)] ++ (kd, d) :: Q).
      rewrite app_assoc.
      replace (S (length P)) with (length (P ++ [(ka, a)]))
        by (rewrite length_app; simpl; lia).
      rewrite nth_error_middle. reflexivity. }
  rewrite nth_error_middle. rewrite glue_snoc_cons.
  destruct (Shard_eq (cr_shard a) (cr_shard d)) eqn:E.
  - unfold ChunkRange_merge. rewrite E.
    destruct (chain_merge_pair _ _ _ _ _ _ _ Hc) as [_ Hm]. rewrite Hm, objEq_refl.
    simpl andb. cbv iota.
    change (mkChunkRange (cr_shard a) (cr_min a) (cr_max d)) with (merged a d).
    rewrite (merge_pair_set lo); auto.
  - reflexivity.
Qed.

Lemma merge_high_keep m key :
  alt m -> (lower_bound m key < length m)%nat -> merge_high m key = (m, Done).
Proof.
  intros Ha Hh. unfold merge_high.
  destruct (Nat.eqb_spec (S (lower_bound m key)) (length m)) as [E|E]; [reflexivity|].
  destruct (nth_error m (lower_bound m key)) as [[ka a]|] eqn:Ea.
  - destruct (nth_error m (S (lower_bound m key))) as [[kb b]|] eqn:Eb.
    + rewrite (alt_nth m _ ka a kb b Ha Ea Eb). reflexivity.
    + apply nth_error_None in Eb. lia.
  - apply nth_error_None in Ea. lia.
Qed.

Lemma merge_high_junction lo P kg g kc c Q key :
  rchain lo (P ++ (kg, g) :: (kc, c) :: Q) ->
  lower_bound (P ++ (kg, g) :: (kc, c) :: Q) key = length P ->
  merge_high (P ++ (kg, g) :: (kc, c) :: Q) key
  = (glue (P ++ [(kg, g)]) ((kc, c) :: Q), Done).
Proof.
  intros Hc Hh. unfold merge_high. rewrite Hh.
  destruct (Nat.eqb_spec (S (length P)) (length (P ++ (kg, g) :: (kc, c) :: Q)))
    as [E|_].
  { rewrite length_app in E. simpl in E. lia. }
  replace (nth_error (P ++ (kg, g) :: (kc, c) :: Q) (S (length P)))
    with (Some (kc, c)).
  2:{ change (P ++ (kg, g) :: (kc, c) :: Q) with (P ++ [(kg, g)] ++ (kc, c) :: Q).
      rewrite app_assoc.
      replace (S (length P)) with (length (P ++ [(kg, g)]))
        by (rewrite length_app; simpl; lia).
      rewrite nth_error_middle. reflexivity. }
  rewrite nth_error_middle. rewrite glue_snoc_cons.
  destruct (Shard_eq (cr_shard g) (cr_shard c)) eqn:E.
  - unfold ChunkRange_merge. rewrite E.
    destruct (chain_merge_pair _ _ _ _ _ _ _ Hc) as [_ Hm]. rewrite Hm, objEq_refl.
    simpl andb. cbv iota.
    change (mkChunkRange (cr_shard g) (cr_min g) (cr_max c)) with (merged g c).
    rewrite (merge_pair_set lo); auto.
  - reflexivity.
Qed.

(** **** Runs of one shard next to the mutated chunks *)

Definition on_shard (s : Shard) (e : BSONObj * Chunk) : Prop :=
  Shard_eq (getShard (snd e)) s = true.

Lemma suffix_on_shard (A : ChunkMap) s :
  exists A1 A2, A = A1 ++ A2 /\ Forall (on_shard s) A2 /\
    (A1 = [] \/ exists X k c, A1 = X ++ [(k, c)] /\ Shard_eq (getShard c) s = false).
Proof.
  induction A as [|[k c] A IH] using rev_ind.
  - exists [], []. repeat split; auto.
  - destruct (Shard_eq (getShard c) s) eqn:E.
    + destruct IH as (A1 & A2 & HA & HF & H1).
      exists A1, (A2 ++ [(k, c)]). rewrite HA, <- app_assoc. repeat split; auto.
      apply Forall_app. split; auto.
    + exists (A ++ [(k, c)]), []. rewrite app_nil_r. repeat split; auto.
      right. exists A, k, c. auto.
Qed.

Lemma prefix_on_shard (C : ChunkMap) s :
  exists C1 C2, C = C1 ++ C2 /\ Forall (on_shard s) C1 /\
    (C2 = [] \/ exists k c Y, C2 = (k, c) :: Y /\ Shard_eq (getShard c) s = false).
Proof.
  induction C as [|[k c] C IH].
  - exists [], []. repeat split; auto.
  - destruct (Shard_eq (getShard c) s) eqn:E.
    + destruct IH as (C1 & C2 & HC & HF & H2).
      exists ((k, c) :: C1), C2. rewrite HC. repeat split; auto.
    + exists [], ((k, c) :: C). repeat split; auto.
      right. exists k, c, C. auto.
Qed.

(** **** Where two stretches of chunks meet *)

Definition last_differs (X : ChunkMap) (s : Shard) : Prop :=
  X = [] \/ exists X' k c, X = X' ++ [(k, c)] /\ Shard_eq (getShard c) s = false.

Definition first_differs (Y : ChunkMap) (s : Shard) : Prop :=
  Y = [] \/ exists k c Y', Y = (k, c) :: Y' /\ Shard_eq (getShard c) s = false.

Lemma glue_app_r X Y Z : Y <> [] -> glue X (Y ++ Z) = glue X Y ++ Z.
Proof.
  intros HY. induction X as [|[ka a] X IH]; [reflexivity|].
  destruct X as [|e X].
  - destruct Y as [|[kb b] Y]; [congruence|]. simpl.
    destruct (Shard_eq (cr_shard a) (cr_shard b)); reflexivity.
  - change (glue ((ka, a) :: e :: X) (Y ++ Z)) with ((ka, a) :: glue (e :: X) (Y ++ Z)).
    rewrite IH. reflexivity.
Qed.

Lemma coalesce_app_left X k c Y :
  last_differs X (getShard c) ->
  coalesce (X ++ (k, c) :: Y) = coalesce X ++ coalesce ((k, c) :: Y).
Proof.
  intros [->|(X' & k' & c' & -> & Hd)]; [reflexivity|].
  apply coalesce_app_diff. exact Hd.
Qed.

Lemma coalesce_app_right X k c Y :
  first_differs Y (getShard c) ->
  coalesce ((X ++ [(k, c)]) ++ Y) = coalesce (X ++ [(k, c)]) ++ coalesce Y.
Proof.
  intros [->|(k' & c' & Y' & -> & Hd)].
  - simpl. rewrite !app_nil_r. reflexivity.
  - apply coalesce_app_diff. rewrite Shard_eq_sym. exact Hd.
Qed.

Lemma uniform_head s (U : ChunkMap) k c R :
  Forall (on_shard s) U -> on_shard s (k, c) ->
  exists k' c' R', U ++ (k, c) :: R = (k', c') :: R' /\ getShard c' = s.
Proof.
  intros HU Hc. destruct U as [|[k' c'] U].
  - exists k, c, R. split; auto. apply Shard_eq_true. exact Hc.
  - inversion HU as [|? ? H1 H2]; subst. exists k', c', (U ++ (k, c) :: R).
    split; auto. apply Shard_eq_true. exact H1.
Qed.

Lemma uniform_last s (U : ChunkMap) k c R :
  Forall (on_shard s) U -> on_shard s (k, c) ->
  exists R' k' c', (R ++ [(k, c)]) ++ U = R' ++ [(k', c')] /\ getShard c' = s.
Proof.
  intros HU Hc. destruct U as [|e U] using rev_ind.
  - exists R, k, c. rewrite app_nil_r. split; auto. apply Shard_eq_true. exact Hc.
  - apply Forall_app in HU. destruct HU as [_ H1]. inversion H1 as [|? ? H2 _]; subst.
    destruct e as [k' c']. exists ((R ++ [(k, c)]) ++ U), k', c'.
    rewrite app_assoc. split; auto. apply Shard_eq_true. exact H2.
Qed.

(** The first range over chunks that begin with a run on one shard reaches
    at least to the end of the run; likewise the last range. *)
Lemma coalesce_uniform_prefix s lo (U Y : ChunkMap) :
  U <> [] -> Forall (on_shard s) U -> cchain lo (U ++ Y) ->
  exists r rest, coalesce (U ++ Y) = entry r :: rest /\ le (cend lo U) (cr_max r).
Proof.
  intros HU HF Hc. destruct U as [|[k c] U]; [congruence|].
  inversion HF as [|? ? H1 H2]; subst. apply Shard_eq_true in H1. simpl in H1. subst s.
  rewrite coalesce_app, (coalesce_uniform k c U H2).
  apply chain_app in Hc. destruct Hc as [_ HY].
  apply coalesce_chain in HY. destruct HY as [HY _].
  simpl end_key in *.
  set (r0 := mkChunkRange (getShard c) (getMin c) (cend (getMax c) U)).
  destruct (coalesce Y) as [|[ky y] Y'].
  - exists r0, []. split; [reflexivity|]. simpl. apply le_refl.
  - simpl in HY. destruct HY as (_ & Hm & Hl & _).
    change (glue [entry r0] ((ky, y) :: Y'))
      with (if Shard_eq (cr_shard r0) (cr_shard y)
            then entry (merged r0 y) :: Y' else entry r0 :: (ky, y) :: Y').
    destruct (Shard_eq _ _).
    + exists (merged r0 y), Y'. split; [reflexivity|]. simpl. right.
      rewrite <- Hm. exact Hl.
    + exists r0, ((ky, y) :: Y'). split; [reflexivity|]. simpl. apply le_refl.
Qed.

Lemma coalesce_uniform_suffix s lo (X U : ChunkMap) :
  U <> [] -> Forall (on_shard s) U -> cchain lo (X ++ U) ->
  exists Init r, coalesce (X ++ U) = Init ++ [entry r]
    /\ le (cr_min r) (cend lo X) /\ cr_max r = cend lo (X ++ U).
Proof.
  intros HU HF Hc. destruct U as [|[k c] U]; [congruence|].
  inversion HF as [|? ? H1 H2]; subst. apply Shard_eq_true in H1. simpl in H1. subst s.
  rewrite coalesce_app, (coalesce_uniform k c U H2).
  apply chain_app in Hc. destruct Hc as [HX HU'].
  simpl in HU'. destruct HU' as (_ & Hmin & _ & _).
  apply coalesce_chain in HX. destruct HX as [HX HXe].
  rewrite end_key_app. simpl end_key.
  destruct (coalesce X) as [|e R] eqn:E.
  - exists [], (mkChunkRange (getShard c) (getMin c) (cend (getMax c) U)).
    simpl. split; [reflexivity|]. split; [|reflexivity].
    left. exact Hmin.
  - destruct (exists_last (l := e :: R)) as (P & [ka a] & HP); [discriminate|].
    rewrite HP in *. unfold entry at 1. rewrite glue_snoc_cons.
    apply chain_last in HX. destruct HX as (_ & _ & Hl & He).
    destruct (Shard_eq _ _).
    + exists P, (merged a (mkChunkRange (getShard c) (getMin c) (cend (getMax c) U))).
      split; [reflexivity|]. simpl. split; [|reflexivity].
      right. rewrite <- HXe, He. exact Hl.
    + exists (P ++ [(ka, a)]), (mkChunkRange (getShard c) (getMin c) (cend (getMax c) U)).
      rewrite <- app_assoc. split; [reflexivity|]. simpl. split; [|reflexivity].
      left. exact Hmin.
Qed.

Lemma reloadAll_coalesce lo l : cchain lo l -> reloadAll l = coalesce l.
Proof.
  intros Hc. unfold reloadAll. rewrite _insertRange_coalesce.
  apply coalesce_chain in Hc. destruct Hc as [Hc _].
  pose proof (fold_map_set_chain ChunkRange cr_min cr_max lo (coalesce l) [] []) as H.
  simpl in H. rewrite app_nil_r in H. apply H. exact Hc.
Qed.

(** **** [reloadRange] once its iterators are known *)

Lemma reloadRange_run ranges chunks mn mx low high kl lowr kh highr begin end_ ranges3 :
  ranges <> [] ->
  upper_bound ranges mn = low -> lower_bound ranges mx = high ->
  nth_error ranges low = Some (kl, lowr) ->
  nth_error ranges high = Some (kh, highr) ->
  upper_bound chunks (cr_min lowr) = begin ->
  lower_bound chunks (cr_max highr) = end_ ->
  (begin < length chunks)%nat -> (end_ < length chunks)%nat ->
  (low <= high)%nat -> (begin <= end_)%nat ->
  _insertRange (erase_range ranges low (S high)) (slice chunks begin (S end_)) <> [] ->
  merge_low (_insertRange (erase_range ranges low (S high))
                          (slice chunks begin (S end_))) mn = (ranges3, Done) ->
  reloadRange ranges chunks mn mx = merge_high ranges3 mx.
Proof.
  intros Hne Hlow Hhigh Hl Hh Hb He Hb' He' Hlh Hbe Hne2 Hm.
  unfold reloadRange. destruct ranges as [|e0 ranges]; [congruence|].
  cbv zeta. rewrite Hlow, Hhigh, Hl, Hh, Hb, He.
  apply Nat.ltb_lt in Hb', He'. apply Nat.leb_le in Hlh, Hbe.
  rewrite Hb', He', Hlh, Hbe. simpl andb. cbv iota.
  destruct (_insertRange (erase_range (e0 :: ranges) low (S high))
                         (slice chunks begin (S end_))) as [|e2 ranges2] eqn:E;
    [congruence|].
  rewrite Hm. reflexivity.
Qed.

Lemma list_cases {T} (l : list T) : l = [] \/ exists x l', l = x :: l'.
Proof. destruct l as [|x l']; eauto. Qed.

(** **** One reload
    The chunks [B] between [mn] and [mx] have been replaced by [B'].  [A2]
    are the chunks before [mn] on the shard [B] began with, [C1] those after
    [mx] on the shard [B] ended with: the stretch of the old index that
    [reloadRange] takes out is the one over [A2 ++ B ++ C1]. *)
Section Reload.
Variable lo : BSONObj.
Variables A1 A2 B B' C1 C2 Btl Bin : ChunkMap.
Variables kb kl : BSONObj.
Variables b0 bl : Chunk.

Local Abbreviation e1 := (cend lo A1).
Local Abbreviation mn := (cend (cend lo A1) A2).
Local Abbreviation mx := (cend (cend (cend lo A1) A2) B).
Local Abbreviation e3 := (cend (cend (cend (cend lo A1) A2) B) C1).
Local Abbreviation Dold := (A2 ++ B ++ C1).
Local Abbreviation Dnew := (A2 ++ B' ++ C1).

Hypothesis HB0 : B = (kb, b0) :: Btl.
Hypothesis HBl : B = Bin ++ [(kl, bl)].
Hypothesis HB' : B' <> [].
Hypothesis HA2 : Forall (on_shard (getShard b0)) A2.
Hypothesis HC1 : Forall (on_shard (getShard bl)) C1.
Hypothesis HA1 : last_differs A1 (getShard b0).
Hypothesis HC2 : first_differs C2 (getShard bl).
Hypothesis Hold : cchain lo (A1 ++ Dold ++ C2).
Hypothesis Hnew : cchain lo (A1 ++ Dnew ++ C2).
Hypothesis Hend : cend mn B' = mx.

Lemma old_parts :
  cchain lo A1 /\ cchain e1 A2 /\ cchain mn B /\ cchain mx C1 /\ cchain e3 C2.
Proof.
  pose proof Hold as H. rewrite <- !app_assoc in H.
  rewrite !chain_app in H. taut.
Qed.

Lemma new_parts : cchain mn B' /\ cchain e1 Dnew /\ cend e1 Dnew = e3.
Proof.
  pose proof Hnew as H. rewrite <- !app_assoc in H.
  rewrite !chain_app in H. rewrite Hend in H.
  split; [taut|]. split.
  - rewrite !chain_app. rewrite Hend. taut.
  - rewrite !end_key_app. rewrite Hend. reflexivity.
Qed.

Lemma old_stretch : cchain e1 Dold /\ cend e1 Dold = e3.
Proof.
  destruct old_parts as (_ & H2 & H3 & H4 & _). split.
  - rewrite !chain_app. taut.
  - rewrite !end_key_app. reflexivity.
Qed.

Lemma e1_le_mn : le e1 mn.
Proof. apply (chain_le_end Chunk getMin getMax). apply old_parts. Qed.

Lemma mn_lt_mx : lt mn mx.
Proof.
  apply (chain_nonempty_lt Chunk getMin getMax); [|apply old_parts].
  rewrite HB0. discriminate.
Qed.

Lemma mx_le_e3 : le mx e3.
Proof. apply (chain_le_end Chunk getMin getMax). apply old_parts. Qed.

Lemma b0_span : getMin b0 = mn /\ lt mn (getMax b0).
Proof.
  destruct old_parts as (_ & _ & H & _). rewrite HB0 in H. simpl in H.
  destruct H as (_ & Hm & Hl & _). split; auto. rewrite <- Hm. exact Hl.
Qed.

Lemma bl_span : cend mn Bin = getMin bl /\ lt (getMin bl) mx /\ mx = getMax bl.
Proof.
  destruct old_parts as (_ & _ & H & _). rewrite HBl in H |- *.
  apply chain_last in H. destruct H as (_ & Hm & Hl & He).
  rewrite He. auto.
Qed.

(** The old index, around the stretch. *)
Lemma old_index :
  coalesce (A1 ++ Dold ++ C2) = coalesce A1 ++ coalesce Dold ++ coalesce C2.
Proof.
  assert (H1 : exists k c R, Dold = (k, c) :: R /\ getShard c = getShard b0).
  { rewrite HB0. simpl app. apply uniform_head; auto. apply Shard_eq_refl. }
  assert (H2 : exists R k c, Dold = R ++ [(k, c)] /\ getShard c = getShard bl).
  { rewrite HBl.
    replace (A2 ++ (Bin ++ [(kl, bl)]) ++ C1) with (((A2 ++ Bin) ++ [(kl, bl)]) ++ C1)
      by (rewrite <- !app_assoc; reflexivity).
    apply uniform_last; auto. apply Shard_eq_refl. }
  destruct H1 as (k & c & R & E1 & S1). destruct H2 as (R' & k' & c' & E2 & S2).
  assert (H : coalesce (Dold ++ C2) = coalesce Dold ++ coalesce C2).
  { rewrite E2. apply coalesce_app_right. rewrite S2. exact HC2. }
  rewrite <- H. rewrite E1. simpl app. apply coalesce_app_left.
  rewrite S1. exact HA1.
Qed.

Lemma old_first :
  exists r0 rest, coalesce Dold = entry r0 :: rest
    /\ cr_min r0 = e1 /\ lt mn (cr_max r0).
Proof.
  destruct old_stretch as [Hc _].
  destruct (coalesce_uniform_prefix (getShard b0) e1 (A2 ++ [(kb, b0)]) (Btl ++ C1))
    as (r0 & rest & E & Hle).
  - destruct A2; discriminate.
  - apply Forall_app. split; auto. constructor; [apply Shard_eq_refl|constructor].
  - rewrite <- app_assoc. simpl app. rewrite HB0 in Hc. exact Hc.
  - rewrite <- app_assoc in E. simpl app in E. rewrite HB0.
    change (((kb, b0) :: Btl) ++ C1) with ((kb, b0) :: Btl ++ C1).
    exists r0, rest. split; [exact E|].
    apply coalesce_chain in Hc. destruct Hc as [Hc _].
    rewrite HB0 in Hc. simpl app in Hc. rewrite E in Hc. simpl in Hc.
    split; [taut|].
    rewrite end_key_app in Hle. simpl in Hle.
    eapply lt_le_trans; [apply b0_span|exact Hle].
Qed.

Lemma old_last :
  exists Init rn, coalesce Dold = Init ++ [entry rn]
    /\ lt (cr_min rn) mx /\ cr_max rn = e3.
Proof.
  destruct old_stretch as [Hc He].
  assert (E0 : Dold = (A2 ++ Bin) ++ (kl, bl) :: C1).
  { rewrite HBl. rewrite <- !app_assoc. reflexivity. }
  destruct (coalesce_uniform_suffix (getShard bl) e1 (A2 ++ Bin) ((kl, bl) :: C1))
    as (Init & rn & E & Hle & Hmax).
  - discriminate.
  - constructor; [apply Shard_eq_refl|exact HC1].
  - rewrite <- E0. exact Hc.
  - exists Init, rn. rewrite <- E0 in E, Hmax. split; [exact E|].
    split; [|rewrite Hmax; exact He].
    rewrite end_key_app in Hle. destruct bl_span as (E1 & E2 & _).
    rewrite E1 in Hle. eapply le_lt_trans; eauto.
Qed.

Lemma old_index_chain : rchain lo (coalesce (A1 ++ Dold ++ C2)).
Proof. apply coalesce_chain. exact Hold. Qed.

Lemma RA_end : rend lo (coalesce A1) = e1.
Proof. apply coalesce_chain. apply old_parts. Qed.

(** [low] and [high] in the old index. *)
Lemma old_low :
  exists k0 lowr rest, coalesce Dold = (k0, lowr) :: rest
    /\ upper_bound (coalesce (A1 ++ Dold ++ C2)) mn = length (coalesce A1)
    /\ cr_min lowr = e1.
Proof.
  destruct old_first as (r0 & rest & E & Hmin & Hlt).
  exists (cr_max r0), r0, rest. split; [exact E|]. split; [|exact Hmin].
  pose proof old_index_chain as Hc. rewrite old_index in Hc |- *.
  rewrite E in Hc |- *. unfold entry in Hc |- *. simpl app in Hc |- *.
  apply (upper_bound_in ChunkRange cr_min cr_max lo); auto.
  rewrite RA_end. apply e1_le_mn.
Qed.

Lemma old_high :
  exists Init kh highr, coalesce Dold = Init ++ [(kh, highr)]
    /\ lower_bound (coalesce (A1 ++ Dold ++ C2)) mx
       = (length (coalesce A1) + length Init)%nat
    /\ cr_max highr = e3.
Proof.
  destruct old_last as (Init & rn & E & Hlt & Hmax).
  exists Init, (cr_max rn), rn. split; [exact E|]. split; [|exact Hmax].
  pose proof old_index_chain as Hc. rewrite old_index in Hc |- *.
  rewrite E in Hc |- *. unfold entry in Hc |- *.
  replace (coalesce A1 ++ (Init ++ [(cr_max rn, rn)]) ++ coalesce C2)
    with ((coalesce A1 ++ Init) ++ (cr_max rn, rn) :: coalesce C2) in Hc |- *
    by (rewrite <- !app_assoc; reflexivity).
  rewrite <- length_app.
  apply (lower_bound_in ChunkRange cr_min cr_max lo); auto.
  - apply chain_app in Hc. destruct Hc as [_ Hc]. simpl in Hc.
    destruct Hc as (_ & Hm & _). rewrite <- Hm. exact Hlt.
  - rewrite Hmax. apply mx_le_e3.
Qed.

(** [begin] and [end] in the new chunk map. *)
Lemma Dnew_first : exists k c R, Dnew = (k, c) :: R /\ lt e1 k.
Proof.
  destruct new_parts as (_ & Hc & _).
  destruct Dnew as [|[k c] R] eqn:E.
  - apply app_eq_nil in E. destruct E as [_ E]. apply app_eq_nil in E.
    destruct E as [E _]. contradiction.
  - exists k, c, R. split; [reflexivity|]. simpl in Hc.
    destruct Hc as (-> & Hm & Hl & _). rewrite <- Hm. exact Hl.
Qed.

Lemma Dnew_last : exists R k c, Dnew = R ++ [(k, c)] /\ lt (cend e1 R) e3 /\ k = e3.
Proof.
  destruct new_parts as (_ & Hc & He).
  destruct Dnew_first as (k0 & c0 & R0 & E0 & _).
  destruct (exists_last (l := Dnew)) as (R & [k c] & E); [rewrite E0; discriminate|].
  exists R, k, c. split; [exact E|]. rewrite E in Hc, He.
  apply chain_last in Hc. destruct Hc as (Hk & Hm & Hl & He').
  rewrite He' in He. rewrite <- He, <- Hm. auto.
Qed.

Lemma new_begin : upper_bound (A1 ++ Dnew ++ C2) e1 = length A1.
Proof.
  pose proof Hnew as Hc. destruct Dnew_first as (k & c & R & E & Hlt).
  rewrite E in Hc |- *. simpl app in Hc |- *.
  apply (upper_bound_in Chunk getMin getMax lo); auto. apply le_refl.
Qed.

Lemma new_end :
  S (lower_bound (A1 ++ Dnew ++ C2) e3) = (length A1 + length Dnew)%nat.
Proof.
  pose proof Hnew as Hc. destruct Dnew_last as (R & k & c & E & Hlt & Hk).
  rewrite E in Hc |- *.
  replace (A1 ++ (R ++ [(k, c)]) ++ C2) with ((A1 ++ R) ++ (k, c) :: C2) in Hc |- *
    by (rewrite <- !app_assoc; reflexivity).
  rewrite (lower_bound_in Chunk getMin getMax lo); auto.
  - rewrite !length_app. simpl. lia.
  - rewrite end_key_app. exact Hlt.
  - left. symmetry. exact Hk.
Qed.

(** The new stretch put where the old one was. *)
Lemma new_index_chain :
  rchain lo (coalesce A1 ++ coalesce Dnew ++ coalesce C2).
Proof.
  destruct old_parts as (H1 & _ & _ & _ & H5).
  destruct new_parts as (_ & H2 & He).
  apply coalesce_chain in H1, H2, H5.
  destruct H1 as [H1 E1]. destruct H2 as [H2 E2]. destruct H5 as [H5 _].
  rewrite !chain_app. rewrite E1, E2, He. auto.
Qed.

Lemma reload_insert :
  _insertRange (coalesce A1 ++ coalesce C2) Dnew
  = coalesce A1 ++ coalesce Dnew ++ coalesce C2.
Proof.
  rewrite _insertRange_coalesce.
  apply (fold_map_set_chain ChunkRange cr_min cr_max lo). apply new_index_chain.
Qed.

(** The index over the chunks up to the end of the new stretch. *)
Lemma new_left_chain : cchain lo (A1 ++ Dnew) /\ cend lo (A1 ++ Dnew) = e3.
Proof.
  destruct old_parts as (H1 & _). destruct new_parts as (_ & H2 & He).
  rewrite chain_app, end_key_app. auto.
Qed.

Lemma G_last :
  exists P k v, coalesce (A1 ++ Dnew) = P ++ [(k, v)]
    /\ k = e3 /\ lt (rend lo P) e3.
Proof.
  destruct new_left_chain as [Hc He]. apply coalesce_chain in Hc.
  destruct Hc as [Hc He']. rewrite He in He'.
  destruct (exists_last (l := coalesce (A1 ++ Dnew))) as (P & [k v] & E).
  { apply coalesce_nonempty. destruct Dnew_first as (k & c & R & E & _).
    rewrite E. destruct A1; discriminate. }
  exists P, k, v. split; [exact E|]. rewrite E in Hc, He'.
  apply chain_last in Hc. destruct Hc as (Hk & Hm & Hl & Hend').
  rewrite Hend' in He'. rewrite <- He', <- Hm. auto.
Qed.

Lemma G_RC_chain : rchain lo (coalesce (A1 ++ Dnew) ++ coalesce C2).
Proof.
  destruct new_left_chain as [Hc He]. apply coalesce_chain in Hc.
  destruct Hc as [Hc He']. destruct old_parts as (_ & _ & _ & _ & H5).
  apply coalesce_chain in H5. rewrite chain_app, He', He. taut.
Qed.

Lemma merge_low_kept :
  coalesce (A1 ++ Dnew) = coalesce A1 ++ coalesce Dnew ->
  merge_low (coalesce A1 ++ coalesce Dnew ++ coalesce C2) mn
  = (coalesce (A1 ++ Dnew) ++ coalesce C2, Done).
Proof.
  intros E. rewrite app_assoc, <- E.
  apply merge_low_keep with (M1 := coalesce (A1 ++ Dnew)) (M2 := coalesce C2);
    [reflexivity|apply coalesce_alt|].
  destruct G_last as (P & k & v & EP & Hk & _). rewrite EP.
  assert (H : (upper_bound ((P ++ [(k, v)]) ++ coalesce C2) mn <= length P)%nat).
  { apply upper_bound_le_pos with (k := k) (v := v).
    - rewrite <- app_assoc. apply nth_error_middle.
    - rewrite Hk. eapply lt_le_trans; [apply mn_lt_mx|apply mx_le_e3]. }
  rewrite length_app. simpl. lia.
Qed.

Lemma reload_low :
  merge_low (coalesce A1 ++ coalesce Dnew ++ coalesce C2) mn
  = (coalesce (A1 ++ Dnew) ++ coalesce C2, Done).
Proof.
  destruct (list_cases A2) as [EA2|([k2 c2] & A2' & EA2)].
  - destruct (list_cases A1) as [EA1|(a1 & A1' & EA1)].
    + apply merge_low_kept. rewrite EA1. reflexivity.
    + assert (Hmn : mn = e1) by (rewrite EA2; reflexivity).
      destruct (exists_last (l := coalesce A1)) as (P & [ka a] & EP).
      { apply coalesce_nonempty. rewrite EA1. discriminate. }
      destruct (coalesce Dnew) as [|[kd d] Q] eqn:ED.
      { exfalso. revert ED. apply coalesce_nonempty.
        destruct Dnew_first as (k & c & R & E & _). rewrite E. discriminate. }
      pose proof new_index_chain as Hc. rewrite ED, EP in Hc.
      rewrite coalesce_app, ED, EP.
      replace ((P ++ [(ka, a)]) ++ ((kd, d) :: Q) ++ coalesce C2)
        with (P ++ (ka, a) :: (kd, d) :: Q ++ coalesce C2) in Hc |- *
        by (rewrite <- app_assoc; reflexivity).
      rewrite (merge_low_junction lo); auto.
      * change ((kd, d) :: Q ++ coalesce C2) with (((kd, d) :: Q) ++ coalesce C2).
        rewrite glue_app_r by discriminate. reflexivity.
      * pose proof RA_end as He. rewrite EP in He.
        change (P ++ (ka, a) :: (kd, d) :: Q ++ coalesce C2)
          with (P ++ [(ka, a)] ++ (kd, d) :: Q ++ coalesce C2) in Hc |- *.
        rewrite app_assoc in Hc |- *.
        rewrite (upper_bound_in ChunkRange cr_min cr_max lo); auto.
        -- rewrite length_app. simpl. lia.
        -- rewrite He, Hmn. apply le_refl.
        -- apply chain_app in Hc. destruct Hc as [_ Hc]. simpl in Hc.
           destruct Hc as (-> & Hm & Hl & _). rewrite He in Hm.
           rewrite Hmn, <- Hm. exact Hl.
  - apply merge_low_kept.
    assert (H : exists R, Dnew = (k2, c2) :: R /\ getShard c2 = getShard b0).
    { rewrite EA2. exists (A2' ++ B' ++ C1). split; [reflexivity|].
      pose proof HA2 as HF. rewrite EA2 in HF. inversion HF as [|? ? H1 _]; subst.
      apply Shard_eq_true. exact H1. }
    destruct H as (R & E & Hs). rewrite E. apply coalesce_app_left.
    rewrite Hs. exact HA1.
Qed.

Lemma merge_high_kept :
  coalesce (A1 ++ Dnew ++ C2) = coalesce (A1 ++ Dnew) ++ coalesce C2 ->
  merge_high (coalesce (A1 ++ Dnew) ++ coalesce C2) mx
  = (coalesce (A1 ++ Dnew ++ C2), Done).
Proof.
  intros E. rewrite <- E. apply merge_high_keep; [apply coalesce_alt|].
  rewrite E. destruct G_last as (P & k & v & EP & Hk & _). rewrite EP.
  assert (H : (lower_bound ((P ++ [(k, v)]) ++ coalesce C2) mx <= length P)%nat).
  { apply lower_bound_le_pos with (k := k) (v := v).
    - rewrite <- app_assoc. apply nth_error_middle.
    - rewrite Hk. apply mx_le_e3. }
  rewrite !length_app. simpl. lia.
Qed.

Lemma reload_high :
  merge_high (coalesce (A1 ++ Dnew) ++ coalesce C2) mx
  = (coalesce (A1 ++ Dnew ++ C2), Done).
Proof.
  destruct Dnew_last as (R & k & c & ER & _).
  assert (Hkeep : first_differs C2 (getShard c) ->
                  coalesce (A1 ++ Dnew ++ C2) = coalesce (A1 ++ Dnew) ++ coalesce C2).
  { intros Hd. rewrite ER.
    replace (A1 ++ (R ++ [(k, c)]) ++ C2) with (((A1 ++ R) ++ [(k, c)]) ++ C2)
      by (rewrite <- !app_assoc; reflexivity).
    replace (A1 ++ R ++ [(k, c)]) with ((A1 ++ R) ++ [(k, c)])
      by (rewrite <- !app_assoc; reflexivity).
    apply coalesce_app_right. exact Hd. }
  destruct (list_cases C1) as [EC1|(c1 & C1' & EC1)].
  - destruct (list_cases C2) as [EC2|(c2 & C2' & EC2)].
    + apply merge_high_kept. apply Hkeep. left. exact EC2.
    + clear Hkeep.
      assert (Hmx : e3 = mx) by (rewrite EC1; reflexivity).
      destruct G_last as (P & kg & g & EP & Hk & Hlt).
      destruct (coalesce C2) as [|[kc rc] Q] eqn:EC.
      { exfalso. revert EC. apply coalesce_nonempty. rewrite EC2. discriminate. }
      pose proof G_RC_chain as Hc. rewrite EC, EP in Hc.
      replace (A1 ++ Dnew ++ C2) with ((A1 ++ Dnew) ++ C2)
        by (rewrite <- !app_assoc; reflexivity).
      rewrite (coalesce_app (A1 ++ Dnew) C2), EC, EP.
      rewrite <- app_assoc in Hc |- *. simpl app in Hc |- *.
      rewrite (merge_high_junction lo); auto.
      apply (lower_bound_in ChunkRange cr_min cr_max lo); auto.
      * rewrite <- Hmx. exact Hlt.
      * left. rewrite Hk. symmetry. exact Hmx.
  - apply merge_high_kept. apply Hkeep.
    assert (Hs : getShard c = getShard bl).
    { destruct (exists_last (l := C1)) as (C1'' & [k' c'] & E');
        [rewrite EC1; discriminate|].
      pose proof HC1 as HF. rewrite E' in HF, ER.
      apply Forall_app in HF. destruct HF as [_ HF].
      inversion HF as [|? ? H1 _]; subst.
      rewrite !app_assoc in ER. apply app_inj_tail in ER. destruct ER as [_ ER].
      inversion ER; subst. apply Shard_eq_true. exact H1. }
    rewrite Hs. exact HC2.
Qed.

(** [reloadRange] on the index of the old chunks gives the index of the new. *)
Lemma reload_stretch :
  reloadRange (coalesce (A1 ++ Dold ++ C2)) (A1 ++ Dnew ++ C2) mn mx
  = (coalesce (A1 ++ Dnew ++ C2), Done).
Proof.
  destruct old_low as (k0 & lowr & rest & E0 & Hlow & Hmin).
  destruct old_high as (Init & kh & highr & E1 & Hhigh & Hmax).
  assert (Hlen : length (coalesce Dold) = S (length Init)).
  { rewrite E1, length_app. simpl. lia. }
  assert (HD : (0 < length Dnew)%nat).
  { destruct Dnew_first as (k & c & R & E & _). rewrite E. simpl. lia. }
  pose proof new_end as Hend'.
  assert (Herase :
    erase_range (coalesce (A1 ++ Dold ++ C2)) (length (coalesce A1))
                (S (length (coalesce A1) + length Init))
    = coalesce A1 ++ coalesce C2).
  { rewrite old_index.
    replace (S (length (coalesce A1) + length Init))
      with (length (coalesce A1) + length (coalesce Dold))%nat by lia.
    apply erase_range_middle. }
  assert (Hslice :
    slice (A1 ++ Dnew ++ C2) (length A1) (S (lower_bound (A1 ++ Dnew ++ C2) e3))
    = Dnew).
  { rewrite Hend'. apply slice_middle. }
  rewrite <- reload_high.
  eapply reloadRange_run with (kl := k0) (lowr := lowr) (kh := kh) (highr := highr).
  - intros E. rewrite old_index, E0 in E. destruct (coalesce A1); discriminate.
  - exact Hlow.
  - exact Hhigh.
  - rewrite old_index, E0. apply nth_error_middle.
  - rewrite old_index, E1.
    replace (coalesce A1 ++ (Init ++ [(kh, highr)]) ++ coalesce C2)
      with ((coalesce A1 ++ Init) ++ (kh, highr) :: coalesce C2)
      by (rewrite <- !app_assoc; reflexivity).
    rewrite <- length_app. apply nth_error_middle.
  - rewrite Hmin. apply new_begin.
  - rewrite Hmax. reflexivity.
  - rewrite length_app, (length_app Dnew C2). lia.
  - rewrite length_app, (length_app Dnew C2). lia.
  - lia.
  - lia.
  - rewrite Herase, Hslice, reload_insert.
    intros E. apply app_eq_nil in E. destruct E as [_ E].
    apply app_eq_nil in E. destruct E as [E _]. revert E.
    apply coalesce_nonempty. intros E. rewrite E in HD. simpl in HD. lia.
  - rewrite Herase, Hslice, reload_insert. apply reload_low.
Qed.

End Reload.

(** With no index yet, [reloadRange] is [reloadAll]. *)
Lemma reloadRange_first_load chunks mn mx :
  reloadRange [] chunks mn mx = (reloadAll chunks, Done).
Proof. reflexivity. Qed.

(** C6. Let the chunk map be a gapless sequence of chunks from [lo], keyed by
    their max, and let the chunks [B] that covered [[min, max)] be replaced
    by chunks [B'] covering the same span, the chunks [A] before and [C]
    after being as they were.  Then [reloadRange(chunks, min, max)], run on
    the index [reloadAll] built from the old map, ends normally and leaves
    the index [reloadAll] builds from the new map: the same same-shard ranges
    with the same bounds. *)
Theorem reloadRange_equals_reloadAll :
  forall (lo : BSONObj) (A B B' C : ChunkMap),
    chain Chunk getMin getMax lo (A ++ B ++ C) ->
    chain Chunk getMin getMax lo (A ++ B' ++ C) ->
    B <> [] -> B' <> [] ->
    end_key Chunk getMax lo (A ++ B') = end_key Chunk getMax lo (A ++ B) ->
    reloadRange (reloadAll (A ++ B ++ C)) (A ++ B' ++ C)
                (end_key Chunk getMax lo A) (end_key Chunk getMax lo (A ++ B))
    = (reloadAll (A ++ B' ++ C), Done).
Proof.
  intros lo A B B' C Hold Hnew HB HB' Hend.
  rewrite (reloadAll_coalesce lo _ Hold), (reloadAll_coalesce lo _ Hnew).
  destruct (list_cases B) as [E|([kb b0] & Btl & HB0)]; [contradiction|].
  destruct (exists_last HB) as (Bin & [kl bl] & HBl).
  destruct (suffix_on_shard A (getShard b0)) as (A1 & A2 & EA & HA2 & HA1).
  destruct (prefix_on_shard C (getShard bl)) as (C1 & C2 & EC & HC1 & HC2).
  assert (Eold : A ++ B ++ C = A1 ++ (A2 ++ B ++ C1) ++ C2).
  { rewrite EA, EC. rewrite <- !app_assoc. reflexivity. }
  assert (Enew : A ++ B' ++ C = A1 ++ (A2 ++ B' ++ C1) ++ C2).
  { rewrite EA, EC. rewrite <- !app_assoc. reflexivity. }
  rewrite Eold in Hold |- *. rewrite Enew in Hnew |- *.
  rewrite EA in Hend |- *.
  repeat rewrite end_key_app in Hend. repeat rewrite end_key_app.
  apply (reload_stretch lo A1 A2 B B' C1 C2 Btl Bin kb kl b0 bl); auto.
Qed.

(** **** The index [reloadAll] builds *)

Lemma coalesce_from_length : forall l cur,
  (length (coalesce_from cur l) <= S (length l))%nat.
Proof.
  induction l as [|[k c] l IH]; intros cur; simpl; [lia|].
  destruct (Shard_eq _ _).
  - specialize (IH (mkChunkRange (cr_shard cur) (cr_min cur) (getMax c))). lia.
  - specialize (IH (range_of c)). simpl. lia.
Qed.

Lemma coalesce_length l : (length (coalesce l) <= length l)%nat.
Proof.
  destruct l as [|[k c] l]; simpl; [lia|]. apply coalesce_from_length.
Qed.

(** [covers r c]: the range [r] is on the shard of the chunk [c] and
    spans it. *)
Definition covers (r : ChunkRange) (c : Chunk) : Prop :=
  cr_shard r = getShard c /\ le (cr_min r) (getMin c) /\ le (getMax c) (cr_max r).

Lemma coalesce_from_covers : forall l cur,
  lt (cr_min cur) (cr_max cur) -> cchain (cr_max cur) l ->
  (exists kr r, In (kr, r) (coalesce_from cur l) /\ cr_shard r = cr_shard cur
                /\ cr_min r = cr_min cur /\ le (cr_max cur) (cr_max r))
  /\ forall k c, In (k, c) l ->
       exists kr r, In (kr, r) (coalesce_from cur l) /\ covers r c.
Proof.
  induction l as [|[k c] l IH]; intros cur Hlt Hc.
  - split.
    + exists (cr_max cur), cur. simpl. split; [left; reflexivity|].
      split; [reflexivity|]. split; [reflexivity|apply le_refl].
    + intros k c [].
  - simpl in Hc. destruct Hc as (Hk & Hmin & Hlt' & Hc).
    simpl coalesce_from. destruct (Shard_eq (getShard c) (cr_shard cur)) eqn:Es.
    + assert (Hlt2 : lt (cr_min cur) (getMax c)).
      { eapply cmp_trans; [exact Hlt|]. rewrite <- Hmin. exact Hlt'. }
      destruct (IH (mkChunkRange (cr_shard cur) (cr_min cur) (getMax c)) Hlt2 Hc)
        as [(kr & r & Hin & Hs & Hm & Hle) IH2].
      simpl in Hs, Hm, Hle. split.
      * exists kr, r. split; [exact Hin|]. split; [exact Hs|]. split; [exact Hm|].
        eapply le_trans; [|exact Hle]. right. rewrite <- Hmin. exact Hlt'.
      * intros k' c' [Heq|Hin'].
        -- inversion Heq; subst k' c'. exists kr, r. split; [exact Hin|].
           unfold covers. split; [|split].
           ++ rewrite Hs. symmetry. apply Shard_eq_true. exact Es.
           ++ rewrite Hm, Hmin. right. exact Hlt.
           ++ exact Hle.
        -- apply (IH2 k' c'). exact Hin'.
    + destruct (IH (range_of c) Hlt' Hc) as [(kr & r & Hin & Hs & Hm & Hle) IH2].
      simpl in Hs, Hm, Hle. split.
      * exists (cr_max cur), cur. split; [left; reflexivity|].
        split; [reflexivity|]. split; [reflexivity|apply le_refl].
      * intros k' c' [Heq|Hin'].
        -- inversion Heq; subst k' c'. exists kr, r. split; [right; exact Hin|].
           unfold covers. split; [exact Hs|]. split; [|exact Hle].
           rewrite Hm. apply le_refl.
        -- destruct (IH2 k' c' Hin') as (kr' & r' & Hin2 & Hcov).
           exists kr', r'. split; [right; exact Hin2|exact Hcov].
Qed.

Lemma coalesce_covers lo l k c :
  cchain lo l -> In (k, c) l -> exists kr r, In (kr, r) (coalesce l) /\ covers r c.
Proof.
  destruct l as [|[k0 c0] l]; [intros _ []|].
  intros Hc Hin. simpl in Hc. destruct Hc as (Hk & Hmin & Hlt & Hc).
  destruct (coalesce_from_covers l (range_of c0) Hlt Hc)
    as [(kr & r & Hin0 & Hs & Hm & Hle) H2].
  destruct Hin as [Heq|Hin].
  - inversion Heq; subst k0 c0. exists kr, r. split; [exact Hin0|].
    unfold covers. split; [exact Hs|]. split; [|exact Hle].
    simpl in Hm. rewrite Hm. apply le_refl.
  - apply (H2 k c). exact Hin.
Qed.

(** X14. The index that [reloadAll] builds from a gapless chunk map keyed by
    max is itself gapless and keyed by max, starts and ends where the chunk
    map does, has no two neighbouring ranges on the same shard, has no more
    ranges than there are chunks, and holds for every chunk a range on the
    chunk's shard that spans it. *)
Theorem reloadAll_index_shape (lo : BSONObj) (chunks : ChunkMap) :
  chain Chunk getMin getMax lo chunks ->
  chain ChunkRange cr_min cr_max lo (reloadAll chunks)
  /\ end_key ChunkRange cr_max lo (reloadAll chunks) = end_key Chunk getMax lo chunks
  /\ alt (reloadAll chunks)
  /\ (length (reloadAll chunks) <= length chunks)%nat
  /\ (chunks <> [] -> reloadAll chunks <> [])
  /\ (forall k c, In (k, c) chunks ->
        exists kr r, In (kr, r) (reloadAll chunks) /\ covers r c).
Proof.
  intros Hc. rewrite (reloadAll_coalesce lo chunks Hc).
  destruct (coalesce_chain lo chunks Hc) as [H1 H2].
  split; [exact H1|]. split; [exact H2|]. split; [apply coalesce_alt|].
  split; [apply coalesce_length|]. split; [apply coalesce_nonempty|].
  intros k c Hin. apply (coalesce_covers lo chunks k c); auto.
Qed.

(** **** The assertions at the head of [reloadRange] *)

Lemma upper_bound_all {V} (m : omap V) key :
  Forall (fun e => le (fst e) key) m -> upper_bound m key = length m.
Proof.
  intros H. pose proof (upper_bound_app m [] key H) as X.
  rewrite app_nil_r in X. rewrite X. simpl. lia.
Qed.

Lemma lower_bound_all {V} (m : omap V) key :
  Forall (fun e => lt (fst e) key) m -> lower_bound m key = length m.
Proof.
  intros H. pose proof (lower_bound_app m [] key H) as X.
  rewrite app_nil_r in X. rewrite X. simpl. lia.
Qed.

Lemma nth_error_length {T} (l : list T) : nth_error l (length l) = None.
Proof. apply nth_error_None. lia. Qed.

(** X15. [reloadRange] on an index that is not empty fails an assertion and
    leaves the index as it was when [min] is at or above the end of the last
    range ([low] is [end()]), when [max] is above it ([high] is [end()]),
    and when the chunk map is empty ([begin] is [end()]). *)
Theorem reloadRange_failed_assertions (lo : BSONObj) (ranges : ChunkRangeMap)
        (chunks : ChunkMap) (mn mx : BSONObj) :
  chain ChunkRange cr_min cr_max lo ranges -> ranges <> [] ->
  (le (end_key ChunkRange cr_max lo ranges) mn ->
   reloadRange ranges chunks mn mx = (ranges, AssertFailed))
  /\ (lt (end_key ChunkRange cr_max lo ranges) mx ->
      reloadRange ranges chunks mn mx = (ranges, AssertFailed))
  /\ reloadRange ranges [] mn mx = (ranges, AssertFailed).
Proof.
  intros Hc Hne. split; [|split].
  - intros Hle. unfold reloadRange. destruct ranges as [|e0 ranges']; [congruence|].
    cbv zeta. rewrite (upper_bound_all (e0 :: ranges') mn).
    + rewrite nth_error_length. reflexivity.
    + apply (chain_prefix_le ChunkRange cr_min cr_max lo); auto.
  - intros Hlt. unfold reloadRange. destruct ranges as [|e0 ranges']; [congruence|].
    cbv zeta. rewrite (lower_bound_all (e0 :: ranges') mx).
    + rewrite nth_error_length.
      destruct (nth_error (e0 :: ranges') (upper_bound (e0 :: ranges') mn))
        as [[? ?]|]; reflexivity.
    + apply (chain_prefix_lt ChunkRange cr_min cr_max lo); auto.
  - unfold reloadRange. destruct ranges as [|e0 ranges']; [congruence|].
    cbv zeta.
    destruct (nth_error (e0 :: ranges') (upper_bound (e0 :: ranges') mn))
      as [[? ?]|]; [|reflexivity].
    destruct (nth_error (e0 :: ranges') (lower_bound (e0 :: ranges') mx))
      as [[? ?]|]; reflexivity.
Qed.

(** **** The range index across [split] and [setShard] *)

(** The entries [l] of a chunk map with their pointers followed. *)
Definition view (mg : ChunkManager) (l : omap nat) : ChunkMap :=
  map (fun e => (fst e, chunkAt mg (snd e))) l.

(** A manager whose chunk map, read through its pointers, is a gapless
    sequence of chunks from [lo] keyed by max, no chunk entered twice and
    every pointer live. *)
Definition mgr_ok (lo : BSONObj) (mg : ChunkManager) : Prop :=
  cchain lo (chunkMapView mg)
  /\ NoDup (map snd (_chunkMap mg))
  /\ Forall (fun e => (snd e < length (heap mg))%nat) (_chunkMap mg).

(** Two chunks that cover the same keys on the same shard. *)
Definition same_span (c c' : Chunk) : Prop :=
  getShard c' = getShard c /\ getMin c' = getMin c /\ getMax c' = getMax c.

Lemma view_app mg a b : view mg (a ++ b) = view mg a ++ view mg b.
Proof. apply map_app. Qed.

Lemma view_same mg mg' l :
  (forall e, In e l -> chunkAt mg' (snd e) = chunkAt mg (snd e)) ->
  view mg' l = view mg l.
Proof.
  intros H. apply map_ext_in. intros e He. rewrite (H e He). reflexivity.
Qed.

Lemma coalesce_from_ext : forall l l' cur,
  Forall2 (fun e e' => same_span (snd e) (snd e')) l l' ->
  coalesce_from cur l = coalesce_from cur l'.
Proof.
  induction l as [|[k c] l IH]; intros l' cur H; inversion H as [|? [k' c'] ? ? Hs Hr];
    subst; [reflexivity|].
  simpl in Hs. destruct Hs as (Hs & Hm & Hx). simpl.
  rewrite Hs, Hx. unfold range_of. rewrite Hs, Hm, Hx.
  destruct (Shard_eq (getShard c) (cr_shard cur)); rewrite (IH _ _ Hr); reflexivity.
Qed.

Lemma coalesce_ext l l' :
  Forall2 (fun e e' => same_span (snd e) (snd e')) l l' -> coalesce l = coalesce l'.
Proof.
  intros H. inversion H as [|[k c] [k' c'] ? ? Hs Hr]; subst; [reflexivity|].
  simpl in Hs. destruct Hs as (Hs & Hm & Hx). simpl. unfold range_of.
  rewrite Hs, Hm, Hx. apply coalesce_from_ext. exact Hr.
Qed.





(** The entry of [p] in the map, and what is around it. *)
Lemma mgr_ok_at lo mg A k p C :
  mgr_ok lo mg -> _chunkMap mg = A ++ (k, p) :: C ->
  (p < length (heap mg))%nat
  /\ (forall e, In e (A ++ C) -> snd e <> p /\ (snd e < length (heap mg))%nat)
  /\ cchain lo (view mg A)
  /\ k = getMax (chunkAt mg p)
  /\ getMin (chunkAt mg p) = cend lo (view mg A)
  /\ lt (getMin (chunkAt mg p)) (getMax (chunkAt mg p))
  /\ cchain (getMax (chunkAt mg p)) (view mg C).
Proof.
  intros (Hc & Hn & Hl) E. unfold chunkMapView in Hc. rewrite E in Hc, Hn, Hl.
  fold (view mg (A ++ (k, p) :: C)) in Hc. rewrite view_app in Hc.
  apply chain_app in Hc. destruct Hc as [HA Hc]. simpl in Hc.
  destruct Hc as (Hk & Hmin & Hlt & HC).
  split; [exact (Forall_app_mid _ _ _ _ Hl)|]. split.
  - intros e He. split.
    + intros Heq. rewrite map_app in Hn. simpl in Hn.
      apply NoDup_remove_2 in Hn. apply Hn. rewrite <- map_app, <- Heq.
      apply in_map. exact He.
    + rewrite Forall_forall in Hl. apply Hl.
      apply in_app_or in He. apply in_or_app. destruct He; [left|right; right]; auto.
  - repeat split; auto.
Qed.




Lemma view_keys (P : BSONObj -> Prop) mg l :
  Forall (fun e => P (fst e)) (view mg l) -> Forall (fun e => P (fst e)) l.
Proof.
  induction l as [|e l IH]; simpl; intros H; [constructor|].
  inversion H; subst. constructor; auto.
Qed.





(** [reloadRange] and the ranges as lists: what [Section Reload] shows, with
    the stretches on either side found from the chunks themselves. *)
Lemma reloadRange_coalesce lo (A B B' C : ChunkMap) :
  cchain lo (A ++ B ++ C) -> cchain lo (A ++ B' ++ C) ->
  B <> [] -> B' <> [] -> cend lo (A ++ B') = cend lo (A ++ B) ->
  reloadRange (coalesce (A ++ B ++ C)) (A ++ B' ++ C) (cend lo A) (cend lo (A ++ B))
  = (coalesce (A ++ B' ++ C), Done).
Proof.
  intros Hold Hnew HB HB' Hend.
  destruct (list_cases B) as [E|([kb b0] & Btl & HB0)]; [contradiction|].
  destruct (exists_last HB) as (Bin & [kl bl] & HBl).
  destruct (suffix_on_shard A (getShard b0)) as (A1 & A2 & EA & HA2 & HA1).
  destruct (prefix_on_shard C (getShard bl)) as (C1 & C2 & EC & HC1 & HC2).
  assert (Eold : A ++ B ++ C = A1 ++ (A2 ++ B ++ C1) ++ C2).
  { rewrite EA, EC. rewrite <- !app_assoc. reflexivity. }
  assert (Enew : A ++ B' ++ C = A1 ++ (A2 ++ B' ++ C1) ++ C2).
  { rewrite EA, EC. rewrite <- !app_assoc. reflexivity. }
  rewrite Eold in Hold |- *. rewrite Enew in Hnew |- *.
  rewrite EA in Hend |- *.
  repeat rewrite end_key_app in Hend. repeat rewrite end_key_app.
  apply (reload_stretch lo A1 A2 B B' C1 C2 Btl Bin kb kl b0 bl); auto.
Qed.

Lemma Forall2_same {T} (P : T -> T -> Prop) l :
  (forall x, P x x) -> Forall2 P l l.
Proof. intros H. induction l; constructor; auto. Qed.

Lemma same_span_refl c : same_span c c.
Proof. unfold same_span. auto. Qed.

(** The chunk at [p] replaced by one with the same bounds. *)
Lemma set_chunk_view lo mg p c' A k C :
  mgr_ok lo mg -> _chunkMap mg = A ++ (k, p) :: C ->
  getMin c' = getMin (chunkAt mg p) -> getMax c' = getMax (chunkAt mg p) ->
  chunkMapView (set_chunk mg p c') = view mg A ++ (k, c') :: view mg C
  /\ chunkMapView mg = view mg A ++ (k, chunkAt mg p) :: view mg C
  /\ mgr_ok lo (set_chunk mg p c')
  /\ chunkAt (set_chunk mg p c') p = c'.
Proof.
  intros Hok E Hmin Hmax.
  destruct (mgr_ok_at lo mg A k p C Hok E) as (Hp & Hoth & HA & Hk & Hm & Hlt & HC).
  assert (Hat : chunkAt (set_chunk mg p c') p = c') by (apply chunkAt_set_same; auto).
  assert (EA : view (set_chunk mg p c') A = view mg A).
  { apply view_same. intros e He. apply chunkAt_set_other.
    intros X. apply (Hoth e); [apply in_or_app; auto|symmetry; exact X]. }
  assert (EC : view (set_chunk mg p c') C = view mg C).
  { apply view_same. intros e He. apply chunkAt_set_other.
    intros X. apply (Hoth e); [apply in_or_app; auto|symmetry; exact X]. }
  assert (Ev : chunkMapView (set_chunk mg p c') = view mg A ++ (k, c') :: view mg C).
  { unfold chunkMapView. simpl _chunkMap. rewrite E.
    fold (view (set_chunk mg p c') (A ++ (k, p) :: C)). rewrite view_app. simpl.
    fold (view (set_chunk mg p c') C). rewrite EA, EC, Hat. reflexivity. }
  split; [exact Ev|]. split.
  { unfold chunkMapView. rewrite E. fold (view mg (A ++ (k, p) :: C)).
    rewrite view_app. reflexivity. }
  split; [|exact Hat].
  unfold mgr_ok. split; [|split].
  - rewrite Ev. apply chain_app. split; [exact HA|]. simpl.
    rewrite Hmin, Hmax. repeat split; auto.
  - simpl. apply Hok.
  - simpl. rewrite list_set_length. apply Hok.
Qed.

(** X17. [setShard] brings the range index up to date.  On a manager whose
    chunk map is gapless with every chunk entered once, and whose range
    index is the one [reloadAll] builds from it, [setShard(s)] on a chunk
    of the map returns normally: the chunk is on [s] and marked modified
    with version 0, the chunk map is as before, and the range index is
    again the one [reloadAll] builds from the chunk map. *)
Theorem setShard_keeps_range_index (lo : BSONObj) (p : nat) (s : Shard) (w : World)
        (A : omap nat) (k : BSONObj) (C : omap nat) :
  mgr_ok lo (mgr w) -> _chunkMap (mgr w) = A ++ (k, p) :: C ->
  _chunkRanges (mgr w) = reloadAll (chunkMapView (mgr w)) ->
  exists w', setShard p s w = (w', Ret tt)
    /\ chunkAt (mgr w') p = _markModified (set_shard s (chunkAt (mgr w) p))
    /\ _chunkMap (mgr w') = _chunkMap (mgr w)
    /\ mgr_ok lo (mgr w')
    /\ _chunkRanges (mgr w') = reloadAll (chunkMapView (mgr w'))
    /\ trace w' = trace w.
Proof.
  intros Hok E Hidx.
  set (c := chunkAt (mgr w) p).
  set (c1 := set_shard s c).
  destruct (mgr_ok_at lo (mgr w) A k p C Hok E) as (Hp & _ & HA & Hk & Hm & Hlt & HC).
  destruct (set_chunk_view lo (mgr w) p c1 A k C Hok E eq_refl eq_refl)
    as (Ev1 & Ev0 & Hok1 & Hat1).
  set (mg1 := set_chunk (mgr w) p c1) in *.
  (* the notification *)
  assert (Hrr : reloadRange (_chunkRanges mg1) (chunkMapView mg1)
                            (getMin (chunkAt mg1 p)) (getMax (chunkAt mg1 p))
                = (coalesce (chunkMapView mg1), Done)).
  { change (_chunkRanges mg1) with (_chunkRanges (mgr w)).
    rewrite Hidx, (reloadAll_coalesce lo _ (proj1 Hok)). rewrite Hat1, Ev1, Ev0.
    fold c.
    change (getMin c1) with (getMin c). change (getMax c1) with (getMax c).
    replace (getMin c) with (cend lo (view (mgr w) A)) by (symmetry; exact Hm).
    replace (getMax c) with (cend lo (view (mgr w) A ++ [(k, c)]))
      by (rewrite end_key_app; reflexivity).
    apply (reloadRange_coalesce lo (view (mgr w) A) [(k, c)] [(k, c1)] (view (mgr w) C)).
    - pose proof (proj1 Hok) as X. rewrite Ev0 in X. exact X.
    - pose proof (proj1 Hok1) as X. rewrite Ev1 in X. exact X.
    - discriminate.
    - discriminate.
    - rewrite !end_key_app. reflexivity. }
  set (mg2 := mkChunkManager (heap mg1) (_chunks mg1) (_chunkMap mg1)
                             (coalesce (chunkMapView mg1)) (_sequenceNumber mg1)).
  assert (Hok2 : mgr_ok lo mg2) by exact Hok1.
  assert (E2 : _chunkMap mg2 = A ++ (k, p) :: C) by exact E.
  set (c2 := _markModified (chunkAt mg2 p)).
  destruct (set_chunk_view lo mg2 p c2 A k C Hok2 E2 eq_refl eq_refl)
    as (Ev3 & Ev2 & Hok3 & Hat3).
  exists (set_mgr (set_mgr (set_mgr w mg1) mg2) (set_chunk mg2 p c2)).
  split.
  { unfold setShard. unfold bind at 1. unfold modify_chunk at 1.
    fold c. fold c1. fold mg1.
    unfold bind at 1. unfold _migrationNotification.
    unfold bind at 1. unfold get_mgr at 1.
    change (mgr (set_mgr w mg1)) with mg1.
    rewrite Hrr. reflexivity. }
  split.
  { simpl mgr. rewrite Hat3. unfold c2.
    change (chunkAt mg2 p) with (chunkAt mg1 p). rewrite Hat1. reflexivity. }
  split; [reflexivity|]. split; [exact Hok3|]. split; [|reflexivity].
  simpl mgr. rewrite (reloadAll_coalesce lo _ (proj1 Hok3)).
  change (_chunkRanges (set_chunk mg2 p c2)) with (coalesce (chunkMapView mg1)).
  change (chunkMapView mg1) with (chunkMapView mg2). rewrite Ev3, Ev2.
  apply coalesce_ext. apply Forall2_app.
  - apply Forall2_same. intros x. apply same_span_refl.
  - constructor.
    + simpl. unfold c2, same_span. auto.
    + apply Forall2_same. intros x. apply same_span_refl.
Qed.

(** **** [findChunk] on a consistent chunk map *)

Lemma upper_bound_found {V} (m : omap V) key k v :
  nth_error m (upper_bound m key) = Some (k, v) -> lt key k.
Proof.
  induction m as [|[k' v'] m IH]; simpl; [discriminate|].
  destruct (BSONObjCmp key k') eqn:E.
  - simpl. intros H. inversion H; subst. exact E.
  - simpl. exact IH.
Qed.

(** X24. On a consistent chunk map the [upper_bound] lookup of [findChunk]
    selects, for a key inside the range of a chunk of the map, exactly that
    chunk, and [findChunk] returns it without a reload as soon as [contains]
    accepts the document.  For a key at or beyond the end of the span the
    lookup finds nothing, and [findChunk] reloads and retries.  Whatever
    entry the lookup finds, the key is below its max. *)
Theorem findChunk_on_consistent_map (lo obj : BSONObj) (w : World) :
  mgr_ok lo (mgr w) ->
  (forall A k p C, _chunkMap (mgr w) = A ++ (k, p) :: C ->
     le (getMin (chunkAt (mgr w) p)) (extractKey obj) ->
     lt (extractKey obj) (getMax (chunkAt (mgr w) p)) ->
     lookup (mgr w) obj = Some (k, p)
     /\ (contains (chunkAt (mgr w) p) obj = true -> findChunk obj w = (w, Ret p)))
  /\ (le (cend lo (chunkMapView (mgr w))) (extractKey obj) ->
      lookup (mgr w) obj = None
      /\ findChunk obj w = (_reload ;;; findChunk_retry obj) w)
  /\ (forall k p, lookup (mgr w) obj = Some (k, p) ->
        lt (extractKey obj) k /\ k = getMax (chunkAt (mgr w) p)).
Proof.
  intros Hok. split; [|split].
  - intros A k p C E Hle Hlt.
    destruct (mgr_ok_at lo (mgr w) A k p C Hok E) as (_ & _ & HA & Hk & Hmin & _ & _).
    assert (HF : Forall (fun e => le (fst e) (extractKey obj)) A).
    { apply (view_keys (fun x => le x (extractKey obj)) (mgr w)).
      apply (chain_prefix_le Chunk getMin getMax lo); [exact HA|].
      rewrite <- Hmin. exact Hle. }
    assert (L : lookup (mgr w) obj = Some (k, p)).
    { unfold lookup. rewrite E.
      rewrite (upper_bound_app A ((k, p) :: C) (extractKey obj) HF).
      rewrite upper_bound_head by (rewrite Hk; exact Hlt).
      rewrite Nat.add_0_r. apply nth_error_middle. }
    split; [exact L|]. intros Hc. unfold findChunk, bind.
    rewrite (findChunk_lookup_hit obj w k p L Hc). reflexivity.
  - intros Hle.
    assert (HF : Forall (fun e => le (fst e) (extractKey obj)) (_chunkMap (mgr w))).
    { apply (view_keys (fun x => le x (extractKey obj)) (mgr w)).
      apply (chain_prefix_le Chunk getMin getMax lo); [exact (proj1 Hok)|exact Hle]. }
    assert (L : lookup (mgr w) obj = None).
    { unfold lookup. rewrite (upper_bound_all _ _ HF). apply nth_error_length. }
    split; [exact L|]. unfold findChunk, bind at 1.
    rewrite (findChunk_lookup_none obj w L). reflexivity.
  - intros k p L. split; [exact (upper_bound_found _ _ _ _ L)|].
    unfold lookup in L. apply nth_error_In in L.
    apply in_split in L. destruct L as (A & C & E).
    destruct (mgr_ok_at lo (mgr w) A k p C Hok E) as (_ & _ & _ & Hk & _).
    exact Hk.
Qed.

(** **** [ChunkRangeManager::assertValid] *)

Section AssertValid.
(** [e.type() == MinKey] and [e.type() == MaxKey] of the BSON library. *)
Variables isMinKey isMaxKey : BSONValue -> bool.

(** [inline bool allOfType(BSONType type, const BSONObj& o)] *)
Definition allOfType (is_type : BSONValue -> bool) (o : BSONObj) : bool :=
  forallb (fun e => is_type (snd e)) o.

(** [bool ChunkRange::contains(const BSONObj& obj)] *)
Definition ChunkRange_contains (r : ChunkRange) (obj : BSONObj) : bool :=
  (skCompare (cr_min r) obj <=? 0) && (skCompare obj (cr_max r) <? 0).

(** "Make sure there are no gaps or overlaps" *)
Fixpoint no_gaps (last : ChunkRange) (rest : ChunkRangeMap) : bool :=
  match rest with
  | [] => true
  | (_, r) :: rest' => objEq (cr_min r) (cr_max last) && no_gaps r rest'
  end.

(** The six assertions made for one chunk of the manager. *)
Definition chunk_matches (ranges : ChunkRangeMap) (chunk : Chunk) : bool :=
  let min := upper_bound ranges (getMin chunk) in
  let max := lower_bound ranges (getMax chunk) in
  match nth_error ranges min with
  | None => false
  | Some (_, r) =>
      (max <? length ranges)%nat
      && Nat.eqb min max
      && Shard_eq (cr_shard r) (getShard chunk)
      && ChunkRange_contains r (getMin chunk)
      && (ChunkRange_contains r (getMax chunk) || objEq (cr_max r) (getMax chunk))
  end.

(** [void ChunkRangeManager::assertValid()], with [chunks] the chunks of the
    manager's [_chunks]: [true] when every assertion holds, [false] when one
    fails (the exception is thrown again after the ranges are printed).  The
    ranges of the model are never null pointers, so the "No Nulls" loop has
    nothing to check. *)
Definition assertValid (ranges : ChunkRangeMap) (chunks : list Chunk) : bool :=
  match ranges with
  | [] => true
  | (k0, first) :: rest =>
      allOfType isMinKey (cr_min first)
      && allOfType isMaxKey (cr_max (snd (last ranges (k0, first))))
      && no_gaps first rest
      && forallb (fun e => objEq (fst e) (cr_max (snd e))) ranges
      && forallb (chunk_matches ranges) chunks
  end.

(** [ShardKeyPattern::compare] goes with the order of the maps. *)
Hypothesis sk_lt : forall a b, lt a b -> skCompare a b < 0.
Hypothesis sk_refl : forall a, skCompare a a = 0.

Lemma sk_le a b : le a b -> skCompare a b <= 0.
Proof. intros [->|H]; [rewrite sk_refl; lia|apply sk_lt in H; lia]. Qed.

Lemma no_gaps_chain : forall rest first,
  rchain (cr_max first) rest -> no_gaps first rest = true.
Proof.
  induction rest as [|[k r] rest IH]; intros first Hc; [reflexivity|].
  simpl in Hc |- *. destruct Hc as (_ & Hm & _ & Hc).
  rewrite Hm, objEq_refl. simpl. apply IH. exact Hc.
Qed.

Lemma keys_chain : forall ranges lo,
  rchain lo ranges -> forallb (fun e => objEq (fst e) (cr_max (snd e))) ranges = true.
Proof.
  induction ranges as [|[k r] ranges IH]; intros lo Hc; [reflexivity|].
  simpl in Hc |- *. destruct Hc as (Hk & _ & _ & Hc).
  rewrite Hk, objEq_refl. simpl. apply (IH (cr_max r)). exact Hc.
Qed.

Lemma chain_In_lt : forall l lo k c,
  cchain lo l -> In (k, c) l -> lt (getMin c) (getMax c).
Proof.
  induction l as [|[k0 c0] l IH]; intros lo k c Hc Hin; [destruct Hin|].
  simpl in Hc. destruct Hc as (_ & _ & Hlt & Hc).
  destruct Hin as [Heq|Hin]; [inversion Heq; subst; exact Hlt|].
  apply (IH (getMax c0) k c); auto.
Qed.

Lemma chunk_matches_covered lo ranges kr r c :
  rchain lo ranges -> In (kr, r) ranges -> covers r c ->
  lt (getMin c) (getMax c) -> chunk_matches ranges c = true.
Proof.
  intros Hc Hin (Hs & Hlo & Hhi) Hlt.
  apply in_split in Hin. destruct Hin as (P & Q & E). subst ranges.
  pose proof Hc as Hc0. apply chain_app in Hc. destruct Hc as [_ Hc].
  simpl in Hc. destruct Hc as (Hk & Hm & Hl & _). subst kr.
  assert (U : upper_bound (P ++ (cr_max r, r) :: Q) (getMin c) = length P).
  { apply (upper_bound_in ChunkRange cr_min cr_max lo); auto.
    - rewrite <- Hm. exact Hlo.
    - eapply lt_le_trans; eauto. }
  assert (L : lower_bound (P ++ (cr_max r, r) :: Q) (getMax c) = length P).
  { apply (lower_bound_in ChunkRange cr_min cr_max lo); auto.
    rewrite <- Hm. eapply le_lt_trans; eauto. }
  unfold chunk_matches. rewrite U, L, nth_error_middle.
  rewrite Nat.eqb_refl, Hs, Shard_eq_refl.
  assert (Hlen : (length P <? length (P ++ (cr_max r, r) :: Q))%nat = true).
  { apply Nat.ltb_lt. rewrite length_app. simpl. lia. }
  rewrite Hlen. simpl andb.
  assert (C1 : ChunkRange_contains r (getMin c) = true).
  { unfold ChunkRange_contains. apply andb_true_intro. split.
    - apply Z.leb_le. apply sk_le. exact Hlo.
    - apply Z.ltb_lt. apply sk_lt. eapply lt_le_trans; eauto. }
  rewrite C1. simpl andb.
  destruct Hhi as [Heq|Hlt'].
  - rewrite Heq, objEq_refl. apply orb_true_r.
  - apply orb_true_intro. left. unfold ChunkRange_contains.
    apply andb_true_intro. split.
    + apply Z.leb_le. apply sk_le. right. eapply le_lt_trans; eauto.
    + apply Z.ltb_lt. apply sk_lt. exact Hlt'.
Qed.

(** X18. The index that [reloadAll] builds passes [assertValid].  For a
    gapless chunk map keyed by max that starts at an all-[MinKey] object and
    ends at an all-[MaxKey] object, and a manager whose chunks are the
    chunks of that map, every assertion of [assertValid] holds on the index
    built by [reloadAll]. *)
Theorem reloadAll_passes_assertValid (lo : BSONObj) (cmap : ChunkMap)
        (chunks : list Chunk) :
  chain Chunk getMin getMax lo cmap ->
  allOfType isMinKey lo = true ->
  allOfType isMaxKey (end_key Chunk getMax lo cmap) = true ->
  (forall c, In c chunks -> exists k, In (k, c) cmap) ->
  assertValid (reloadAll cmap) chunks = true.
Proof.
  intros Hc Hmin Hmax Hch. rewrite (reloadAll_coalesce lo cmap Hc).
  destruct (coalesce_chain lo cmap Hc) as [Hr He].
  unfold assertValid. destruct (coalesce cmap) as [|[k0 first] rest] eqn:E;
    [reflexivity|].
  rewrite <- E.
  assert (H1 : allOfType isMinKey (cr_min first) = true).
  { simpl in Hr. destruct Hr as (_ & Hm & _). rewrite Hm. exact Hmin. }
  assert (H2 : allOfType isMaxKey (cr_max (snd (last (coalesce cmap) (k0, first)))) = true).
  { rewrite E. destruct (exists_last (l := (k0, first) :: rest)) as (P & [kl l] & EP);
      [discriminate|].
    rewrite EP. rewrite last_last. simpl snd.
    rewrite EP in Hr, He. apply chain_last in Hr. destruct Hr as (_ & _ & _ & Hend).
    rewrite <- Hend, He. exact Hmax. }
  assert (H3 : no_gaps first rest = true).
  { apply no_gaps_chain. simpl in Hr. apply Hr. }
  assert (H4 : forallb (fun e => objEq (fst e) (cr_max (snd e))) (coalesce cmap) = true).
  { rewrite E. apply (keys_chain _ lo). exact Hr. }
  assert (H5 : forallb (chunk_matches (coalesce cmap)) chunks = true).
  { apply forallb_forall. intros c Hin. destruct (Hch c Hin) as (k & Hk).
    destruct (coalesce_covers lo cmap k c Hc Hk) as (kr & r & Hin' & Hcov).
    apply (chunk_matches_covered lo _ kr r c); auto.
    - rewrite E. exact Hr.
    - apply (chain_In_lt cmap lo k c); auto. }
  rewrite H1, H2, H3, H4, H5. reflexivity.
Qed.

End AssertValid.

End RangeIndex.

End ChunkManager.
Arguments Ret {A}.
Arguments Throw {A}.

(** *** A concrete instance: one integer key field ["a"]

    Keys are compared on the value of their first field.  The config server
    stamps the [k]-th new document with version [1000 + k]; every command
    succeeds. *)

Definition kv (o : BSONObj Z) : Z :=
  match o with
  | (_, z) :: _ => z
  | [] => 0
  end.

Definition key (z : Z) : BSONObj Z := [("a"%string, z)].
Definition exCmp (a b : BSONObj Z) : bool := kv a <? kv b.
Definition exCompare (a b : BSONObj Z) : Z :=
  match kv a ?= kv b with Lt => -1 | Eq => 0 | Gt => 1 end.
Definition exEq (a b : BSONObj Z) : bool := kv a =? kv b.

Definition exChunk (lo hi : Z) (shard : string) (lastmod : Z) : Chunk Z :=
  mkChunk Z "t.c" (key lo) (key hi) shard lastmod false 0.

Definition exDoc (lo hi : Z) (shard : string) (lastmod : Z) : ChunkDoc Z :=
  mkChunkDoc Z false "t.c" shard (Some lastmod) None (key lo) (key hi) [].

Definition exBackend (lock_ns split_lock : bool) (docs : list (ChunkDoc Z))
           (median : BSONObj Z) : Backend Z :=
  mkBackend Z (fun _ => lock_ns) split_lock
            (fun k => 1000 + Z.of_nat k)
            (fun _ => docs)
            (fun _ => []) (fun _ => Some median) (fun _ => [])
            (fun _ => Some 1000000) (fun _ => 5)
            "S1"%string true true.

(** A manager holding the given chunks, in key order, on a fresh process. *)
Definition exManager (chunks : list (Chunk Z)) : ChunkManager Z :=
  let map := combine (List.map (_max Z) chunks) (seq 0 (length chunks)) in
  mkChunkManager Z chunks (seq 0 (length chunks)) map
                 (reloadAll Z exCmp (combine (List.map (_max Z) chunks) chunks)) 1.

Definition exWorld (chunks : list (Chunk Z)) : World Z :=
  mkWorld Z (exManager chunks) 1 0 0 [].

(** The operations at this instance. *)
Definition exFindChunk (env : Backend Z) := findChunk Z exCmp exCompare env (fun o => o).
Definition exMoveAndCommit (env : Backend Z) := moveAndCommit Z exCmp exEq env.

(** C1 as stated: the map holds only [[0, 10)], the config server also has
    [[-100, 0)].  Looking up [-5] finds [[0, 10)], which does not contain
    it: the map is reloaded and the call fails with 13141 although a second
    lookup, made here by a second call, finds the right chunk. *)
Lemma findChunk_wrong_chunk_is_fatal_at_once :
  let env := exBackend true true [exDoc (-100) 0 "S0"%string 5; exDoc 0 10 "S0"%string 6] [] in
  let w := exWorld [exChunk 0 10 "S0"%string 6] in
  let first_call := exFindChunk env (key (-5)) w in
  snd first_call = Throw (MsgAssertionException 13141)
  /\ loads Z (fst first_call) = 1%nat
  /\ snd (exFindChunk env (key (-5)) (fst first_call)) = Ret 1%nat.
Proof. vm_compute. repeat split. Qed.


Lemma moveAndCommit_version_increases_witness :
  let env := exBackend true true [] [] in
  let w := exWorld [exChunk 0 10 "S0"%string 7; exChunk 10 20 "S0"%string 8] in
  exists nv rest,
    trace Z (fst (exMoveAndCommit env 1 "S1"%string w))
    = EvLogChange Z "migrate"%string :: EvMoveChunkFinish Z "S1"%string nv :: rest
    /\ (8 < 2 ^ 64 - 1 -> 8 < nv).
Proof.
  cbv zeta.
  refine (proj1 (moveAndCommit_version_increases Z exCmp exCompare exEq exCompare
                   (exBackend true true [] []) (key 1) (fun o => o) 1 "S1"%string
                   (exWorld [exChunk 0 10 "S0"%string 7; exChunk 10 20 "S0"%string 8])) _ _).
  vm_compute. reflexivity.
Defined.

(** C3 as stated: the only chunk of S0 carries the largest 64-bit version.
    After the move S0 has no chunk, the version sent is [oldVersion + 1]
    wrapped around, that is 0, and the move succeeds. *)
Lemma moveAndCommit_version_wraps :
  let env := exBackend true true [] [] in
  let w := exWorld [exChunk 0 10 "S0"%string (2 ^ 64 - 1)] in
  let run := exMoveAndCommit env 0 "S1"%string w in
  getVersion_of Z (mgr Z w) "S0"%string = 2 ^ 64 - 1
  /\ snd run = Ret true
  /\ In (EvMoveChunkFinish Z "S1"%string 0) (trace Z (fst run))
  /\ ~ (2 ^ 64 - 1 < 0).
Proof.
  vm_compute. repeat split; auto. intros H. discriminate.
Qed.


(** C6 at this instance: of the chunks [[0,10) [10,20) [20,30) [30,40)] on
    shards [S0 S0 S1 S0], the chunk [[10,20)] is split at 15 and its upper
    half moved to [S1]; the index goes from [[0,20) [20,30) [30,40)] to
    [[0,15) [15,30) [30,40)]. *)
Lemma reloadRange_equals_reloadAll_witness :
  let A := [(key 10, exChunk 0 10 "S0"%string 1)] in
  let B := [(key 20, exChunk 10 20 "S0"%string 2)] in
  let B' := [(key 15, exChunk 10 15 "S0"%string 3);
             (key 20, exChunk 15 20 "S1"%string 4)] in
  let C := [(key 30, exChunk 20 30 "S1"%string 5);
            (key 40, exChunk 30 40 "S0"%string 6)] in
  reloadRange Z exCmp exEq (reloadAll Z exCmp (A ++ B ++ C)) (A ++ B' ++ C)
              (key 10) (key 20)
  = (reloadAll Z exCmp (A ++ B' ++ C), Done).
Proof.
  cbv zeta.
  assert (Hirr : forall a, exCmp a a = false)
    by (intros a; apply Z.ltb_irrefl).
  assert (Htrans : forall a b c, exCmp a b = true -> exCmp b c = true ->
                                 exCmp a c = true).
  { unfold exCmp. intros a b c H1 H2. apply Z.ltb_lt in H1, H2.
    apply Z.ltb_lt. lia. }
  assert (Hrefl : forall a, exEq a a = true)
    by (intros a; apply Z.eqb_refl).
  apply (reloadRange_equals_reloadAll Z exCmp exEq Hirr Htrans Hrefl (key 0)
           [(key 10, exChunk 0 10 "S0"%string 1)]
           [(key 20, exChunk 10 20 "S0"%string 2)]
           [(key 15, exChunk 10 15 "S0"%string 3);
            (key 20, exChunk 15 20 "S1"%string 4)]
           [(key 30, exChunk 20 30 "S1"%string 5);
            (key 40, exChunk 30 40 "S0"%string 6)]).
  - vm_compute. repeat split.
  - vm_compute. repeat split.
  - discriminate.
  - discriminate.
  - reflexivity.
Defined.

(** *** The instance again: the order on keys, and more runs *)

Lemma exCmp_irrefl : forall a, exCmp a a = false.
Proof. intros a. apply Z.ltb_irrefl. Qed.

Lemma exCmp_trans :
  forall a b c, exCmp a b = true -> exCmp b c = true -> exCmp a c = true.
Proof.
  unfold exCmp. intros a b c H1 H2. apply Z.ltb_lt in H1, H2. apply Z.ltb_lt. lia.
Qed.

Lemma exEq_refl : forall a, exEq a a = true.
Proof. intros a. apply Z.eqb_refl. Qed.

Lemma exCompare_lt : forall a b, lt Z exCmp a b -> exCompare a b < 0.
Proof.
  unfold lt, exCmp, exCompare. intros a b H. apply Z.ltb_lt in H.
  rewrite (proj2 (Z.compare_lt_iff _ _) H). lia.
Qed.

Lemma exCompare_refl : forall a, exCompare a a = 0.
Proof. intros a. unfold exCompare. rewrite Z.compare_refl. reflexivity. Qed.

(** Shards ordered by name. *)
Lemma Shard_ltb_irrefl : forall a, String.ltb a a = false.
Proof.
  intros a. unfold String.ltb.
  pose proof (proj2 (OrderedTypeEx.String_as_OT.cmp_eq a a) eq_refl) as H.
  unfold OrderedTypeEx.String_as_OT.cmp in H. rewrite H. reflexivity.
Qed.

Lemma Shard_ltb_Lt a b : String.ltb a b = true <-> String.compare a b = Lt.
Proof.
  unfold String.ltb. destruct (String.compare a b); split; intros H;
    try reflexivity; discriminate.
Qed.

Lemma Shard_ltb_trans :
  forall a b c, String.ltb a b = true -> String.ltb b c = true -> String.ltb a c = true.
Proof.
  intros a b c H1 H2. apply Shard_ltb_Lt in H1, H2. apply Shard_ltb_Lt.
  apply OrderedTypeEx.String_as_OT.cmp_lt in H1, H2.
  apply OrderedTypeEx.String_as_OT.cmp_lt.
  exact (OrderedTypeEx.String_as_OT.lt_trans _ _ _ H1 H2).
Qed.

Lemma Shard_ltb_total :
  forall a b, String.ltb a b = false -> String.ltb b a = false -> a = b.
Proof.
  intros a b H1 H2. unfold String.ltb in H1, H2.
  rewrite (String.compare_antisym b a) in H2.
  destruct (String.compare a b) eqn:E; simpl in H2; try discriminate.
  apply String.compare_eq_iff. exact E.
Qed.

Definition exChunks3 : list (Chunk Z) :=
  [exChunk 0 10 "S0"%string 1; exChunk 10 20 "S0"%string 2; exChunk 20 30 "S1"%string 3].

Lemma exWorld3_ok : mgr_ok Z exCmp (key 0) (mgr Z (exWorld exChunks3)).
Proof.
  unfold mgr_ok. split; [vm_compute; repeat split|]. split.
  - vm_compute. repeat (apply NoDup_cons; [simpl; lia|]). apply NoDup_nil.
  - simpl. repeat constructor.
Qed.

(** On a config server without chunk documents the constructor makes the
    one chunk over the whole key space, on the primary shard. *)
Lemma ChunkManager_ctor_outcome_witness :
  let env := exBackend true true [] [] in
  let run := ChunkManager_ctor Z exCmp env "t.c" (key (-1000)) (key 1000) "S0"%string
                               (exWorld []) in
  snd run = Ret tt
  /\ heap Z (mgr Z (fst run))
     = [mkChunk Z "t.c" (key (-1000)) (key 1000) "S0"%string 0 true 0]
  /\ _chunkRanges Z (mgr Z (fst run))
     = [(key 1000, mkChunkRange Z "S0"%string (key (-1000)) (key 1000))].
Proof.
  cbv zeta. split; [vm_compute; reflexivity|].
  destruct (ChunkManager_ctor_outcome Z exCmp (exBackend true true [] []) "t.c"
              (key (-1000)) (key 1000) "S0"%string (exWorld [])
              (fst (ChunkManager_ctor Z exCmp (exBackend true true [] []) "t.c"
                      (key (-1000)) (key 1000) "S0"%string (exWorld []))))
    as (_ & _ & _ & _ & _ & H).
  - vm_compute. reflexivity.
  - destruct H as (A & _ & _ & B); [reflexivity|]. split; [exact A|exact B].
Defined.

(** Three chunks, the first two on one shard: two ranges. *)
Lemma reloadAll_index_shape_witness :
  let chunks := combine (map (_max Z) exChunks3) exChunks3 in
  chain Z exCmp (Chunk Z) (getMin Z) (getMax Z) (key 0) chunks
  /\ alt Z (reloadAll Z exCmp chunks)
  /\ (length (reloadAll Z exCmp chunks) <= length chunks)%nat.
Proof.
  cbv zeta.
  assert (Hc : chain Z exCmp (Chunk Z) (getMin Z) (getMax Z) (key 0)
                     (combine (map (_max Z) exChunks3) exChunks3))
    by (vm_compute; repeat split).
  split; [exact Hc|].
  destruct (reloadAll_index_shape Z exCmp exCmp_irrefl exCmp_trans (key 0) _ Hc)
    as (_ & _ & A & B & _).
  split; [exact A|exact B].
Defined.

(** A range that starts where the index ends is refused. *)
Lemma reloadRange_failed_assertions_witness :
  let ranges := [(key 10, mkChunkRange Z "S0"%string (key 0) (key 10))] in
  reloadRange Z exCmp exEq ranges [(key 10, exChunk 0 10 "S0"%string 1)] (key 10) (key 20)
  = (ranges, AssertFailed).
Proof.
  cbv zeta.
  destruct (reloadRange_failed_assertions Z exCmp exEq exCmp_irrefl exCmp_trans (key 0)
              [(key 10, mkChunkRange Z "S0"%string (key 0) (key 10))]
              [(key 10, exChunk 0 10 "S0"%string 1)] (key 10) (key 20))
    as (A & _ & _).
  - vm_compute. repeat split.
  - discriminate.
  - apply A. left. reflexivity.
Defined.


(** The chunk [[10,20)] of three goes to the shard of its right neighbour. *)
Lemma setShard_keeps_range_index_witness :
  let w := exWorld exChunks3 in
  exists w', setShard Z exCmp exEq 1%nat "S1"%string w = (w', Ret tt)
    /\ _chunkRanges Z (mgr Z w') = reloadAll Z exCmp (chunkMapView Z (mgr Z w')).
Proof.
  cbv zeta.
  destruct (setShard_keeps_range_index Z exCmp exEq exCmp_irrefl exCmp_trans exEq_refl
              (key 0) 1%nat "S1"%string (exWorld exChunks3)
              [(key 10, 0%nat)] (key 20) [(key 30, 2%nat)])
    as (w' & A & _ & _ & _ & B & _).
  - exact exWorld3_ok.
  - reflexivity.
  - reflexivity.
  - exists w'. split; [exact A|exact B].
Defined.

(** Two chunks over the key space from -1000 (the least key) to 1000 (the
    greatest). *)
Lemma reloadAll_passes_assertValid_witness :
  let cmap := [(key 0, exChunk (-1000) 0 "S0"%string 1);
               (key 1000, exChunk 0 1000 "S1"%string 2)] in
  assertValid Z exCmp exEq exCompare (fun z => z =? -1000) (fun z => z =? 1000)
              (reloadAll Z exCmp cmap) (map snd cmap) = true.
Proof.
  cbv zeta.
  apply (reloadAll_passes_assertValid Z exCmp exEq exCompare
           exCmp_irrefl exCmp_trans exEq_refl
           (fun z => z =? -1000) (fun z => z =? 1000) exCompare_lt exCompare_refl
           (key (-1000))).
  - vm_compute. repeat split.
  - reflexivity.
  - reflexivity.
  - intros c [<-|[<-|[]]].
    + exists (key 0). left. reflexivity.
    + exists (key 1000). right. left. reflexivity.
Defined.

(** A query that does not bound the key: the shards of all three chunks
    join the one the set held. *)
Lemma getShardsForQuery_result_witness :
  let run := getShardsForQuery Z exCmp (key 1) (fun _ => false) (fun _ => false)
               (fun _ => false) (fun _ => 0) (fun _ => true)
               (fun _ _ => mkFieldRange Z "" [])
               (exManager exChunks3) ["S9"%string] [] in
  exists ss, run = Ret (ss, 3) /\ NoDup ss /\ In "S9"%string ss.
Proof.
  cbv zeta.
  destruct (getShardsForQuery_result Z exCmp (key 1) (fun _ => false) (fun _ => false)
              (fun _ => false) (fun _ => 0) (fun _ => true)
              (fun _ _ => mkFieldRange Z "" [])
              (exManager exChunks3) ["S9"%string] []) as [_ X].
  - constructor; [intros []|constructor].
  - eexists. split; [vm_compute; reflexivity|].
    destruct (X ["S9"; "S0"; "S1"]%string 3) as (A & _ & B & _).
    + vm_compute. reflexivity.
    + split; [exact A|]. apply B. left. reflexivity.
Defined.

(** The key 15 among three chunks: the second one, with no reload. *)
Lemma findChunk_on_consistent_map_witness :
  let env := exBackend true true [] [] in
  let w := exWorld exChunks3 in
  exFindChunk env (key 15) w = (w, Ret 1%nat).
Proof.
  cbv zeta.
  destruct (findChunk_on_consistent_map Z exCmp exCompare (exBackend true true [] [])
              (fun o => o) exCmp_irrefl exCmp_trans (key 0) (key 15)
              (exWorld exChunks3) exWorld3_ok) as (H & _ & _).
  destruct (H [(key 10, 0%nat)] (key 20) 1%nat [(key 30, 2%nat)]) as [_ X].
  - reflexivity.
  - right. reflexivity.
  - reflexivity.
  - apply X. reflexivity.
Defined.

(** Three chunks on two shards, nothing refused. *)
Lemma drop_handles_each_shard_once_witness :
  let m := exManager exChunks3 in
  exists locks shards,
    NoDup locks /\ (forall s, In s shards <-> In s locks)
    /\ drop Z (exBackend true true [] []) String.ltb true true (fun _ => true) m
       = (mkChunkManager Z (heap Z m) [] [] [] (_sequenceNumber Z m),
          ((map OpLock locks ++ map OpDropCollection shards)
           ++ [OpRemoveSharding; OpConfigSave; OpRemoveChunks])
          ++ map OpResetVersion shards,
          Ret tt).
Proof.
  cbv zeta.
  destruct (drop_handles_each_shard_once Z (exBackend true true [] []) String.ltb
              true true (fun _ => true) Shard_ltb_irrefl Shard_ltb_trans Shard_ltb_total
              (exManager exChunks3))
    as (locks & shards & A & _ & _ & _ & B & C).
  - reflexivity.
  - reflexivity.
  - intros p _. split; reflexivity.
  - exists locks, shards. split; [exact A|]. split; [exact B|exact C].
Defined.

End Sharding.
